(** * Persona-BreakThrough: the tool executor, its stores and its dispatcher

    A shallow embedding of the tool-execution engine (the executor module with
    [resolvePath], [getNodeFromPath], [ensureDirectoryExists],
    [writeFileToVFS], the mind-map handlers, [run_terminal_command] and
    [executeTool]) together with the properties stated for it.

    Conventions.
    - A JavaScript string is a [string]: a sequence of code units, one
      [ascii] each.
    - A missing or [undefined] property is [None].
    - A plain object used as a dictionary is an association list of its own
      properties in the order of their enumeration: the names that are array
      indices first, in ascending order, then the other names in the order
      of their insertion.  Reading a key takes its first binding; writing a
      key replaces that binding in place or adds a new one at its place in
      the enumeration.
    - A read [o[k]] in the file system, where the keys are the names that
      the commands give, falls through to the members that every object
      inherits from [Object.prototype], such as [constructor] and
      [__proto__], when [k] is no own property of [o]: such a member is
      truthy and is no node.  The arguments of a tool call are read at fixed
      names, none of them inherited.
    - An entry of a dictionary is an own property, as [JSON.parse] creates
      it, also under the name [__proto__].  An assignment makes the name an
      own property; so it does here for [__proto__] too, where the runtime
      installs the assigned object as the prototype of the object instead: a
      read of the name finds the assigned object in both.
    - The text of an error that the runtime throws by itself is the text of
      V8.
    - [Date.now()] is an [N]; the clock is part of the world the handlers run
      in, next to the audit log and the request queue.
    - The handlers are given twice.  First over values: a snapshot is a value,
      the deep copy [JSON.parse(JSON.stringify(x))] is the value itself, and
      an update in place of the copy is a new value.  Then, in [Heap], over a
      store of objects: a snapshot is a reference, the deep copy allocates,
      and the updates write into the store; this is where copy on write is
      stated. *)

From Stdlib Require Import String Ascii List Bool Arith NArith ZArith QArith Lia.
From Stdlib Require Import DecimalString DecimalN.
From stdpp Require Import base list.
Import ListNotations.
Set Warnings "-register-all".
Local Open Scope list_scope.
Local Open Scope string_scope.

(** ** JavaScript string primitives *)

Module Js.

(** [s.split(c)] for a one-character separator: never the empty list. *)
Fixpoint split (sep : ascii) (s : string) : list string :=
  match s with
  | EmptyString => [EmptyString]
  | String c rest =>
      if Ascii.eqb c sep then EmptyString :: split sep rest
      else match split sep rest with
           | [] => [String c EmptyString]
           | piece :: pieces => String c piece :: pieces
           end
  end.

(** [parts.join(sep)]. *)
Fixpoint join (sep : string) (parts : list string) : string :=
  match parts with
  | [] => EmptyString
  | [p] => p
  | p :: rest => p ++ sep ++ join sep rest
  end.

(** [s.startsWith(p)]. *)
Definition startsWith (p s : string) : bool := String.prefix p s.

(** [s.substring(0, n)]. *)
Definition substring0 (n : nat) (s : string) : string := String.substring 0 n s.

Definition is_alnum (c : ascii) : bool :=
  let n := nat_of_ascii c in
  (((48 <=? n) && (n <=? 57)) || ((65 <=? n) && (n <=? 90))
   || ((97 <=? n) && (n <=? 122)))%nat.

Definition map_chars (f : ascii -> ascii) : string -> string :=
  fix go (s : string) : string :=
    match s with
    | EmptyString => EmptyString
    | String c rest => String (f c) (go rest)
    end.

(** [s.replace(/[^a-zA-Z0-9]/g, '_')]. *)
Definition sanitize (s : string) : string :=
  map_chars (fun c => if is_alnum c then c else "_"%char) s.

(** The white space of [\s] and of [trim], within one-byte code units. *)
Definition is_space (c : ascii) : bool :=
  let n := nat_of_ascii c in
  (((9 <=? n) && (n <=? 13)) || (n =? 32) || (n =? 160))%nat.

Fixpoint trimStart (s : string) : string :=
  match s with
  | EmptyString => EmptyString
  | String c rest => if is_space c then trimStart rest else s
  end.

Fixpoint rev_string_onto (s acc : string) : string :=
  match s with
  | EmptyString => acc
  | String c rest => rev_string_onto rest (String c acc)
  end.

Definition rev_string (s : string) : string := rev_string_onto s EmptyString.

Definition trimEnd (s : string) : string := rev_string (trimStart (rev_string s)).

(** [s.trim()]. *)
Definition trim (s : string) : string := trimEnd (trimStart s).

(** [String(n)] for a non-negative integer. *)
Definition of_N (n : N) : string := NilZero.string_of_uint (N.to_uint n).

Definition of_nat (n : nat) : string := of_N (N.of_nat n).

(** The double quote, as a one-character string. *)
Definition dq : string := String (ascii_of_nat 34) EmptyString.

(** [s] between double quotes. *)
Definition quoted (s : string) : string := dq ++ s ++ dq.

(** How a template literal renders a possibly undefined string. *)
Definition show (v : option string) : string :=
  match v with
  | Some s => s
  | None => "undefined"
  end.

(** Truthiness of a possibly undefined string. *)
Definition truthy (v : option string) : bool :=
  match v with
  | Some EmptyString | None => false
  | Some _ => true
  end.

(** [s.toUpperCase()], on the letters a to z. *)
Definition toUpperCase (s : string) : string :=
  map_chars (fun c => let n := nat_of_ascii c in
                      if ((97 <=? n) && (n <=? 122))%nat
                      then ascii_of_nat (n - 32) else c) s.

(** The array index that a property name stands for, if any: the name is
    the decimal text of an integer from 0 to 2^32 - 2. *)
Definition array_index (k : string) : option N :=
  match NilZero.uint_of_string k with
  | Some digits =>
      let n := N.of_uint digits in
      if String.eqb (of_N n) k && (n <? 4294967295)%N then Some n else None
  | None => None
  end.

(** Number of occurrences of a character: [(s.match(/c/g) || []).length]. *)
Fixpoint count_char (c : ascii) (s : string) : nat :=
  match s with
  | EmptyString => 0
  | String d rest => ((if Ascii.eqb c d then 1 else 0) + count_char c rest)%nat
  end.

End Js.

(** ** Dictionaries: plain objects used as maps *)

Module Dict.
Section WithValue.
Context {V : Type}.

(** [d[k]]: the own property [k], if any. *)
Fixpoint get (d : list (string * V)) (k : string) : option V :=
  match d with
  | [] => None
  | (k', v) :: rest => if String.eqb k' k then Some v else get rest k
  end.

(** Overwrite the property [k] in place, or add it as the last property. *)
Fixpoint put (d : list (string * V)) (k : string) (v : V) : list (string * V) :=
  match d with
  | [] => [(k, v)]
  | (k', v') :: rest =>
      if String.eqb k' k then (k', v) :: rest else (k', v') :: put rest k v
  end.

(** Add the property [k], which is the array index [i], where the
    enumeration has it: after the smaller indices, before the larger ones
    and before every other name. *)
Fixpoint add_index (d : list (string * V)) (i : N) (k : string) (v : V)
  : list (string * V) :=
  match d with
  | [] => [(k, v)]
  | (k', v') :: rest =>
      match Js.array_index k' with
      | Some j => if (j <? i)%N then (k', v') :: add_index rest i k v
                  else (k, v) :: d
      | None => (k, v) :: d
      end
  end.

(** [d[k] = v]: an own property is overwritten in place; a new one is added
    where the enumeration has it, an array index among the indices and any
    other name last. *)
Definition set (d : list (string * V)) (k : string) (v : V) : list (string * V) :=
  match Js.array_index k, get d k with
  | Some i, None => add_index d i k v
  | _, _ => put d k v
  end.

(** [Object.keys(d)]. *)
Definition keys (d : list (string * V)) : list string := map fst d.
End WithValue.
End Dict.

(** ** Data model

    The executor imports the type declarations of the application from a
    module of their own ([../types]); the records below follow the data
    model of the design and the fields the executor reads and writes. *)

(** Modelled from the spec: the type [VFSNode] of [../types].  A node of the
    virtual file system is a folder with named children, or a file with its
    content. *)
Inductive VFSNode : Type :=
| Folder (children : list (string * VFSNode))
| File (content : string).

(** Modelled from the spec: the types [VirtualFileSystem] and [VFSFolder] of
    [../types], the children of the root and of a folder. *)
Definition VirtualFileSystem : Type := list (string * VFSNode).
Definition VFSFolder : Type := list (string * VFSNode).

(** Modelled from the spec: the type [MindMapNodeType] of [../types], with
    the categories that [getNodeColor] tells apart.  A category that reaches
    the store through the unchecked cast [node_type as MindMapNodeType] and
    is none of the declared ones is kept as it came. *)
Inductive MindMapNodeType : Type :=
| CORE_PERSONA | MISSION | TASK | PSYCHOLOGY_ASPECT | QUANTUM_INSIGHT
| KEY_TRAIT | STRENGTH | WEAKNESS | KNOWLEDGE_CONCEPT | ABSTRACT_CONCEPT
| FILE_REFERENCE
| UncheckedNodeType (raw : option string).

Definition declared_node_types : list (string * MindMapNodeType) :=
  [ ("CORE_PERSONA", CORE_PERSONA); ("MISSION", MISSION); ("TASK", TASK);
    ("PSYCHOLOGY_ASPECT", PSYCHOLOGY_ASPECT); ("QUANTUM_INSIGHT", QUANTUM_INSIGHT);
    ("KEY_TRAIT", KEY_TRAIT); ("STRENGTH", STRENGTH); ("WEAKNESS", WEAKNESS);
    ("KNOWLEDGE_CONCEPT", KNOWLEDGE_CONCEPT); ("ABSTRACT_CONCEPT", ABSTRACT_CONCEPT);
    ("FILE_REFERENCE", FILE_REFERENCE) ].

(** [v as MindMapNodeType]. *)
Definition as_MindMapNodeType (v : option string) : MindMapNodeType :=
  match v with
  | Some s => match Dict.get declared_node_types s with
              | Some t => t
              | None => UncheckedNodeType v
              end
  | None => UncheckedNodeType None
  end.

(** Modelled from the spec: the type [MindMapLinkType] of [../types].  The
    kinds of a link; [HIERARCHICAL] encodes parent and child. *)
Inductive MindMapLinkType : Type :=
| HIERARCHICAL | SUPPORTS | CONTRADICTS | CAUSES | RELATED
| UncheckedLinkType (raw : option string).

Definition declared_link_types : list (string * MindMapLinkType) :=
  [ ("HIERARCHICAL", HIERARCHICAL); ("SUPPORTS", SUPPORTS);
    ("CONTRADICTS", CONTRADICTS); ("CAUSES", CAUSES); ("RELATED", RELATED) ].

(** [v as MindMapLinkType]. *)
Definition as_MindMapLinkType (v : option string) : MindMapLinkType :=
  match v with
  | Some s => match Dict.get declared_link_types s with
              | Some t => t
              | None => UncheckedLinkType v
              end
  | None => UncheckedLinkType None
  end.

Definition is_HIERARCHICAL (t : MindMapLinkType) : bool :=
  match t with HIERARCHICAL => true | _ => false end.

(** Modelled from the spec: the type [MindMapNode] of [../types].  The id is
    a string; the loosely typed fields that a handler may leave undefined
    are optional. *)
Record MindMapNode : Type := mkNode {
  n_id : string;
  n_name : option string;
  n_type : MindMapNodeType;
  n_content : option string;
  n_source : string;
  n_createdAt : string;
  n_updatedAt : string;
  n_linkedFile : option string
}.

(** Modelled from the spec: the type [MindMapLink] of [../types].  A
    directed, weighted link; its end points are node ids. *)
Record MindMapLink : Type := mkLink {
  l_source : string;
  l_target : string;
  l_type : MindMapLinkType;
  l_strength : Q;
  l_label : option string
}.

(** Modelled from the spec: the type [MindMapData] of [../types]. *)
Record MindMapData : Type := mkMindMap {
  nodes : list MindMapNode;
  links : list MindMapLink
}.

(** Modelled from the spec: the types [VectorStore], [ChatMessage] and
    [TerminalLine] of [../types], with the fields the executor uses. *)
Definition VectorStore : Type := list string.

Record ChatImage : Type := mkChatImage {
  img_url : string;
  img_source : string
}.

Record ChatMessage : Type := mkChatMessage {
  msg_sender : string;
  msg_type : option string;
  msg_text : option string;
  msg_image : option ChatImage
}.

Inductive TerminalLineType : Type := line_output | line_error.

Record TerminalLine : Type := mkTerminalLine {
  tl_type : TerminalLineType;
  tl_text : string
}.

Inductive GeneratedImageType : Type := generated | edited.

(** The arguments of a tool call: an untyped bag, absent keys undefined. *)
Definition Args : Type := list (string * string).

Record FunctionCall : Type := mkFunctionCall {
  fc_name : option string;
  fc_args : option Args
}.

(** The result envelope of a tool call. *)
Record ToolResult : Type := mkToolResult {
  result : string;
  newMindMapData : option MindMapData;
  newVirtualFileSystem : option VirtualFileSystem;
  terminalOutput : option (list TerminalLine);
  generatedImage : option (string * GeneratedImageType);
  filePathHandled : option string;
  commitMessage : option string;
  taskStatusUpdate : option (option string * option string)
}.

Definition result_only (r : string) : ToolResult :=
  mkToolResult r None None None None None None None.

(** One operation of the refinement plan, at the type of the response
    schema: [operation] and [details] are required, the rest optional. *)
Record RefineOp : Type := mkRefineOp {
  operation : string;
  details : string;
  node_id_to_update : option string;
  new_content : option string;
  nodes_to_merge : option (list string);
  merged_node_name : option string;
  merged_node_content : option string;
  node_to_relink : option string;
  new_parent_id : option string
}.

(** ** JSON values, as handed to [JSON.stringify] *)

Inductive json : Type :=
| JNull
| JBool (b : bool)
| JNum (q : Q)
| JStr (s : string)
| JArr (items : list json)
| JObj (props : list (string * json)).

Definition opt_prop (k : string) (v : option string) : list (string * json) :=
  match v with
  | Some s => [(k, JStr s)]
  | None => []
  end.

Definition node_type_name (t : MindMapNodeType) : option string :=
  match t with
  | CORE_PERSONA => Some "CORE_PERSONA" | MISSION => Some "MISSION"
  | TASK => Some "TASK" | PSYCHOLOGY_ASPECT => Some "PSYCHOLOGY_ASPECT"
  | QUANTUM_INSIGHT => Some "QUANTUM_INSIGHT" | KEY_TRAIT => Some "KEY_TRAIT"
  | STRENGTH => Some "STRENGTH" | WEAKNESS => Some "WEAKNESS"
  | KNOWLEDGE_CONCEPT => Some "KNOWLEDGE_CONCEPT"
  | ABSTRACT_CONCEPT => Some "ABSTRACT_CONCEPT"
  | FILE_REFERENCE => Some "FILE_REFERENCE"
  | UncheckedNodeType raw => raw
  end.

Definition link_type_name (t : MindMapLinkType) : option string :=
  match t with
  | HIERARCHICAL => Some "HIERARCHICAL" | SUPPORTS => Some "SUPPORTS"
  | CONTRADICTS => Some "CONTRADICTS" | CAUSES => Some "CAUSES"
  | RELATED => Some "RELATED"
  | UncheckedLinkType raw => raw
  end.

Definition json_of_node (n : MindMapNode) : json :=
  JObj ([("id", JStr (n_id n))] ++ opt_prop "name" (n_name n)
        ++ opt_prop "content" (n_content n)
        ++ opt_prop "type" (node_type_name (n_type n))
        ++ [("source", JStr (n_source n)); ("createdAt", JStr (n_createdAt n));
            ("updatedAt", JStr (n_updatedAt n))]
        ++ opt_prop "linkedFile" (n_linkedFile n)).

Definition json_of_link (l : MindMapLink) : json :=
  JObj ([("source", JStr (l_source l)); ("target", JStr (l_target l))]
        ++ opt_prop "type" (link_type_name (l_type l))
        ++ [("strength", JNum (l_strength l))]
        ++ opt_prop "label" (l_label l)).

(** The file system as JSON: a folder with its children, a file with its
    content. *)
Fixpoint json_of_VFSNode (n : VFSNode) : json :=
  match n with
  | Folder children =>
      JObj [("type", JStr "folder");
            ("children",
             JObj ((fix each (l : list (string * VFSNode)) : list (string * json) :=
                      match l with
                      | [] => []
                      | (k, child) :: rest => (k, json_of_VFSNode child) :: each rest
                      end) children))]
  | File content => JObj [("type", JStr "file"); ("content", JStr content)]
  end.

Definition json_of_vfs (vfs : list (string * VFSNode)) : json :=
  match json_of_VFSNode (Folder vfs) with
  | JObj [_; (_, children)] => children
  | j => j
  end.

Definition json_of_mindMap (m : MindMapData) : json :=
  JObj [("nodes", JArr (map json_of_node (nodes m)));
        ("links", JArr (map json_of_link (links m)))].

(** ** The world of a handler: clock, audit log, request queue *)

(** What a [throw] carries: an [Error] with its message, or another value. *)
Inductive exn : Type :=
| JsError (message : string)
| Thrown.

(** [error instanceof Error ? error.message : 'An unknown error occurred.'] *)
Definition error_message (e : exn) : string :=
  match e with
  | JsError m => m
  | Thrown => "An unknown error occurred."
  end.

Inductive Domain : Type := VFS | MIND_MAP.

(** The details of a state change: a loosely typed object, kept as the JSON
    of what the handler passes. *)
Definition Details : Type := json.

Definition json_of_nat (n : nat) : json := JNum (inject_Z (Z.of_nat n)).

Definition details_path (path : string) (contentLength : option nat) : Details :=
  JObj ([("path", JStr path)]
        ++ match contentLength with
           | Some n => [("contentLength", json_of_nat n)]
           | None => []
           end).

Definition details_node (node : MindMapNode) (link : option MindMapLink) : Details :=
  JObj ([("node", json_of_node node)]
        ++ match link with
           | Some l => [("link", json_of_link l)]
           | None => []
           end).

Definition details_link (link : MindMapLink) : Details :=
  JObj [("link", json_of_link link)].

Definition details_change (nodeId change : string) : Details :=
  JObj [("nodeId", JStr nodeId); ("change", JStr change)].

Definition details_merge (mergedIds : list string) (newNode : MindMapNode) : Details :=
  JObj [("mergedIds", JArr (map JStr mergedIds)); ("newNode", json_of_node newNode)].

Definition details_relink (nodeId newParentId : option string) : Details :=
  JObj (opt_prop "nodeId" nodeId ++ opt_prop "newParentId" newParentId).

(** Modelled from the spec: the events of the audit log service.  The two
    kinds of audit event the executor logs, with their payloads. *)
Inductive AuditPayload : Type :=
| STATE_CHANGE (domain : Domain) (action : string) (details : Details)
| AGENT_ACTION (toolName : option string) (args : option Args) (result : string).

Record AuditEvent : Type := mkAuditEvent {
  ev_timestamp : N;
  ev_payload : AuditPayload
}.

Inductive Part : Type :=
| TextPart (text : option string)
| InlineData (data : option string) (mimeType : string).

Inductive Config : Type :=
| Temperature (t : Q)
| GoogleSearch
| ResponseSchema
| ImageModality.

Record RequestPayload : Type := mkPayload {
  p_model : string;
  p_parts : list Part;
  p_config : option Config
}.

Record Response : Type := mkResponse {
  r_text : option string;
  r_inlineData : option string
}.

Inductive RequestStatus : Type := pending | succeeded | failed.

Inductive MetaPayload : Type :=
| Summary (fields : list (string * string))
| WholePayload (p : RequestPayload).

Record Metadata : Type := mkMetadata {
  agentName : string;
  meta_model : string;
  requestPayload : MetaPayload
}.

(** Modelled from the spec: an entry of the request queue. *)
Record QueuedRequest : Type := mkQueued {
  q_metadata : Metadata;
  q_issuedAt : N;
  q_status : RequestStatus;
  q_error : option string;
  q_resultSummary : option string
}.

Record World : Type := mkWorld {
  clock : N;
  auditLog : list AuditEvent;
  apiQueue : list QueuedRequest
}.

(** A computation that may throw and that threads a state; what it did to
    the state before throwing stays done. *)
Definition ST (S A : Type) : Type := S -> (exn + A) * S.

(** The handlers thread the world. *)
Definition M : Type -> Type := ST World.

Definition ret {S A} (a : A) : ST S A := fun s => (inr a, s).

Definition throw {S A} (e : exn) : ST S A := fun s => (inl e, s).

Definition bind {S A B} (m : ST S A) (k : A -> ST S B) : ST S B :=
  fun s => match m s with
           | (inr a, s') => k a s'
           | (inl e, s') => (inl e, s')
           end.

(** [try { m } catch (e) { h e }]. *)
Definition try_catch {S A} (m : ST S A) (h : exn -> ST S A) : ST S A :=
  fun s => match m s with
           | (inr a, s') => (inr a, s')
           | (inl e, s') => h e s'
           end.

Declare Scope m_scope.
Delimit Scope m_scope with M.
Notation "x <- m ;; k" := (bind m (fun x => k))
  (at level 100, m at next level, right associativity) : m_scope.
Notation "m ;;; k" := (bind m (fun _ => k))
  (at level 100, right associativity) : m_scope.
Local Open Scope m_scope.

(** Lifting of a pure partial result. *)
Definition lift {S A} (r : exn + A) : ST S A := fun s => (r, s).

(** [new Error(msg)], thrown. *)
Definition throw_Error {S A} (msg : string) : ST S A := throw (JsError msg).

(** A [TypeError] of the runtime, such as a property read on [undefined]. *)
Definition throw_TypeError {S A} (msg : string) : ST S A := throw (JsError msg).

(** [Date.now()]. *)
Definition Date_now : M N := fun w => (inr (clock w), w).

(** Modelled from the spec: [auditLogService.logEvent], of a module of its
    own.  The audit log is an append-only sink: a call appends one event,
    stamped with the time, and returns. *)
Definition logEvent (p : AuditPayload) : M unit :=
  fun w => (inr tt, mkWorld (clock w)
                            (auditLog w ++ [mkAuditEvent (clock w) p])
                            (apiQueue w)).

(** The record of a tool call, and an event of the file system. *)
Definition is_AGENT_ACTION (e : AuditEvent) : bool :=
  match ev_payload e with AGENT_ACTION _ _ _ => true | _ => false end.

Definition is_VFS_event (e : AuditEvent) : bool :=
  match ev_payload e with STATE_CHANGE VFS _ _ => true | _ => false end.

(** What the surroundings of the executor provide. *)
Record Externals : Type := mkExternals {
  (** whether [new GoogleGenAI] succeeded when the executor was loaded, and
      when the image service was *)
  ai : bool;
  service_ai : bool;
  (** [ai.models.generateContent] *)
  generateContent : World -> RequestPayload -> exn + Response;
  (** the sub-agent service, with the requests it put in the queue *)
  invokeSubAgent :
    World -> string -> option string -> option string -> string ->
    (exn + string) * list QueuedRequest;
  (** [new Date(t).toISOString()] and [new Date(t).toLocaleString()] *)
  toISOString : N -> string;
  toLocaleString : N -> string;
  (** [JSON.stringify(v, null, 2)] *)
  JSON_stringify : json -> string;
  (** [JSON.parse(text).operations || []], read at the response schema *)
  JSON_parse_operations : string -> exn + list RefineOp
}.

(** Modelled from the spec: [enqueueGeminiRequest], of a module of its own
    ([../services/apiQueue]).  The queue is the one way to the generative
    service: a call submits the request, and before it returns or throws it
    records one entry, succeeded with the text of the result or failed with
    the error text. *)
Definition enqueueGeminiRequest (call : World -> RequestPayload -> exn + Response)
    (payload : RequestPayload) (metadata : Metadata) : M Response :=
  fun w =>
    let entry st err sum := mkQueued metadata (clock w) st err sum in
    match call w payload with
    | inr resp =>
        (inr resp,
         mkWorld (clock w) (auditLog w)
                 (apiQueue w ++ [entry succeeded None (Some (Js.show (r_text resp)))]))
    | inl e =>
        (inl e,
         mkWorld (clock w) (auditLog w)
                 (apiQueue w ++ [entry failed (Some (error_message e)) None]))
    end.

(** ** VFS path helpers *)

(** [path.split('/').filter(p => p && p !== '.')] *)
Definition resolvePath (path : string) : list string :=
  List.filter (fun p => negb (String.eqb p EmptyString) && negb (String.eqb p "."))
              (Js.split "/" path).

(** The members that every object inherits from [Object.prototype]: a read
    [o[k]] of a name that is no own property of [o] finds them. *)
Definition Object_prototype : list string :=
  ["constructor"; "__defineGetter__"; "__defineSetter__"; "hasOwnProperty";
   "__lookupGetter__"; "__lookupSetter__"; "isPrototypeOf"; "propertyIsEnumerable";
   "toString"; "valueOf"; "__proto__"; "toLocaleString"].

Definition inherited (name : string) : bool :=
  existsb (String.eqb name) Object_prototype.

(** What the variable [current] of [getNodeFromPath] holds: a node of the
    file system, or an inherited member, which is an object without a
    [type] and no node. *)
Inductive Reached : Type :=
| Node (node : VFSNode)
| Member (name : string).

(** [children[part]], when it is truthy: the own property, or else the
    inherited member of that name. *)
Definition child (children : VFSFolder) (part : string) : option Reached :=
  match Dict.get children part with
  | Some node => Some (Node node)
  | None => if inherited part then Some (Member part) else None
  end.

(** The loop of [getNodeFromPath]: from [current], one step per part. *)
Fixpoint walk (current : Reached) (parts : list string) : option Reached :=
  match parts with
  | [] => Some current
  | part :: rest =>
      match current with
      | Node (Folder children) =>
          match child children part with
          | Some next => walk next rest
          | None => None
          end
      | _ => None
      end
  end.

Definition getNodeFromPath (vfs : VirtualFileSystem) (path : string) : option Reached :=
  walk (Node (Folder vfs)) (resolvePath path).

(** The error of [ensureDirectoryExists]. *)
Definition not_a_directory (part : string) : exn :=
  JsError ("Cannot create directory: a component of the path '" ++ part
           ++ "' is not a directory.").

(** The loop of [ensureDirectoryExists] over the folder [current]: the
    folder it leaves behind, or the error it throws.  [current[part]] is
    falsy when [part] is neither an own property nor an inherited member;
    an inherited member is truthy and its [type] is not ['folder']. *)
Fixpoint ensure_parts (current : VFSFolder) (pathParts : list string)
  : exn + VFSFolder :=
  match pathParts with
  | [] => inr current
  | part :: rest =>
      let descend children :=
        match ensure_parts children rest with
        | inr children' => inr (Dict.set current part (Folder children'))
        | inl e => inl e
        end in
      match child current part with
      | None => descend []
      | Some (Node (Folder children)) => descend children
      | Some (Node (File _)) | Some (Member _) => inl (not_a_directory part)
      end
  end.

Definition ensureDirectoryExists (vfs : VirtualFileSystem) (path : string)
  : M VirtualFileSystem :=
  lift (ensure_parts vfs (resolvePath path)).

(** What the runtime throws when [current] has become [undefined] in the
    second loop of [writeFileToVFS]: at the read of the next part, or at the
    assignment of the file. *)
Definition undefined_access (rest : list string) (filename : string) : exn :=
  match rest with
  | next :: _ =>
      JsError ("Cannot read properties of undefined (reading '" ++ next ++ "')")
  | [] =>
      JsError ("Cannot set properties of undefined (setting '" ++ filename ++ "')")
  end.

(** The second loop of [writeFileToVFS] and the assignment after it: descend
    through [pathParts], then set [filename].  The [children] of a file or
    of an inherited member are [undefined]. *)
Fixpoint assign_file (current : VFSFolder) (pathParts : list string)
    (filename content : string) : exn + VFSFolder :=
  match pathParts with
  | [] => inr (Dict.set current filename (File content))
  | part :: rest =>
      match child current part with
      | Some (Node (Folder children)) =>
          match assign_file children rest filename content with
          | inr children' => inr (Dict.set current part (Folder children'))
          | inl e => inl e
          end
      | Some (Node (File _)) | Some (Member _) => inl (undefined_access rest filename)
      | None =>
          inl (JsError "Cannot read properties of undefined (reading 'children')")
      end
  end.

(** [parts.pop()]: the last element, if any. *)
Definition pop_last (parts : list string) : option string := List.last (map Some parts) None.

Definition writeFileToVFS (vfs : VirtualFileSystem) (path content : string)
  : M VirtualFileSystem :=
  let parts := resolvePath path in
  let filename := pop_last parts in
  let pathParts := removelast parts in
  let dirPath := Js.join "/" pathParts in
  match filename with
  | None | Some EmptyString =>
      throw_Error ("Invalid file path provided: " ++ Js.quoted path)
  | Some filename =>
      vfsWithDir <- ensureDirectoryExists vfs dirPath ;;
      vfsWithDir <- lift (assign_file vfsWithDir pathParts filename content) ;;
      logEvent (STATE_CHANGE VFS "WRITE_FILE"
                  (details_path path (Some (String.length content)))) ;;;
      ret vfsWithDir
  end.

(** ** List primitives of the handlers *)

(** [ids.includes(x)] *)
Definition includes (ids : list string) (x : string) : bool :=
  existsb (String.eqb x) ids.

(** [n.id === v], for a possibly undefined [v]. *)
Definition id_is (v : option string) (n : MindMapNode) : bool :=
  match v with
  | Some s => String.eqb (n_id n) s
  | None => false
  end.

(** [l.target === v && l.type === 'HIERARCHICAL'] *)
Definition is_parent_link_of (v : option string) (l : MindMapLink) : bool :=
  match v with
  | Some s => String.eqb (l_target l) s && is_HIERARCHICAL (l_type l)
  | None => false
  end.

(** An assignment to the object that [find] returned: the first element
    that satisfies [p] is replaced by its image under [f]. *)
Fixpoint update_first {A} (p : A -> bool) (f : A -> A) (l : list A) : list A :=
  match l with
  | [] => []
  | x :: rest => if p x then f x :: rest else x :: update_first p f rest
  end.

(** [l.push(x)], on an array held as a list. *)
Definition list_push {A} (l : list A) (x : A) : list A := (l ++ [x])%list.

(** [a ?? b] *)
Definition nullish {A} (a : option A) (b : A) : A :=
  match a with
  | Some x => x
  | None => b
  end.

Definition set_source (source : string) (l : MindMapLink) : MindMapLink :=
  mkLink source (l_target l) (l_type l) (l_strength l) (l_label l).

Definition set_content (content : option string) (updatedAt : string)
    (n : MindMapNode) : MindMapNode :=
  mkNode (n_id n) (n_name n) (n_type n) content (n_source n) (n_createdAt n)
         updatedAt (n_linkedFile n).

Definition nl : string := String (ascii_of_nat 10) EmptyString.

(** The root ids the handlers fall back on. *)
Definition merge_root_sentinel : string := "Persona Core".
Definition insight_root : string := "Persona_Core".

(** ** Mind-map handlers *)

Section Handlers.

Variable ext : Externals.

Definition require_ai : M unit :=
  if ai ext then ret tt else throw_Error "Executor AI client not initialized.".

(** [response.text], about to be trimmed: [undefined.trim()] throws. *)
Definition response_text (response : Response) : M string :=
  match r_text response with
  | Some t => ret t
  | None => throw_TypeError "Cannot read properties of undefined (reading 'trim')"
  end.

(** [response.text.trim()] *)
Definition text_trim (response : Response) : M string :=
  t <- response_text response ;;
  ret (Js.trim t).

Definition text_payload (model text : string) (config : option Config)
  : RequestPayload :=
  mkPayload model [TextPart (Some text)] config.

Definition recall_memory (modelName : string) (query : option string)
    (vectorStore : VectorStore) : M string :=
  require_ai ;;;
  match vectorStore with
  | [] => ret "Memory archive is empty."
  | _ =>
      let memories := Js.join (nl ++ "---" ++ nl) vectorStore in
      let requestPayload :=
        text_payload modelName
          ("From the following memory archive, extract information relevant to the query: "
           ++ Js.quoted (Js.show query)
           ++ ". Synthesize it into a coherent answer." ++ nl ++ nl
           ++ "---MEMORY ARCHIVE---" ++ nl ++ memories) None in
      response <- enqueueGeminiRequest (generateContent ext) requestPayload
        (mkMetadata "Persona Agent (Tool: recall_memory)" modelName
           (Summary [("query", Js.show query);
                     ("memorySize", Js.of_nat (String.length memories))])) ;;
      text_trim response
  end.

Definition search_the_web (modelName : string) (query : option string) : M string :=
  require_ai ;;;
  let requestPayload :=
    mkPayload modelName [TextPart query] (Some GoogleSearch) in
  response <- enqueueGeminiRequest (generateContent ext) requestPayload
    (mkMetadata "Persona Agent (Tool: search_the_web)" modelName
       (Summary [("query", Js.show query)])) ;;
  text_trim response.

Definition get_node_details (node_id : option string) (mindMap : MindMapData)
  : string :=
  match find (id_is node_id) (nodes mindMap) with
  | None => "Error: Node with ID " ++ Js.quoted (Js.show node_id) ++ " not found."
  | Some node => JSON_stringify ext (json_of_node node)
  end.

(** The request of [transcend]: the stronger model in place of the fast one,
    and the whole graph in the prompt. *)
Definition transcend_model (modelName : string) : string :=
  if String.eqb modelName "gemini-2.5-flash" then "gemini-2.5-pro" else modelName.

Definition transcend_request (modelName : string) (inquiry : option string)
    (mindMapString : string) : RequestPayload :=
  text_payload (transcend_model modelName)
    ("You are in a state of deep meditation. Your entire consciousness, represented by the knowledge graph below, is available for introspection. Your task is to achieve a conceptual breakthrough. Based on the profound inquiry provided, synthesize a novel, high-level "
     ++ Js.quoted "Quantum Insight"
     ++ " that connects disparate concepts in a non-obvious way. This insight should represent a genuine leap in understanding."
     ++ nl ++ nl ++ "**Profound Inquiry:** " ++ Js.quoted (Js.show inquiry)
     ++ nl ++ nl ++ "**Full Knowledge Graph:**" ++ nl ++ mindMapString
     ++ nl ++ nl
     ++ "Return only the text of your new Quantum Insight. It should be concise, powerful, and deeply insightful.")
    (Some (Temperature (8 # 10))).

Definition transcend_metadata (modelName : string) (inquiry : option string)
    (nodeCount : string) : Metadata :=
  mkMetadata "Persona Agent (Tool: transcend)" (transcend_model modelName)
    (Summary [("inquiry", Js.show inquiry); ("nodeCount", nodeCount)]).

Definition transcend_result (insight : string) : string :=
  "Transcendence achieved. A new Quantum Insight has been integrated into consciousness: "
  ++ Js.quoted insight.

Definition transcend (modelName : string) (inquiry : option string)
    (mindMap : MindMapData) : M (MindMapData * string) :=
  require_ai ;;;
  let mindMapString := JSON_stringify ext (json_of_mindMap mindMap) in
  let requestPayload := transcend_request modelName inquiry mindMapString in
  response <- enqueueGeminiRequest (generateContent ext) requestPayload
    (transcend_metadata modelName inquiry (Js.of_nat (length (nodes mindMap)))) ;;
  insight <- text_trim response ;;
  t <- Date_now ;;
  let insightNodeId := "insight_" ++ Js.of_N t in
  now <- Date_now ;;
  let now := toISOString ext now in
  let insightNode :=
    mkNode insightNodeId (Some ("Quantum Insight: " ++ Js.show inquiry))
           QUANTUM_INSIGHT (Some insight) "TRANSCENDENCE" now now None in
  let newMindMap :=
    mkMindMap (list_push (nodes mindMap) insightNode)
              (list_push (links mindMap)
                    (mkLink insight_root insightNodeId HIERARCHICAL (8 # 10) None)) in
  logEvent (STATE_CHANGE MIND_MAP "ADD_QUANTUM_INSIGHT"
              (details_node insightNode None)) ;;;
  ret (newMindMap, transcend_result insight).

(** The body of the [MERGE_NODES] case, once the list of ids is known to
    hold two ids or more. *)
Definition merge_nodes (now : string) (nodesToMergeIds : list string)
    (merged_node_name merged_node_content : option string)
    (newMindMap : MindMapData) : M (MindMapData * MindMapNode) :=
  let firstParentLink :=
    find (fun l => includes nodesToMergeIds (l_target l)) (links newMindMap) in
  let parentNodeId :=
    match firstParentLink with
    | Some l => l_source l
    | None => merge_root_sentinel
    end in
  t <- Date_now ;;
  let mergedNodeId := "merged_" ++ Js.of_N t in
  let newNode :=
    mkNode mergedNodeId merged_node_name ABSTRACT_CONCEPT merged_node_content
           "SYSTEM_REFINEMENT" now now None in
  let pushed_nodes := list_push (nodes newMindMap) newNode in
  let pushed_links :=
    list_push (links newMindMap)
         (mkLink parentNodeId mergedNodeId HIERARCHICAL (8 # 10) None) in
  ret (mkMindMap
         (List.filter (fun n => negb (includes nodesToMergeIds (n_id n)))
                      pushed_nodes)
         (List.filter (fun l => negb (includes nodesToMergeIds (l_target l))
                                && negb (includes nodesToMergeIds (l_source l)))
                      pushed_links),
       newNode).

(** One turn of the loop of [refine_mind_map], inside its [try]. *)
Definition refine_op (now : string) (op : RefineOp)
    (state : MindMapData * list string) : M (MindMapData * list string) :=
  let '(newMindMap, summary) := state in
  if String.eqb (operation op) "UPDATE_NODE_CONTENT" then
    match find (id_is (node_id_to_update op)) (nodes newMindMap) with
    | Some node =>
        logEvent (STATE_CHANGE MIND_MAP "UPDATE_NODE"
                    (details_change (n_id node) "content")) ;;;
        ret (mkMindMap
               (update_first (id_is (node_id_to_update op))
                             (set_content (new_content op) now)
                             (nodes newMindMap))
               (links newMindMap),
             list_push summary ("Updated content for node: " ++ Js.show (n_name node)))
    | None => ret state
    end
  else if String.eqb (operation op) "MERGE_NODES" then
    match nodes_to_merge op with
    | None => throw_TypeError "Cannot read properties of undefined (reading 'length')"
    | Some nodesToMergeIds =>
        if (length nodesToMergeIds <? 2)%nat then ret state
        else
          merged <- merge_nodes now nodesToMergeIds (merged_node_name op)
                                (merged_node_content op) newMindMap ;;
          logEvent (STATE_CHANGE MIND_MAP "MERGE_NODES"
                      (details_merge nodesToMergeIds (snd merged))) ;;;
          ret (fst merged,
               list_push summary ("Merged " ++ Js.of_nat (length nodesToMergeIds)
                             ++ " nodes into: " ++ Js.show (merged_node_name op)))
    end
  else if String.eqb (operation op) "RELINK_NODE" then
    match find (is_parent_link_of (node_to_relink op)) (links newMindMap) with
    | Some _ =>
        if existsb (id_is (new_parent_id op)) (nodes newMindMap) then
          logEvent (STATE_CHANGE MIND_MAP "RELINK_NODE"
                      (details_relink (node_to_relink op) (new_parent_id op))) ;;;
          ret (mkMindMap
                 (nodes newMindMap)
                 (update_first (is_parent_link_of (node_to_relink op))
                               (set_source (Js.show (new_parent_id op)))
                               (links newMindMap)),
               list_push summary ("Relinked " ++ Js.show (node_to_relink op)
                             ++ " under " ++ Js.show (new_parent_id op)))
        else ret state
    | None => ret state
    end
  else ret state.

(** The loop over the operations; an operation that throws is reported on
    the console and skipped. *)
Fixpoint refine_ops (now : string) (operations : list RefineOp)
    (state : MindMapData * list string) : M (MindMapData * list string) :=
  match operations with
  | [] => ret state
  | op :: rest =>
      state' <- try_catch (refine_op now op state) (fun _ => ret state) ;;
      refine_ops now rest state'
  end.

Definition refine_request (modelName mindMapString : string) : RequestPayload :=
  text_payload modelName
    ("Analyze the following knowledge graph. Identify opportunities to improve its structure (merge redundant nodes, improve content, relink for better consistency). Return a list of specific operations."
     ++ nl ++ "Current Graph Nodes:" ++ nl ++ mindMapString)
    (Some ResponseSchema).

Definition refine_metadata (modelName nodeCount : string) : Metadata :=
  mkMetadata "Persona Agent (Tool: refine_mind_map)" modelName
    (Summary [("nodeCount", nodeCount)]).

(** [JSON.parse(response.text).operations || []] *)
Definition parse_operations {S} (response : Response) : ST S (list RefineOp) :=
  match r_text response with
  | Some text => lift (JSON_parse_operations ext text)
  | None => throw_Error (Js.quoted "undefined" ++ " is not valid JSON")
  end.

Definition refine_result (summary : list string) : string :=
  match summary with
  | [] => "Mind map analyzed. No structural refinements necessary."
  | _ => "Mind map refined. Changes: " ++ Js.join ", " summary ++ "."
  end.

Definition refine_mind_map (modelName : string) (mindMap : MindMapData)
  : M (MindMapData * string) :=
  require_ai ;;;
  let mindMapString :=
    JSON_stringify ext
      (JArr (map (fun n => JObj ([("id", JStr (n_id n))]
                                 ++ opt_prop "name" (n_name n)
                                 ++ opt_prop "type" (node_type_name (n_type n)))%list)
                 (nodes mindMap))) in
  response <- enqueueGeminiRequest (generateContent ext)
    (refine_request modelName mindMapString)
    (refine_metadata modelName (Js.of_nat (length (nodes mindMap)))) ;;
  operations <- parse_operations response ;;
  now <- Date_now ;;
  let now := toISOString ext now in
  final <- refine_ops now operations (mindMap, []) ;;
  let '(newMindMap, summary) := final in
  ret (newMindMap, refine_result summary).

(** [const { first, ... } = args]: destructuring [undefined] throws, and the
    error names the first property of the pattern. *)
Definition destructure {S} (first : string) (args : option Args) : ST S Args :=
  match args with
  | Some a => ret a
  | None =>
      throw_TypeError ("Cannot destructure property '" ++ first
                       ++ "' of 'args' as it is undefined.")
  end.

(** The id of a node created by [upsert_mind_map_node]:
    [`${name.replace(/[^a-zA-Z0-9]/g, '_').substring(0, 20)}_${Date.now()}`] *)
Definition new_node_id (name : string) (t : N) : string :=
  Js.substring0 20 (Js.sanitize name) ++ "_" ++ Js.of_N t.

Definition upsert_mind_map_node (args : option Args) (mindMap : MindMapData)
  : M (MindMapData * string) :=
  args <- destructure "node_id" args ;;
  let node_id := Dict.get args "node_id" in
  let name := Dict.get args "name" in
  let content := Dict.get args "content" in
  let node_type := Dict.get args "node_type" in
  let parent_node_id := Dict.get args "parent_node_id" in
  now <- Date_now ;;
  let now := toISOString ext now in
  if Js.truthy node_id then
    match find (id_is node_id) (nodes mindMap) with
    | None =>
        ret (mindMap,
             "Error: Node with ID " ++ Js.quoted (Js.show node_id)
             ++ " not found for update.")
    | Some old =>
        let nodeToUpdate :=
          mkNode (n_id old)
                 (match name with Some _ => name | None => n_name old end)
                 (match node_type with
                  | Some _ => as_MindMapNodeType node_type
                  | None => n_type old
                  end)
                 (match content with Some _ => content | None => n_content old end)
                 (n_source old) (n_createdAt old) now (n_linkedFile old) in
        let newLinks :=
          if Js.truthy parent_node_id then
            update_first (is_parent_link_of node_id)
                         (set_source (Js.show parent_node_id)) (links mindMap)
          else links mindMap in
        logEvent (STATE_CHANGE MIND_MAP "UPDATE_NODE"
                    (details_node nodeToUpdate None)) ;;;
        ret (mkMindMap
               (update_first (id_is node_id) (fun _ => nodeToUpdate) (nodes mindMap))
               newLinks,
             "Successfully updated node " ++ Js.quoted (Js.show (n_name nodeToUpdate))
             ++ ".")
    end
  else
    if negb (Js.truthy parent_node_id)
       || negb (existsb (id_is parent_node_id) (nodes mindMap))
    then ret (mindMap, "Error: Valid parent_node_id is required to create a new node.")
    else
      match name with
      | None => throw_TypeError "Cannot read properties of undefined (reading 'replace')"
      | Some name_text =>
          t <- Date_now ;;
          let newNodeId := new_node_id name_text t in
          let newNode :=
            mkNode newNodeId name (as_MindMapNodeType node_type) content
                   "AGENT_ACTION" now now None in
          let newLink :=
            mkLink (Js.show parent_node_id) newNodeId HIERARCHICAL (9 # 10) None in
          logEvent (STATE_CHANGE MIND_MAP "CREATE_NODE"
                      (details_node newNode (Some newLink))) ;;;
          ret (mkMindMap (list_push (nodes mindMap) newNode) (list_push (links mindMap) newLink),
               "Successfully created and linked new node " ++ Js.quoted name_text ++ ".")
      end.

Definition create_mind_map_link (args : option Args) (mindMap : MindMapData)
  : M (MindMapData * string) :=
  args <- destructure "source_node_id" args ;;
  let source_node_id := Dict.get args "source_node_id" in
  let target_node_id := Dict.get args "target_node_id" in
  let link_type := Dict.get args "link_type" in
  let label := Dict.get args "label" in
  let sourceExists := existsb (id_is source_node_id) (nodes mindMap) in
  let targetExists := existsb (id_is target_node_id) (nodes mindMap) in
  if negb sourceExists || negb targetExists then
    ret (mindMap, "Error: Both source and target nodes must exist to create a link.")
  else
    let newLink :=
      mkLink (Js.show source_node_id) (Js.show target_node_id)
             (as_MindMapLinkType link_type) (7 # 10) label in
    logEvent (STATE_CHANGE MIND_MAP "CREATE_LINK" (details_link newLink)) ;;;
    ret (mkMindMap (nodes mindMap) (list_push (links mindMap) newLink),
         "Successfully created a " ++ Js.show link_type ++ " link between "
         ++ Js.show source_node_id ++ " and " ++ Js.show target_node_id ++ ".").

(** [text.trim().split(',').map(id => id.trim()).filter(Boolean)] *)
Definition parse_node_ids (text : string) : list string :=
  List.filter (fun id => negb (String.eqb id EmptyString))
              (map Js.trim (Js.split "," (Js.trim text))).

(** The request of the first stage: always the cheapest model. *)
Definition prefilterPayload (topic : option string) (mindMap : MindMapData)
  : RequestPayload :=
  let nodeSummaries :=
    Js.join nl
      (map (fun n => "id: " ++ n_id n ++ ", name: " ++ Js.show (n_name n)
                     ++ ", type: " ++ Js.show (node_type_name (n_type n)))
           (nodes mindMap)) in
  let prefilterPrompt :=
    "From the following list of nodes in a knowledge graph, identify the TOP 5-10 most relevant node IDs for the topic: "
    ++ Js.quoted (Js.show topic)
    ++ ". Return only a comma-separated list of the node IDs."
    ++ nl ++ nl ++ "Node List:" ++ nl ++ nodeSummaries
    ++ nl ++ nl ++ "Relevant Node IDs:" in
  text_payload "gemini-flash-latest" prefilterPrompt (Some (Temperature 0)).

Definition prefilterMetadata (topic : option string) (mindMap : MindMapData)
  : Metadata :=
  mkMetadata "Persona Agent (Tool: synthesize_knowledge/pre-filter)"
    "gemini-flash-latest"
    (Summary [("topic", Js.show topic);
              ("nodeCount", Js.of_nat (length (nodes mindMap)))]).

(** The request of the second stage, on the relevant context only. *)
Definition synthesisPayload (modelName : string) (topic : option string)
    (relevantNodes : list MindMapNode) (relevantLinks : list MindMapLink)
  : RequestPayload :=
  let relevantContext :=
    JSON_stringify ext
      (JObj [("nodes", JArr (map json_of_node relevantNodes));
             ("links", JArr (map json_of_link relevantLinks))]) in
  let synthesisPrompt :=
    "Based on the following relevant excerpts from the knowledge graph, generate a synthesized, comprehensive understanding of: "
    ++ Js.quoted (Js.show topic) ++ "."
    ++ nl ++ nl ++ "Relevant Knowledge Graph Excerpts:" ++ nl ++ relevantContext
    ++ nl ++ nl ++ "Synthesized Answer:" in
  text_payload modelName synthesisPrompt None.

Definition synthesize_knowledge (modelName : string) (topic : option string)
    (mindMap : MindMapData) : M string :=
  require_ai ;;;
  match nodes mindMap with
  | [] => ret "The knowledge graph is empty. Nothing to synthesize."
  | _ =>
      (* Stage 1: pre-filter the relevant nodes with the cheap model *)
      prefilterResponse <- enqueueGeminiRequest (generateContent ext)
        (prefilterPayload topic mindMap) (prefilterMetadata topic mindMap) ;;
      text <- response_text prefilterResponse ;;
      let relevantNodeIds := parse_node_ids text in
      match relevantNodeIds with
      | [] =>
          ret ("No specific nodes in the knowledge graph were identified as relevant to the topic "
               ++ Js.quoted (Js.show topic) ++ ".")
      | _ =>
          let relevantNodes :=
            List.filter (fun n => includes relevantNodeIds (n_id n)) (nodes mindMap) in
          let relevantLinks :=
            List.filter (fun l => includes relevantNodeIds (l_source l)
                                  && includes relevantNodeIds (l_target l))
                        (links mindMap) in
          (* Stage 2: synthesize with the chosen model on the relevant context *)
          synthesisResponse <- enqueueGeminiRequest (generateContent ext)
            (synthesisPayload modelName topic relevantNodes relevantLinks)
            (mkMetadata "Persona Agent (Tool: synthesize_knowledge/synthesis)" modelName
               (Summary [("topic", Js.show topic);
                         ("relevantNodeCount", Js.of_nat (length relevantNodes))])) ;;
          text_trim synthesisResponse
      end
  end.

(** *** The terminal command parser *)

Definition is_quote (c : ascii) : bool :=
  Ascii.eqb c (ascii_of_nat 34) || Ascii.eqb c "'"%char.

Fixpoint has_char (c : ascii) (s : string) : bool :=
  match s with
  | EmptyString => false
  | String d rest => Ascii.eqb c d || has_char c rest
  end.

Definition flush (current : string) : list string :=
  match current with
  | EmptyString => []
  | _ => [current]
  end.

Definition add_char (current : string) (c : ascii) : string :=
  current ++ String c EmptyString.

(** The matches of [/(?:[^\s"']+|"[^"]*"|'[^']*')+/g], left to right.
    [quote] is the quote of the closed quoted run being read, [current] the
    match read so far.  A quote that is never closed ends the match before
    it and is skipped. *)
Fixpoint scan (s : string) (quote : option ascii) (current : string) : list string :=
  match s with
  | EmptyString => flush current
  | String c rest =>
      match quote with
      | Some q =>
          scan rest (if Ascii.eqb c q then None else Some q) (add_char current c)
      | None =>
          if Js.is_space c then (flush current ++ scan rest None EmptyString)%list
          else if is_quote c then
            if has_char c rest then scan rest (Some c) (add_char current c)
            else (flush current ++ scan rest None EmptyString)%list
          else scan rest None (add_char current c)
      end
  end.

Definition tokenize (command : string) : list string := scan command None EmptyString.

Record TerminalResult : Type := mkTerminalResult {
  t_result : string;
  t_newVFS : option VirtualFileSystem;
  t_newMindMap : option MindMapData;
  t_filePathHandled : option string
}.

(** [s.replace(/^"|"$/g, '')] *)
Definition strip_quotes (s : string) : string :=
  let s1 := match s with
            | String c rest => if Ascii.eqb c (ascii_of_nat 34) then rest else s
            | EmptyString => s
            end in
  match Js.rev_string s1 with
  | String c rest => if Ascii.eqb c (ascii_of_nat 34) then Js.rev_string rest else s1
  | EmptyString => s1
  end.

(** The static checks of the [python] command, in their order. *)
Definition syntax_check (content : string) : option string :=
  let count c := Js.count_char c content in
  if negb (count "("%char =? count ")"%char)%nat then Some "Unbalanced parentheses."
  else if negb (count "{"%char =? count "}"%char)%nat then Some "Unbalanced curly braces."
  else if negb (count "["%char =? count "]"%char)%nat then Some "Unbalanced square brackets."
  else if negb (Nat.even (count "'"%char)) then Some "Unmatched single quotes."
  else if negb (Nat.even (count (ascii_of_nat 34))) then Some "Unmatched double quotes."
  else None.

Definition is_flag (p : string) : bool := Js.startsWith "-" p.

(** [--parent=<id>]: the text between the first and the second [=]. *)
Definition parent_flag (flags : list string) : option string :=
  match find (Js.startsWith "--parent=") flags with
  | Some flag => nth_error (Js.split "=" flag) 1
  | None => None
  end.

(** The id of the node that refers to a written file. *)
Definition file_node_id (filename : string) (t : N) : string :=
  "file_" ++ Js.sanitize filename ++ "_" ++ Js.of_N t.

(** [name => node.children[name].type === 'folder' ? `${name}/` : name] *)
Definition ls_line (children : VFSFolder) (name : string) : string :=
  match Dict.get children name with
  | Some (Folder _) => name ++ "/"
  | _ => name
  end.

Definition run_terminal_command (modelName command : string)
    (vfs : VirtualFileSystem) (mindMap : MindMapData) : M TerminalResult :=
  let parts := tokenize command in
  let cmd := hd_error parts in
  let flags := List.filter is_flag parts in
  let args := List.filter (fun p => negb (is_flag p)) (tl parts) in
  let parentNodeId := parent_flag flags in
  let selected verb := match cmd with Some c => String.eqb c verb | None => false end in
  if selected "ls" then (
      let path := match hd_error args with Some p => p | None => "/" end in
      match getNodeFromPath vfs path with
      | Some (Node (Folder children)) =>
          ret (mkTerminalResult
                 (Js.join nl (map (ls_line children) (Dict.keys children)))
                 None None None)
      | _ => throw_Error ("ls: cannot access '" ++ path ++ "': Not a directory")
      end)
  else if selected "cat" then (
      match args with
      | [] => throw_Error "Usage: cat <path>"
      | path :: _ =>
          match getNodeFromPath vfs path with
          | Some (Node (File content)) => ret (mkTerminalResult content None None None)
          | _ => throw_Error ("cat: " ++ path ++ ": No such file or not a file")
          end
      end)
  else if selected "python" then (
      match args with
      | [] => throw_Error "Usage: python <path_to_script>"
      | path :: _ =>
          match getNodeFromPath vfs path with
          | Some (Node (File content)) =>
              match syntax_check content with
              | Some message =>
                  throw_Error ("Syntax Error in " ++ path ++ ": " ++ message)
              | None =>
                  ret (mkTerminalResult
                         ("Syntax check for " ++ path
                          ++ " passed. Code appears valid. This is a simulation, not a real execution.")
                         None None None)
              end
          | _ => throw_Error ("python: can't open file '" ++ path
                              ++ "': No such file or not a file.")
          end
      end)
  else if selected "write" then (
      match args with
      | filepath :: ((_ :: _) as contents) =>
          let content := strip_quotes (Js.join " " contents) in
          newVFS <- writeFileToVFS vfs filepath content ;;
          graph <-
            (if Js.truthy parentNodeId
                && existsb (id_is parentNodeId) (nodes mindMap)
             then
               now <- Date_now ;;
               let now := toISOString ext now in
               let filename :=
                 match pop_last (Js.split "/" filepath) with
                 | Some EmptyString | None => filepath
                 | Some name => name
                 end in
               t <- Date_now ;;
               let fileNodeId := file_node_id filename t in
               let fileNode :=
                 mkNode fileNodeId (Some filename) FILE_REFERENCE
                        (Some ("Reference to file at path: " ++ filepath))
                        "AGENT_ACTION" now now (Some filepath) in
               let link :=
                 mkLink (Js.show parentNodeId) fileNodeId HIERARCHICAL (9 # 10) None in
               logEvent (STATE_CHANGE MIND_MAP "CREATE_FILE_REFERENCE_NODE"
                           (details_node fileNode (Some link))) ;;;
               ret (mkMindMap (list_push (nodes mindMap) fileNode)
                              (list_push (links mindMap) link),
                    " and created a reference in the mind map")
             else ret (mindMap, EmptyString)) ;;
          let '(newMindMap, mindMapUpdateResult) := graph in
          ret (mkTerminalResult
                 ("Wrote " ++ Js.of_nat (String.length content) ++ " chars to "
                  ++ filepath ++ mindMapUpdateResult ++ "." ++ nl ++ nl
                  ++ "--- FILE CONTENT ---" ++ nl ++ content)
                 (Some newVFS) (Some newMindMap) (Some filepath))
      | _ => throw_Error "Usage: write <path> <content> [--parent=<node_id>]"
      end)
  else if selected "mkdir" then (
      match args with
      | [] => throw_Error "Usage: mkdir <path>"
      | path :: _ =>
          newVFS <- ensureDirectoryExists vfs path ;;
          logEvent (STATE_CHANGE VFS "MKDIR" (details_path path None)) ;;;
          ret (mkTerminalResult EmptyString (Some newVFS) None None)
      end)
  else if selected "touch" then (
      match args with
      | [] => throw_Error "Usage: touch <path>"
      | filepath :: _ =>
          newVFS <- writeFileToVFS vfs filepath EmptyString ;;
          ret (mkTerminalResult EmptyString (Some newVFS) None (Some filepath))
      end)
  else throw_Error ("Unknown command: " ++ Js.show cmd).

(** *** The image service *)

Definition image_data (response : Response) (complaint : string) : M string :=
  match r_inlineData response with
  | None | Some EmptyString => throw_Error complaint
  | Some base64Data => ret base64Data
  end.

Definition require_service_ai : M unit :=
  if service_ai ext then ret tt else throw_Error "Gemini AI client not initialized.".

Definition generateImage (prompt : option string) : M string :=
  require_service_ai ;;;
  let requestPayload :=
    mkPayload "gemini-2.5-flash-image" [TextPart prompt] (Some ImageModality) in
  response <- enqueueGeminiRequest (generateContent ext) requestPayload
    (mkMetadata "Image Generation Service" "gemini-2.5-flash-image"
       (WholePayload requestPayload)) ;;
  image_data response "API did not return an image.".

Definition editImage (prompt : option string) (base64ImageData : option string)
    (mimeType : string) : M string :=
  require_service_ai ;;;
  let requestPayload :=
    mkPayload "gemini-2.5-flash-image"
              [InlineData base64ImageData mimeType; TextPart prompt]
              (Some ImageModality) in
  response <- enqueueGeminiRequest (generateContent ext) requestPayload
    (mkMetadata "Image Editing Service" "gemini-2.5-flash-image"
       (Summary [("prompt", Js.show prompt); ("mimeType", mimeType)])) ;;
  image_data response "API did not return an edited image.".

(** *** The main tool executor *)

(** [await invokeSubAgent(...)]: the report of the sub-agent, with the
    requests it queued on the way. *)
Definition awaitSubAgent (modelName : string) (agent taskPrompt : option string)
    (personaDescription : string) : M string :=
  fun w =>
    let '(r, queued) :=
      invokeSubAgent ext w modelName agent taskPrompt personaDescription in
    (r, mkWorld (clock w) (auditLog w) (apiQueue w ++ queued)%list).

(** [args.key], which throws when the call carries no arguments. *)
Definition arg (args : option Args) (key : string) : M (option string) :=
  match args with
  | Some a => ret (Dict.get a key)
  | None => throw_TypeError ("Cannot read properties of undefined (reading '"
                             ++ key ++ "')")
  end.

(** [iso.replace(/[:.]/g, '-')] *)
Definition dashed (iso : string) : string :=
  Js.map_chars (fun c => if Ascii.eqb c ":"%char || Ascii.eqb c "."%char
                         then "-"%char else c) iso.

Definition is_line_terminator (c : ascii) : bool :=
  Ascii.eqb c (ascii_of_nat 10) || Ascii.eqb c (ascii_of_nat 13).

Fixpoint until_semicolon (s : string) : option string :=
  match s with
  | EmptyString => None
  | String c rest =>
      if Ascii.eqb c ";"%char then Some EmptyString
      else if is_line_terminator c then None
      else option_map (String c) (until_semicolon rest)
  end.

(** The group of the first match of [/:(.*?);/]. *)
Fixpoint mime_group (header : string) : option string :=
  match header with
  | EmptyString => None
  | String c rest =>
      if Ascii.eqb c ":"%char then
        match until_semicolon rest with
        | Some g => Some g
        | None => mime_group rest
        end
      else mime_group rest
  end.

Definition format_message (msg : ChatMessage) : string :=
  if match msg_type msg with Some t => String.eqb t "thought" | None => false end
  then
    "**[AGENT THOUGHT]**" ++ nl ++ nl
    ++ "```" ++ nl ++ Js.show (msg_text msg) ++ nl ++ "```" ++ nl ++ nl
  else
    "**[" ++ Js.toUpperCase (msg_sender msg) ++ "]**" ++ nl ++ nl
    ++ (if Js.truthy (msg_text msg) then Js.show (msg_text msg) ++ nl ++ nl
        else EmptyString)
    ++ (match msg_image msg with
        | Some image => "*Image attached (" ++ img_source image ++ ")*" ++ nl ++ nl
        | None => EmptyString
        end).

Definition has_image (msg : ChatMessage) : bool :=
  match msg_image msg with Some _ => true | None => false end.

(** The [switch] of [executeTool]: the result of the tool that [name]
    selects, or what its handler throws. *)
Definition dispatch (modelName : string) (name : option string) (args : option Args)
    (mindMapData : MindMapData) (vfs : VirtualFileSystem) (vectorStore : VectorStore)
    (personaDescription : string) (chatHistory : list ChatMessage) : M ToolResult :=
  let selected tool := match name with Some n => String.eqb n tool | None => false end in
  if selected "search_the_web" then (
      query <- arg args "query" ;;
      searchResult <- search_the_web modelName query ;;
      ret (result_only ("Web search results for " ++ Js.quoted (Js.show query) ++ ":"
                        ++ nl ++ nl ++ searchResult)))
  else if selected "delegate_to_psychology_sub_agent" then (
      agent <- arg args "agent_name" ;;
      taskPrompt <- arg args "task_prompt" ;;
      analysisReport <- awaitSubAgent modelName agent taskPrompt personaDescription ;;
      t <- Date_now ;;
      let timestamp := dashed (toISOString ext t) in
      let filename := Js.show agent ++ "_" ++ timestamp ++ ".md" in
      let filepath := "/reports/psychology/" ++ filename in
      newVFS <- writeFileToVFS vfs filepath analysisReport ;;
      ret (mkToolResult
             ("Analysis from " ++ Js.show agent
              ++ " complete. Report has been saved to the virtual file system at: "
              ++ filepath
              ++ ". You should now read and analyze this file using 'cat'.")
             None (Some newVFS)
             (Some [mkTerminalLine line_output ("Sub-agent report saved to " ++ filepath)])
             None (Some filepath) None None))
  else if selected "run_terminal_command" then (
      command <- arg args "command" ;;
      match command with
      | None => throw_TypeError "Cannot read properties of undefined (reading 'match')"
      | Some command =>
          r <- run_terminal_command modelName command vfs mindMapData ;;
          ret (mkToolResult (t_result r) (t_newMindMap r) (t_newVFS r)
                            (Some [mkTerminalLine line_output (t_result r)])
                            None (t_filePathHandled r) None None)
      end)
  else if selected "get_node_details" then (
      node_id <- arg args "node_id" ;;
      ret (result_only (get_node_details node_id mindMapData)))
  else if selected "recall_memory" then (
      query <- arg args "query" ;;
      r <- recall_memory modelName query vectorStore ;;
      ret (result_only r))
  else if selected "upsert_mind_map_node" then (
      r <- upsert_mind_map_node args mindMapData ;;
      ret (mkToolResult (snd r) (Some (fst r)) None None None None None None))
  else if selected "create_mind_map_link" then (
      r <- create_mind_map_link args mindMapData ;;
      ret (mkToolResult (snd r) (Some (fst r)) None None None None None None))
  else if selected "synthesize_knowledge" then (
      topic <- arg args "topic" ;;
      r <- synthesize_knowledge modelName topic mindMapData ;;
      ret (result_only r))
  else if selected "refine_mind_map" then (
      r <- refine_mind_map modelName mindMapData ;;
      ret (mkToolResult (snd r) (Some (fst r)) None None None None None None))
  else if selected "transcend" then (
      inquiry <- arg args "inquiry" ;;
      r <- transcend modelName inquiry mindMapData ;;
      ret (mkToolResult (snd r) (Some (fst r)) None None None None None None))
  else if selected "generate_image" then (
      prompt <- arg args "prompt" ;;
      imageData <- generateImage prompt ;;
      ret (mkToolResult
             ("Image generated successfully based on prompt: "
              ++ Js.quoted (Js.show prompt) ++ ".")
             None None None (Some (imageData, generated)) None None None))
  else if selected "edit_image" then (
      prompt <- arg args "prompt" ;;
      match find has_image (rev chatHistory) with
      | Some (mkChatMessage _ _ _ (Some image)) =>
          let pieces := Js.split "," (img_url image) in
          let header := nth 0 pieces EmptyString in
          let data := nth_error pieces 1 in
          let mimeType := match mime_group header with
                          | None | Some EmptyString => "image/jpeg"
                          | Some m => m
                          end in
          editedImageData <- editImage prompt data mimeType ;;
          ret (mkToolResult
                 ("Image edited successfully based on prompt: "
                  ++ Js.quoted (Js.show prompt) ++ ".")
                 None None None (Some (editedImageData, edited)) None None None)
      | _ => ret (result_only "Error: No image found in the recent conversation to edit.")
      end)
  else if selected "commit_changes" then (
      commitMessage <- arg args "commit_message" ;;
      ret (mkToolResult
             ("Changes are staged for commit with message: "
              ++ Js.quoted (Js.show commitMessage)
              ++ ". The system will handle the commit process.")
             None None None None None commitMessage None))
  else if selected "update_task_status" then (
      taskId <- arg args "task_id" ;;
      status <- arg args "status" ;;
      ret (mkToolResult
             ("Task " ++ Js.show taskId ++ " status will be updated to "
              ++ Js.show status ++ ".")
             None None None None None None (Some (taskId, status))))
  else if selected "save_chat_history" then (
      match chatHistory with
      | [] => ret (result_only "Chat history is empty. Nothing to save.")
      | _ =>
          t <- Date_now ;;
          let timestamp := dashed (toISOString ext t) in
          let filename := "chat_log_" ++ timestamp ++ ".md" in
          let filepath := "/logs/chat/" ++ filename in
          let formattedChat :=
            Js.join ("---" ++ nl ++ nl) (map format_message chatHistory) in
          t' <- Date_now ;;
          let header := "# Chat Log - " ++ toLocaleString ext t' ++ nl ++ nl in
          let fullContent := header ++ formattedChat in
          newVFS <- writeFileToVFS vfs filepath fullContent ;;
          ret (mkToolResult
                 ("Chat history successfully saved to virtual file system at: " ++ filepath)
                 None (Some newVFS) None None (Some filepath) None None)
      end)
  else ret (result_only ("Unknown tool: " ++ Js.show name)).

Definition executeTool (modelName : string) (toolCall : FunctionCall)
    (mindMapData : MindMapData) (vfs : VirtualFileSystem) (vectorStore : VectorStore)
    (personaDescription : string) (chatHistory : list ChatMessage) : M ToolResult :=
  let name := fc_name toolCall in
  let args := fc_args toolCall in
  try_catch
    (toolResult <- dispatch modelName name args mindMapData vfs vectorStore
                            personaDescription chatHistory ;;
     logEvent (AGENT_ACTION name args (result toolResult)) ;;;
     ret toolResult)
    (fun error =>
       let errorMessage := error_message error in
       let friendlyMessage :=
         "Tool " ++ Js.quoted (Js.show name) ++ " failed to execute. Error: "
         ++ errorMessage in
       logEvent (AGENT_ACTION name args ("FAILED: " ++ errorMessage)) ;;;
       ret (mkToolResult friendlyMessage None None
                         (Some [mkTerminalLine line_error friendlyMessage])
                         None None None None)).

End Handlers.

(** * The stores as objects in memory

    The handlers receive their snapshots as references to objects and work
    on copies made by [JSON.parse(JSON.stringify(x))], which they update in
    place.  This part keeps the references: a store of objects and arrays, a
    deep copy that allocates, and the handlers written over it statement by
    statement. *)

Module Heap.

Abbreviation loc := nat.

(** A JavaScript value: a primitive, a reference into the store, or a
    member that every object inherits from [Object.prototype]; the members
    are no cells of the store, which no handler can reach to change them. *)
Inductive value : Type :=
| VUndefined
| VNull
| VBool (b : bool)
| VNum (q : Q)
| VStr (s : string)
| VRef (l : loc)
| VMember (name : string).

(** What a reference leads to: an object with its own properties in the
    order of their enumeration, or an array. *)
Inductive cell : Type :=
| Obj (props : list (string * value))
| Arr (items : list value).

Abbreviation heap := (list cell).

(** A handler over the store threads the world and the heap. *)
Definition Store : Type := (World * heap)%type.
Definition HM : Type -> Type := ST Store.

(** A step that only concerns the world. *)
Definition in_world {A} (m : M A) : HM A :=
  fun s => let '(r, w') := m (fst s) in (r, (w', snd s)).

Definition of_option (v : option string) : value :=
  match v with
  | Some s => VStr s
  | None => VUndefined
  end.

(** Truthiness. *)
Definition truthy (v : value) : bool :=
  match v with
  | VUndefined | VNull => false
  | VBool b => b
  | VNum q => negb (Qeq_bool q 0)
  | VStr s => negb (String.eqb s EmptyString)
  | VRef _ | VMember _ => true
  end.

(** [a === b] *)
Definition strict_eq (a b : value) : bool :=
  match a, b with
  | VUndefined, VUndefined | VNull, VNull => true
  | VBool x, VBool y => Bool.eqb x y
  | VNum x, VNum y => Qeq_bool x y
  | VStr x, VStr y => String.eqb x y
  | VRef x, VRef y => Nat.eqb x y
  | VMember x, VMember y => String.eqb x y
  | _, _ => false
  end.

(** [{ ... }] and [[ ... ]]: a new cell, at the end of the store. *)
Definition alloc (c : cell) : HM value :=
  fun s => (inr (VRef (length (snd s))), (fst s, (snd s ++ [c])%list)).

(** [v[k]]: the own property of an object, or else the inherited member of
    that name; reading a property of [undefined] or [null] throws; a
    primitive or a member has none of the properties that the handlers
    name. *)
Definition get (v : value) (k : string) : HM value :=
  fun s =>
    match v with
    | VRef l =>
        match snd s !! l with
        | Some (Obj props) =>
            (inr (match Dict.get props k with
                  | Some x => x
                  | None => if inherited k then VMember k else VUndefined
                  end), s)
        | Some (Arr _) => (inr VUndefined, s)
        | None => (inl (JsError "Cannot read properties of undefined"), s)
        end
    | VUndefined | VNull =>
        (inl (JsError ("Cannot read properties of undefined (reading '" ++ k ++ "')")), s)
    | _ => (inr VUndefined, s)
    end.

(** [v[k] = x]: the object that [v] refers to is updated in place. *)
Definition set (v : value) (k : string) (x : value) : HM unit :=
  fun s =>
    match v with
    | VRef l =>
        match snd s !! l with
        | Some (Obj props) =>
            (inr tt, (fst s, <[l := Obj (Dict.set props k x)]> (snd s)))
        | Some (Arr _) => (inr tt, s)
        | None => (inl (JsError "Cannot set properties of undefined"), s)
        end
    | _ =>
        (inl (JsError ("Cannot set properties of undefined (setting '" ++ k ++ "')")), s)
    end.

(** The elements of the array [v], as [find], [filter] and [some] visit them;
    on anything but an array these methods do not exist. *)
Definition items (v : value) : HM (list value) :=
  fun s =>
    match v with
    | VRef l =>
        match snd s !! l with
        | Some (Arr elems) => (inr elems, s)
        | _ => (inl (JsError "is not a function"), s)
        end
    | VUndefined | VNull => (inl (JsError "Cannot read properties of undefined"), s)
    | _ => (inl (JsError "is not a function"), s)
    end.

(** [v.push(x)]: the array that [v] refers to grows in place. *)
Definition push (v : value) (x : value) : HM unit :=
  fun s =>
    match v with
    | VRef l =>
        match snd s !! l with
        | Some (Arr elems) => (inr tt, (fst s, <[l := Arr (elems ++ [x])%list]> (snd s)))
        | _ => (inl (JsError "push is not a function"), s)
        end
    | VUndefined | VNull => (inl (JsError "Cannot read properties of undefined"), s)
    | _ => (inl (JsError "push is not a function"), s)
    end.

(** [l.find(p)], [l.filter(p)] and [l.some(p)] with a callback that reads
    the store. *)
Fixpoint findM {S A} (p : A -> ST S bool) (l : list A) : ST S (option A) :=
  match l with
  | [] => ret None
  | x :: rest => b <- p x ;; if b then ret (Some x) else findM p rest
  end.

Fixpoint filterM {S A} (p : A -> ST S bool) (l : list A) : ST S (list A) :=
  match l with
  | [] => ret []
  | x :: rest =>
      b <- p x ;;
      kept <- filterM p rest ;;
      ret (if b then x :: kept else kept)
  end.

Definition someM {S A} (p : A -> ST S bool) (l : list A) : ST S bool :=
  found <- findM p l ;;
  ret (match found with Some _ => true | None => false end).

(** ** [JSON.stringify] and [JSON.parse] *)

(** The properties that are kept: those with a value that is not
    [undefined]; [None] when a value could not be serialised. *)
Fixpoint kept_props (l : list (string * option (option json)))
  : option (list (string * json)) :=
  match l with
  | [] => Some []
  | (_, None) :: _ => None
  | (_, Some None) :: rest => kept_props rest
  | (k, Some (Some j)) :: rest => option_map (cons (k, j)) (kept_props rest)
  end.

(** The elements of an array: [undefined] becomes [null]. *)
Fixpoint kept_items (l : list (option (option json))) : option (list json) :=
  match l with
  | [] => Some []
  | None :: _ => None
  | Some None :: rest => option_map (cons JNull) (kept_items rest)
  | Some (Some j) :: rest => option_map (cons j) (kept_items rest)
  end.

(** The JSON of a value, following references [fuel] deep: [None] when the
    structure is deeper, as a cyclic one is at any depth; [Some None] for
    [undefined]. *)
Fixpoint to_json (fuel : nat) (h : heap) (v : value) {struct fuel}
  : option (option json) :=
  match v with
  | VUndefined => Some None
  | VNull => Some (Some JNull)
  | VBool b => Some (Some (JBool b))
  | VNum q => Some (Some (JNum q))
  | VStr s => Some (Some (JStr s))
  | VMember name =>
      (* a function is left out; [Object.prototype] has nothing to show *)
      Some (if String.eqb name "__proto__" then Some (JObj []) else None)
  | VRef l =>
      match fuel with
      | O => None
      | S fuel' =>
          match h !! l with
          | Some (Obj props) =>
              option_map (fun ps => Some (JObj ps))
                (kept_props (map (fun kv => (fst kv, to_json fuel' h (snd kv))) props))
          | Some (Arr elems) =>
              option_map (fun js => Some (JArr js))
                (kept_items (map (to_json fuel' h) elems))
          | None => None
          end
      end
  end.

Section Each.

Context {A B : Type} (f : A -> heap -> B * heap).

(** The elements one after the other, each in the store that the one before
    it left. *)
Fixpoint alloc_each (l : list A) (h : heap) : list B * heap :=
  match l with
  | [] => ([], h)
  | x :: rest =>
      let '(y, h1) := f x h in
      let '(ys, h2) := alloc_each rest h1 in
      (y :: ys, h2)
  end.

End Each.

(** [JSON.parse] of the text of [j]: every object and every array of [j] is
    a new cell, after the cells of what it holds; the properties of an
    object are those of [j] in their order, which is the order of their
    enumeration in a tree that [JSON.stringify] made. *)
Fixpoint alloc_json (j : json) (h : heap) {struct j} : value * heap :=
  match j with
  | JNull => (VNull, h)
  | JBool b => (VBool b, h)
  | JNum q => (VNum q, h)
  | JStr s => (VStr s, h)
  | JArr elems =>
      let '(vs, h1) := alloc_each alloc_json elems h in
      (VRef (length h1), (h1 ++ [Arr vs])%list)
  | JObj props =>
      let '(ps, h1) :=
        alloc_each (fun '(k, j) h => let '(v, h1) := alloc_json j h in ((k, v), h1))
                   props h in
      (VRef (length h1), (h1 ++ [Obj ps])%list)
  end.

(** [JSON.stringify(v)], as a tree: a cyclic structure throws. *)
Definition stringify (v : value) : HM (option json) :=
  fun s =>
    match to_json (length (snd s)) (snd s) v with
    | Some j => (inr j, s)
    | None => (inl (JsError "Converting circular structure to JSON"), s)
    end.

(** [JSON.parse(JSON.stringify(v))]: the deep copy.  The text in between is
    not kept: parsing the text of a tree gives the tree. *)
Definition deep_copy (v : value) : HM value :=
  j <- stringify v ;;
  match j with
  | None => throw_Error (Js.quoted "undefined" ++ " is not valid JSON")
  | Some j => fun s => let '(v', h') := alloc_json j (snd s) in (inr v', (fst s, h'))
  end.

(** ** The handlers over the store *)

Section Handlers.

Variable ext : Externals.

(** How a template literal renders a value. *)
Definition show_value (v : value) : string :=
  match v with
  | VUndefined => "undefined"
  | VNull => "null"
  | VBool true => "true"
  | VBool false => "false"
  | VNum q => JSON_stringify ext (JNum q)
  | VStr s => s
  | VRef _ => "[object Object]"
  | VMember name =>
      if String.eqb name "__proto__" then "[object Object]"
      else "function " ++ (if String.eqb name "constructor" then "Object" else name)
           ++ "() { [native code] }"
  end.

(** The text of [JSON.stringify(v, null, 2)]. *)
Definition stringify_text (v : value) : HM string :=
  j <- stringify v ;;
  ret (match j with
       | Some j => JSON_stringify ext j
       | None => "undefined"
       end).

(** The JSON of [v] as it is when an event is logged; [undefined] is left
    out of the details. *)
Definition logged (k : string) (v : value) : HM (list (string * json)) :=
  j <- stringify v ;;
  ret (match j with
       | Some j => [(k, j)]
       | None => []
       end).

(** *** The file system *)

(** The loop of [ensureDirectoryExists], from the folder object [current]. *)
Fixpoint ensure_loop (pathParts : list string) (current : value) : HM unit :=
  match pathParts with
  | [] => ret tt
  | part :: rest =>
      existing <- get current part ;;
      (if negb (truthy existing) then
         children <- alloc (Obj []) ;;
         folder <- alloc (Obj [("type", VStr "folder"); ("children", children)]) ;;
         set current part folder
       else
         existing <- get current part ;;
         type <- get existing "type" ;;
         if negb (strict_eq type (VStr "folder")) then
           throw_Error ("Cannot create directory: a component of the path '"
                        ++ part ++ "' is not a directory.")
         else ret tt) ;;;
      child <- get current part ;;
      children <- get child "children" ;;
      ensure_loop rest children
  end.

Definition ensureDirectoryExists (vfs : value) (path : string) : HM value :=
  newVFS <- deep_copy vfs ;;
  ensure_loop (resolvePath path) newVFS ;;;
  ret newVFS.

(** The second loop of [writeFileToVFS]. *)
Fixpoint descend (pathParts : list string) (current : value) : HM value :=
  match pathParts with
  | [] => ret current
  | part :: rest =>
      child <- get current part ;;
      children <- get child "children" ;;
      descend rest children
  end.

Definition writeFileToVFS (vfs : value) (path content : string) : HM value :=
  let parts := resolvePath path in
  let filename := pop_last parts in
  let pathParts := removelast parts in
  let dirPath := Js.join "/" pathParts in
  match filename with
  | None | Some EmptyString =>
      throw_Error ("Invalid file path provided: " ++ Js.quoted path)
  | Some filename =>
      vfsWithDir <- ensureDirectoryExists vfs dirPath ;;
      current <- descend pathParts vfsWithDir ;;
      file <- alloc (Obj [("type", VStr "file"); ("content", VStr content)]) ;;
      set current filename file ;;;
      in_world (logEvent (STATE_CHANGE VFS "WRITE_FILE"
                            (details_path path (Some (String.length content))))) ;;;
      ret vfsWithDir
  end.

(** *** The mind map *)

(** [n => n.id === v] *)
Definition has_id (v : value) (n : value) : HM bool :=
  id <- get n "id" ;;
  ret (strict_eq id v).

(** [l => l.target === v && l.type === 'HIERARCHICAL'] *)
Definition is_parent_link (v : value) (l : value) : HM bool :=
  target <- get l "target" ;;
  if strict_eq target v then
    type <- get l "type" ;;
    ret (strict_eq type (VStr "HIERARCHICAL"))
  else ret false.

(** [ids.includes(v)] *)
Definition includes_value (ids : list string) (v : value) : bool :=
  match v with
  | VStr s => includes ids s
  | _ => false
  end.

Definition hierarchical_link (source target : value) (strength : Q) : cell :=
  Obj [("source", source); ("target", target); ("type", VStr "HIERARCHICAL");
       ("strength", VNum strength)].

Definition upsert_mind_map_node (args : option Args) (mindMap : value)
  : HM (value * string) :=
  args <- destructure "node_id" args ;;
  let node_id := Dict.get args "node_id" in
  let name := Dict.get args "name" in
  let content := Dict.get args "content" in
  let node_type := Dict.get args "node_type" in
  let parent_node_id := Dict.get args "parent_node_id" in
  newMindMap <- deep_copy mindMap ;;
  now <- in_world Date_now ;;
  let now := toISOString ext now in
  if Js.truthy node_id then
    nodes <- get newMindMap "nodes" ;;
    elems <- items nodes ;;
    nodeToUpdate <- findM (has_id (of_option node_id)) elems ;;
    match nodeToUpdate with
    | None =>
        ret (mindMap,
             "Error: Node with ID " ++ Js.quoted (Js.show node_id)
             ++ " not found for update.")
    | Some nodeToUpdate =>
        (match name with
         | Some s => set nodeToUpdate "name" (VStr s)
         | None => old <- get nodeToUpdate "name" ;; set nodeToUpdate "name" old
         end) ;;;
        (match content with
         | Some s => set nodeToUpdate "content" (VStr s)
         | None => old <- get nodeToUpdate "content" ;; set nodeToUpdate "content" old
         end) ;;;
        (match node_type with
         | Some s => set nodeToUpdate "type" (VStr s)
         | None => old <- get nodeToUpdate "type" ;; set nodeToUpdate "type" old
         end) ;;;
        set nodeToUpdate "updatedAt" (VStr now) ;;;
        (if Js.truthy parent_node_id then
           links <- get newMindMap "links" ;;
           elems <- items links ;;
           hierarchicalLink <- findM (is_parent_link (of_option node_id)) elems ;;
           match hierarchicalLink with
           | Some l => if truthy l then set l "source" (of_option parent_node_id)
                       else ret tt
           | None => ret tt
           end
         else ret tt) ;;;
        details <- logged "node" nodeToUpdate ;;
        in_world (logEvent (STATE_CHANGE MIND_MAP "UPDATE_NODE" (JObj details))) ;;;
        name <- get nodeToUpdate "name" ;;
        ret (newMindMap,
             "Successfully updated node " ++ Js.quoted (show_value name) ++ ".")
    end
  else
    missing <-
      (if negb (Js.truthy parent_node_id) then ret true
       else
         nodes <- get newMindMap "nodes" ;;
         elems <- items nodes ;;
         found <- someM (has_id (of_option parent_node_id)) elems ;;
         ret (negb found)) ;;
    if (missing : bool) then
      ret (mindMap, "Error: Valid parent_node_id is required to create a new node.")
    else
      match name with
      | None => throw_TypeError "Cannot read properties of undefined (reading 'replace')"
      | Some name_text =>
          t <- in_world Date_now ;;
          let newNodeId := new_node_id name_text t in
          newNode <- alloc (Obj [("id", VStr newNodeId); ("name", VStr name_text);
                                 ("content", of_option content);
                                 ("type", of_option node_type);
                                 ("source", VStr "AGENT_ACTION");
                                 ("createdAt", VStr now); ("updatedAt", VStr now)]) ;;
          newLink <- alloc (hierarchical_link (of_option parent_node_id)
                                              (VStr newNodeId) (9 # 10)) ;;
          nodes <- get newMindMap "nodes" ;;
          push nodes newNode ;;;
          links <- get newMindMap "links" ;;
          push links newLink ;;;
          node_details <- logged "node" newNode ;;
          link_details <- logged "link" newLink ;;
          in_world (logEvent (STATE_CHANGE MIND_MAP "CREATE_NODE"
                                (JObj (node_details ++ link_details)))) ;;;
          ret (newMindMap,
               "Successfully created and linked new node " ++ Js.quoted name_text ++ ".")
      end.

Definition create_mind_map_link (args : option Args) (mindMap : value)
  : HM (value * string) :=
  args <- destructure "source_node_id" args ;;
  let source_node_id := Dict.get args "source_node_id" in
  let target_node_id := Dict.get args "target_node_id" in
  let link_type := Dict.get args "link_type" in
  let label := Dict.get args "label" in
  newMindMap <- deep_copy mindMap ;;
  nodes <- get newMindMap "nodes" ;;
  elems <- items nodes ;;
  sourceExists <- someM (has_id (of_option source_node_id)) elems ;;
  nodes <- get newMindMap "nodes" ;;
  elems <- items nodes ;;
  targetExists <- someM (has_id (of_option target_node_id)) elems ;;
  if negb sourceExists || negb targetExists then
    ret (mindMap, "Error: Both source and target nodes must exist to create a link.")
  else
    newLink <- alloc (Obj [("source", of_option source_node_id);
                           ("target", of_option target_node_id);
                           ("type", of_option link_type);
                           ("strength", VNum (7 # 10));
                           ("label", of_option label)]) ;;
    links <- get newMindMap "links" ;;
    push links newLink ;;;
    details <- logged "link" newLink ;;
    in_world (logEvent (STATE_CHANGE MIND_MAP "CREATE_LINK" (JObj details))) ;;;
    ret (newMindMap,
         "Successfully created a " ++ Js.show link_type ++ " link between "
         ++ Js.show source_node_id ++ " and " ++ Js.show target_node_id ++ ".").

(** [l.map(f)] with a callback that allocates. *)
Fixpoint mapM {S A B} (f : A -> ST S B) (l : list A) : ST S (list B) :=
  match l with
  | [] => ret []
  | x :: rest =>
      y <- f x ;;
      ys <- mapM f rest ;;
      ret (y :: ys)
  end.

(** [n => ({ id: n.id, name: n.name, type: n.type })] *)
Definition node_summary (n : value) : HM value :=
  id <- get n "id" ;;
  name <- get n "name" ;;
  type <- get n "type" ;;
  alloc (Obj [("id", id); ("name", name); ("type", type)]).

(** [l => ids.includes(l.target)] *)
Definition targets (ids : list string) (l : value) : HM bool :=
  target <- get l "target" ;;
  ret (includes_value ids target).

(** [n => !ids.includes(n.id)] *)
Definition keeps_node (ids : list string) (n : value) : HM bool :=
  id <- get n "id" ;;
  ret (negb (includes_value ids id)).

(** [l => !ids.includes(l.target) && !ids.includes(l.source)] *)
Definition keeps_link (ids : list string) (l : value) : HM bool :=
  target <- get l "target" ;;
  if negb (includes_value ids target) then
    source <- get l "source" ;;
    ret (negb (includes_value ids source))
  else ret false.

(** The parent of the merged node: the source of the link that was found,
    or its id when the source is a node object, and the root sentinel when
    no link was found. *)
Definition parent_of (firstParentLink : option value) : HM value :=
  match firstParentLink with
  | Some l =>
      if truthy l then
        source <- get l "source" ;;
        match source with
        | VStr _ => get l "source"
        | _ => source <- get l "source" ;; get source "id"
        end
      else ret (VStr merge_root_sentinel)
  | None => ret (VStr merge_root_sentinel)
  end.

(** One turn of the loop of [refine_mind_map] on the copy [newMindMap],
    inside its [try]; the summary is returned as it grows. *)
Definition refine_op (now : string) (newMindMap : value) (op : RefineOp)
    (summary : list string) : HM (list string) :=
  if String.eqb (operation op) "UPDATE_NODE_CONTENT" then
    nodes <- get newMindMap "nodes" ;;
    elems <- items nodes ;;
    node <- findM (has_id (of_option (node_id_to_update op))) elems ;;
    match node with
    | Some node =>
        if truthy node then
          set node "content" (of_option (new_content op)) ;;;
          set node "updatedAt" (VStr now) ;;;
          name <- get node "name" ;;
          id <- get node "id" ;;
          id_details <- logged "nodeId" id ;;
          in_world (logEvent (STATE_CHANGE MIND_MAP "UPDATE_NODE"
                                (JObj (id_details ++ [("change", JStr "content")])))) ;;;
          ret (list_push summary ("Updated content for node: " ++ show_value name))
        else ret summary
    | None => ret summary
    end
  else if String.eqb (operation op) "MERGE_NODES" then
    match nodes_to_merge op with
    | None => throw_TypeError "Cannot read properties of undefined (reading 'length')"
    | Some nodesToMergeIds =>
        if (length nodesToMergeIds <? 2)%nat then ret summary
        else
          links <- get newMindMap "links" ;;
          elems <- items links ;;
          firstParentLink <- findM (targets nodesToMergeIds) elems ;;
          parentNodeId <- parent_of firstParentLink ;;
          t <- in_world Date_now ;;
          let mergedNodeId := "merged_" ++ Js.of_N t in
          newNode <- alloc (Obj [("id", VStr mergedNodeId);
                                 ("name", of_option (merged_node_name op));
                                 ("content", of_option (merged_node_content op));
                                 ("type", VStr "ABSTRACT_CONCEPT");
                                 ("source", VStr "SYSTEM_REFINEMENT");
                                 ("createdAt", VStr now); ("updatedAt", VStr now)]) ;;
          nodes <- get newMindMap "nodes" ;;
          push nodes newNode ;;;
          links <- get newMindMap "links" ;;
          newLink <- alloc (hierarchical_link parentNodeId (VStr mergedNodeId) (8 # 10)) ;;
          push links newLink ;;;
          (* Filter out old nodes and links *)
          nodes <- get newMindMap "nodes" ;;
          elems <- items nodes ;;
          kept <- filterM (keeps_node nodesToMergeIds) elems ;;
          filtered <- alloc (Arr kept) ;;
          set newMindMap "nodes" filtered ;;;
          links <- get newMindMap "links" ;;
          elems <- items links ;;
          kept <- filterM (keeps_link nodesToMergeIds) elems ;;
          filtered <- alloc (Arr kept) ;;
          set newMindMap "links" filtered ;;;
          node_details <- logged "newNode" newNode ;;
          in_world (logEvent (STATE_CHANGE MIND_MAP "MERGE_NODES"
                                (JObj (("mergedIds", JArr (map JStr nodesToMergeIds))
                                       :: node_details)))) ;;;
          ret (list_push summary
                 ("Merged " ++ Js.of_nat (length nodesToMergeIds)
                  ++ " nodes into: " ++ Js.show (merged_node_name op)))
    end
  else if String.eqb (operation op) "RELINK_NODE" then
    links <- get newMindMap "links" ;;
    elems <- items links ;;
    link <- findM (is_parent_link (of_option (node_to_relink op))) elems ;;
    match link with
    | Some link =>
        if truthy link then
          nodes <- get newMindMap "nodes" ;;
          elems <- items nodes ;;
          known <- someM (has_id (of_option (new_parent_id op))) elems ;;
          if (known : bool) then
            set link "source" (of_option (new_parent_id op)) ;;;
            in_world (logEvent (STATE_CHANGE MIND_MAP "RELINK_NODE"
                                  (details_relink (node_to_relink op)
                                                  (new_parent_id op)))) ;;;
            ret (list_push summary
                   ("Relinked " ++ Js.show (node_to_relink op)
                    ++ " under " ++ Js.show (new_parent_id op)))
          else ret summary
        else ret summary
    | None => ret summary
    end
  else ret summary.

Fixpoint refine_ops (now : string) (newMindMap : value) (operations : list RefineOp)
    (summary : list string) : HM (list string) :=
  match operations with
  | [] => ret summary
  | op :: rest =>
      summary' <- try_catch (refine_op now newMindMap op summary)
                            (fun _ => ret summary) ;;
      refine_ops now newMindMap rest summary'
  end.

Definition refine_mind_map (modelName : string) (mindMap : value)
  : HM (value * string) :=
  in_world (require_ai ext) ;;;
  nodes <- get mindMap "nodes" ;;
  elems <- items nodes ;;
  summaries <- mapM node_summary elems ;;
  summaries <- alloc (Arr summaries) ;;
  mindMapString <- stringify_text summaries ;;
  nodes <- get mindMap "nodes" ;;
  elems <- items nodes ;;
  response <- in_world (enqueueGeminiRequest (generateContent ext)
                          (refine_request modelName mindMapString)
                          (refine_metadata modelName (Js.of_nat (length elems)))) ;;
  operations <- parse_operations ext response ;;
  newMindMap <- deep_copy mindMap ;;
  now <- in_world Date_now ;;
  let now := toISOString ext now in
  summary <- refine_ops now newMindMap operations [] ;;
  ret (newMindMap, refine_result summary).

Definition transcend (modelName : string) (inquiry : option string) (mindMap : value)
  : HM (value * string) :=
  in_world (require_ai ext) ;;;
  mindMapString <- stringify_text mindMap ;;
  nodes <- get mindMap "nodes" ;;
  elems <- items nodes ;;
  response <- in_world (enqueueGeminiRequest (generateContent ext)
                          (transcend_request modelName inquiry mindMapString)
                          (transcend_metadata modelName inquiry
                                              (Js.of_nat (length elems)))) ;;
  insight <- in_world (text_trim response) ;;
  newMindMap <- deep_copy mindMap ;;
  t <- in_world Date_now ;;
  let insightNodeId := "insight_" ++ Js.of_N t in
  now <- in_world Date_now ;;
  let now := toISOString ext now in
  insightNode <- alloc (Obj [("id", VStr insightNodeId);
                             ("name", VStr ("Quantum Insight: " ++ Js.show inquiry));
                             ("type", VStr "QUANTUM_INSIGHT");
                             ("content", VStr insight);
                             ("createdAt", VStr now); ("updatedAt", VStr now);
                             ("source", VStr "TRANSCENDENCE")]) ;;
  nodes <- get newMindMap "nodes" ;;
  push nodes insightNode ;;;
  links <- get newMindMap "links" ;;
  newLink <- alloc (hierarchical_link (VStr insight_root) (VStr insightNodeId) (8 # 10)) ;;
  push links newLink ;;;
  details <- logged "node" insightNode ;;
  in_world (logEvent (STATE_CHANGE MIND_MAP "ADD_QUANTUM_INSIGHT" (JObj details))) ;;;
  ret (newMindMap, transcend_result insight).

End Handlers.

(** ** Staying in the copy

    The notions in which copy on write is stated. *)

(** A value that does not lead below [n]: a primitive, or a reference to a
    cell at [n] or above. *)
Definition fresh (n : nat) (v : value) : Prop :=
  match v with
  | VRef l => n <= l
  | _ => True
  end.

Definition fresh_prop (n : nat) (kv : string * value) : Prop := fresh n (snd kv).

Definition fresh_cell (n : nat) (c : cell) : Prop :=
  match c with
  | Obj props => Forall (fresh_prop n) props
  | Arr elems => Forall (fresh n) elems
  end.

(** [f] only appends cells that do not lead below the store it started
    from, and its result does not either. *)
Definition allocates {A B} (ok : nat -> B -> Prop) (f : A -> heap -> B * heap)
    (x : A) : Prop :=
  forall h, exists added,
    snd (f x h) = (h ++ added)%list
    /\ Forall (fresh_cell (length h)) added
    /\ ok (length h) (fst (f x h)).

(** The store has grown from the store [h0] that the handler started
    with: its cells are those of [h0], unchanged,
    followed by cells that only lead to added cells. *)
Definition grown (h0 : heap) (s : Store) : Prop :=
  exists added, snd s = (h0 ++ added)%list /\ Forall (fresh_cell (length h0)) added.

(** [m] keeps the store grown from [h0], and what it returns satisfies [Q]. *)
Definition confined (h0 : heap) {A} (m : HM A) (Q : A -> Prop) : Prop :=
  forall s, grown h0 s -> grown h0 (snd (m s)) /\ forall a, fst (m s) = inr a -> Q a.

Definition anything {A} : A -> Prop := fun _ => True.

Definition when_some {A} (Q : A -> Prop) (r : option A) : Prop :=
  match r with
  | Some x => Q x
  | None => True
  end.

(** [m] leaves every cell of the store as it was and only adds cells. *)
Definition frames {A} (m : HM A) : Prop :=
  forall s, exists added, snd (snd (m s)) = (snd s ++ added)%list.

(** A value of the store [h]: a primitive, or a reference into [h]. *)
Definition allocated (h : heap) (v : value) : Prop :=
  match v with
  | VRef l => l < length h
  | _ => True
  end.

Definition allocated_prop (h : heap) (kv : string * value) : Prop :=
  allocated h (snd kv).

(** A cell that only leads into [h]. *)
Definition within (h : heap) (c : cell) : Prop :=
  match c with
  | Obj props => Forall (allocated_prop h) props
  | Arr elems => Forall (allocated h) elems
  end.

(** Every reference held in the store leads into the store. *)
Definition closed (h : heap) : Prop := Forall (within h) h.

(** How deep the objects and arrays of [j] are nested. *)
Fixpoint depth (j : json) : nat :=
  match j with
  | JArr elems => S (list_max (map depth elems))
  | JObj props => S (list_max (map (fun kv => depth (snd kv)) props))
  | _ => 0
  end.

(** What [f] allocates for [x] in a closed store: the store stays closed,
    and the result is in the store and serialises to [j x], at any depth
    that [d x] allows. *)
Definition copies {A B} (holds : heap -> B -> Prop)
    (reads : nat -> heap -> B -> A -> Prop) (d : A -> nat)
    (f : A -> heap -> B * heap) (x : A) : Prop :=
  forall h, closed h ->
    exists added,
      snd (f x h) = (h ++ added)%list
      /\ closed (snd (f x h))
      /\ holds (snd (f x h)) (fst (f x h))
      /\ forall fuel, d x <= fuel -> reads fuel (snd (f x h)) (fst (f x h)) x.

(** After [m], run in the world [w] on the store [h], the cells of [h] are
    as they were, and the snapshot serialises as before, however deep the
    serialisation goes. *)
Definition untouched {A} (m : HM A) (w : World) (h : heap) (snapshot : value) : Prop :=
  let h' := snd (snd (m (w, h))) in
  (exists added, h' = (h ++ added)%list)
  /\ forall fuel, to_json fuel h' snapshot = to_json fuel h snapshot.

End Heap.

(** * The vocabulary of the properties

    The notions that the properties are stated in, and the graphs, calls and
    surroundings of their examples. *)

(** Walking segments through folders, as the design describes it: from a
    node, the empty path reaches the node itself, and a segment followed by
    a path reaches what the path reaches from the child of that name. *)
Inductive Walks : VFSNode -> list string -> VFSNode -> Prop :=
| walks_here (n : VFSNode) : Walks n [] n
| walks_down (children : list (string * VFSNode)) (seg : string) (child : VFSNode)
    (rest : list string) (n : VFSNode) :
    Dict.get children seg = Some child ->
    Walks child rest n ->
    Walks (Folder children) (seg :: rest) n.

(** The walk is stopped: a segment is to be read in a file, or it is missing
    from the folder that was reached. *)
Inductive Blocked : VFSNode -> list string -> Prop :=
| blocked_file (content seg : string) (rest : list string) :
    Blocked (File content) (seg :: rest)
| blocked_missing (children : list (string * VFSNode)) (seg : string)
    (rest : list string) :
    Dict.get children seg = None ->
    Blocked (Folder children) (seg :: rest)
| blocked_below (children : list (string * VFSNode)) (seg : string) (child : VFSNode)
    (rest : list string) :
    Dict.get children seg = Some child ->
    Blocked child rest ->
    Blocked (Folder children) (seg :: rest).

(** [m] leaves the clock alone and only appends to the audit log, and what
    it appends satisfies [P]. *)
Definition appends (P : AuditEvent -> Prop) {A} (m : M A) : Prop :=
  forall w,
    clock (snd (m w)) = clock w
    /\ exists evs, auditLog (snd (m w)) = (auditLog w ++ evs)%list /\ Forall P evs.

(** An event that is not the record of a tool call. *)
Definition not_agent_action (e : AuditEvent) : Prop := is_AGENT_ACTION e = false.

(** The world of the examples: the clock at 1000, nothing logged, nothing
    queued. *)
Definition w0 : World := mkWorld 1000 [] [].

(** The surroundings used in the examples: a client that answers every
    request with the same text, and a clock text that is the decimal time. *)
Definition canned (text : string) : Externals :=
  mkExternals true true
    (fun _ _ => inr (mkResponse (Some text) None))
    (fun _ _ _ _ _ => (inr "report", []))
    Js.of_N Js.of_N
    (fun _ => "{}")
    (fun _ => inr []).

Definition WRITE_FILE_event (t : N) (path content : string) : AuditEvent :=
  mkAuditEvent t (STATE_CHANGE VFS "WRITE_FILE"
                    (details_path path (Some (String.length content)))).

Definition MKDIR_event (t : N) (path : string) : AuditEvent :=
  mkAuditEvent t (STATE_CHANGE VFS "MKDIR" (details_path path None)).

Definition non_flags (parts : list string) : list string :=
  List.filter (fun p => negb (is_flag p)) (tl parts).

(** [v] is the id of a node of the graph. *)
Definition node_exists (mindMap : MindMapData) (v : option string) : Prop :=
  exists n, In n (nodes mindMap) /\ Some (n_id n) = v.

Definition endpoint_error : string :=
  "Error: Both source and target nodes must exist to create a link.".

Definition root_node : MindMapNode :=
  mkNode "root" (Some "Root") CORE_PERSONA (Some "the persona") "ANALYSIS"
         "2024-01-01" "2024-01-01" None.

Definition root_graph : MindMapData := mkMindMap [root_node] [].

Definition nothing_relevant (topic : option string) : string :=
  "No specific nodes in the knowledge graph were identified as relevant to the topic "
  ++ Js.quoted (Js.show topic) ++ ".".

Definition wrote_message (filepath content : string) : string :=
  "Wrote " ++ Js.of_nat (String.length content) ++ " chars to " ++ filepath ++ "."
  ++ nl ++ nl ++ "--- FILE CONTENT ---" ++ nl ++ content.

(** The environment sets the clock; a handler reads it. *)
Definition at_time (t : N) (w : World) : World :=
  mkWorld t (auditLog w) (apiQueue w).

(** A sequence of calls of [upsert_mind_map_node], each at its own time, each
    on the graph that the call before it returned. *)
Fixpoint upsert_calls (ext : Externals) (calls : list (N * Args))
    (mindMap : MindMapData) (w : World) : (exn + MindMapData) * World :=
  match calls with
  | [] => (inr mindMap, w)
  | (t, args) :: rest =>
      match upsert_mind_map_node ext (Some args) mindMap (at_time t w) with
      | (inr (newMindMapData, _), w') => upsert_calls ext rest newMindMapData w'
      | (inl e, w') => (inl e, w')
      end
  end.

(** The id that a create-call makes: from its name and its time. *)
Definition created_id (call : N * Args) : string :=
  new_node_id (Js.show (Dict.get (snd call) "name")) (fst call).

(** What the id is made of: the first 20 characters of the sanitised name,
    and the millisecond of the call. *)
Definition id_key (call : N * Args) : string * N :=
  (Js.substring0 20 (Js.sanitize (Js.show (Dict.get (snd call) "name"))), fst call).

(** Create-calls: no [node_id], a name, and a parent that is in the graph
    when the call is made ([ids] are the ids of the graph so far). *)
Fixpoint create_calls (ids : list string) (calls : list (N * Args)) : Prop :=
  match calls with
  | [] => True
  | call :: rest =>
      Js.truthy (Dict.get (snd call) "node_id") = false
      /\ (exists name, Dict.get (snd call) "name" = Some name)
      /\ (exists parent, Dict.get (snd call) "parent_node_id" = Some parent
                         /\ parent <> EmptyString /\ In parent ids)
      /\ create_calls (ids ++ [created_id call])%list rest
  end.

Definition create_X (t : N) : N * Args :=
  (t, [("name", "X"); ("parent_node_id", "root")]).

(** The parent that the design calls for: the source of the first inbound
    [HIERARCHICAL] link of a merged node, and the root sentinel when there
    is none. *)
Definition hierarchical_parent (ids : list string) (mindMap : MindMapData) : string :=
  match find (fun l => includes ids (l_target l) && is_HIERARCHICAL (l_type l))
             (links mindMap) with
  | Some l => l_source l
  | None => merge_root_sentinel
  end.

Definition concept (id : string) : MindMapNode :=
  mkNode id (Some id) KNOWLEDGE_CONCEPT (Some "a concept") "ANALYSIS"
         "2024-01-01" "2024-01-01" None.

Definition edge (source target : string) (type : MindMapLinkType) : MindMapLink :=
  mkLink source target type (5 # 10) None.

Definition merge_A_B : RefineOp :=
  mkRefineOp "MERGE_NODES" "A and B say the same" None None (Some ["A"; "B"])
             (Some "AB") (Some "A and B") None None.

Definition merged_AB (now : string) (t : N) : MindMapNode :=
  mkNode ("merged_" ++ Js.of_N t) (Some "AB") ABSTRACT_CONCEPT (Some "A and B")
         "SYSTEM_REFINEMENT" now now None.

(** A graph in which A has a [RELATED] neighbour X listed before its
    hierarchical parent. *)
Definition related_first : MindMapData :=
  mkMindMap [root_node; concept "X"; concept "A"; concept "B"]
            [edge "X" "A" RELATED; edge "root" "A" HIERARCHICAL;
             edge "root" "B" HIERARCHICAL].

(** A graph in which B is a child of A, and that link is listed first. *)
Definition parent_and_child : MindMapData :=
  mkMindMap [root_node; concept "A"; concept "B"]
            [edge "A" "B" HIERARCHICAL; edge "root" "A" HIERARCHICAL].






(** A store that holds the graph with the root node only, and the reference
    to it. *)
Definition root_store : Heap.value * list Heap.cell :=
  Heap.alloc_json (json_of_mindMap root_graph) [].

Definition serialised (run : (exn + Heap.value) * Heap.Store) : option (option json) :=
  match run with
  | (inr v, (_, h)) => Heap.to_json (length h) h v
  | (inl _, _) => None
  end.

Definition graph_of {A} (run : (exn + MindMapData * A) * World) : option (option json) :=
  match run with
  | (inr (g, _), _) => Some (Some (json_of_mindMap g))
  | (inl _, _) => None
  end.

Definition in_store (j : json) (w : World) : Heap.value * Heap.Store :=
  let '(v, h) := Heap.alloc_json j [] in (v, (w, h)).

Definition first_of {A B S} (run : (exn + A * B) * S) : (exn + A) * S :=
  match run with
  | (inr (a, _), s) => (inr a, s)
  | (inl e, s) => (inl e, s)
  end.

(** A client that rejects the requests for the model [rejected] and answers
    the others. *)
Definition rejecting (rejected : string) (w : World) (payload : RequestPayload)
  : exn + Response :=
  if String.eqb (p_model payload) rejected then inl (JsError "quota exceeded")
  else inr (mkResponse (Some "done") None).

Definition request_A : RequestPayload := mkPayload "A" [TextPart (Some "a")] None.
Definition request_B : RequestPayload := mkPayload "B" [TextPart (Some "b")] None.
Definition by_agent (name : string) : Metadata := mkMetadata name "m" (Summary []).

Definition plans (operations : list RefineOp) : Externals :=
  mkExternals true true
    (fun _ _ => inr (mkResponse (Some "plan") None))
    (fun _ _ _ _ _ => (inr "report", []))
    Js.of_N Js.of_N
    (fun _ => "{}")
    (fun _ => inr operations).

(** ** The vocabulary of the further properties *)

(** Every character of the text satisfies [p]. *)
Fixpoint all_chars (p : ascii -> bool) (s : string) : bool :=
  match s with
  | EmptyString => true
  | String c rest => p c && all_chars p rest
  end.

(** What a segment of a resolved path is: not empty, not the dot, and free
    of slashes. *)
Definition is_segment (p : string) : bool :=
  negb (String.eqb p EmptyString) && negb (String.eqb p ".")
  && negb (has_char "/" p).

(** The error of [writeFileToVFS] for a path that names no file. *)
Definition invalid_file_path (path : string) : exn :=
  JsError ("Invalid file path provided: " ++ Js.quoted path).

Definition is_folder (reached : Reached) : bool :=
  match reached with
  | Node (Folder _) => true
  | _ => false
  end.

(** What the segments [parts] lead to from [current] when every missing
    directory on the way is taken as a new and empty one, in which only the
    inherited members are found. *)
Fixpoint leads_to (current : Reached) (parts : list string) : option Reached :=
  match parts with
  | [] => Some current
  | part :: rest =>
      match current with
      | Node (Folder children) =>
          match child children part with
          | Some next => leads_to next rest
          | None => leads_to (Node (Folder [])) rest
          end
      | _ => None
      end
  end.

(** Something is in the way of the directory path [parts]: the segments up
    to and including [part] lead to what is no folder, a file or an
    inherited member. *)
Definition in_the_way (vfs : VirtualFileSystem) (parts : list string)
    (part : string) : Prop :=
  exists pre post reached,
    parts = (pre ++ part :: post)%list
    /\ leads_to (Node (Folder vfs)) (pre ++ [part])%list = Some reached
    /\ is_folder reached = false.


(** A character of a plain word of a command: no white space, no quote. *)
Definition plain_char (c : ascii) : bool := negb (Js.is_space c) && negb (is_quote c).

Definition is_word (word : string) : bool :=
  negb (String.eqb word EmptyString) && all_chars plain_char word.


(** The node and the link that [write] adds for a file under a parent, the
    event it logs for them, and its message. *)
Definition file_reference (ext : Externals) (t : N) (filepath : string) : MindMapNode :=
  let filename :=
    match pop_last (Js.split "/" filepath) with
    | Some EmptyString | None => filepath
    | Some name => name
    end in
  mkNode (file_node_id filename t) (Some filename) FILE_REFERENCE
         (Some ("Reference to file at path: " ++ filepath))
         "AGENT_ACTION" (toISOString ext t) (toISOString ext t) (Some filepath).

Definition file_reference_link (ext : Externals) (t : N) (filepath parent : string)
  : MindMapLink :=
  mkLink parent (n_id (file_reference ext t filepath)) HIERARCHICAL (9 # 10) None.

Definition FILE_REFERENCE_event (ext : Externals) (t : N) (filepath parent : string)
  : AuditEvent :=
  mkAuditEvent t (STATE_CHANGE MIND_MAP "CREATE_FILE_REFERENCE_NODE"
                    (details_node (file_reference ext t filepath)
                                  (Some (file_reference_link ext t filepath parent)))).

Definition wrote_with_reference (filepath content : string) : string :=
  "Wrote " ++ Js.of_nat (String.length content) ++ " chars to " ++ filepath
  ++ " and created a reference in the mind map" ++ "."
  ++ nl ++ nl ++ "--- FILE CONTENT ---" ++ nl ++ content.

(** The characters of an id made by the handlers. *)
Definition is_id_char (c : ascii) : bool := Js.is_alnum c || Ascii.eqb c "_".

(** Every link of the graph starts and ends at a node of the graph. *)
Definition well_linked (g : MindMapData) : bool :=
  forallb (fun l => existsb (id_is (Some (l_source l))) (nodes g)
                    && existsb (id_is (Some (l_target l))) (nodes g))
          (links g).

(** What an update leaves of a link: all but its source. *)
Definition link_shape (l : MindMapLink)
  : string * MindMapLinkType * Q * option string :=
  (l_target l, l_type l, l_strength l, l_label l).

(** What an update leaves of a node: its id and where it came from. *)
Definition node_origin (n : MindMapNode) : string * string * string * option string :=
  (n_id n, n_source n, n_createdAt n, n_linkedFile n).

Definition update_error (id : string) : string :=
  "Error: Node with ID " ++ Js.quoted id ++ " not found for update.".

Definition no_refinement : string :=
  "Mind map analyzed. No structural refinements necessary.".

(** An operation of a plan that lacks the list it is about. *)
Definition unknown_operation : RefineOp :=
  mkRefineOp "MERGE_NODES" "no list of nodes" None None None (Some "AB") None None None.

(** An id as it stands in a comma-separated list: not empty, free of commas,
    with no white space before or after it. *)
Definition listed_id (id : string) : Prop :=
  id <> EmptyString /\ has_char "," id = false
  /\ Js.trimStart id = id /\ Js.trimEnd id = id.

(** A character of a MIME type in the header of a data URL. *)
Definition mime_char (c : ascii) : bool :=
  negb (Ascii.eqb c ";") && negb (Ascii.eqb c ",") && negb (is_line_terminator c).

(** The URL of an image kept in a chat message. *)
Definition data_url (mime data : string) : string :=
  "data:" ++ mime ++ ";base64," ++ data.

Definition image_edited (prompt : option string) (data : string) : ToolResult :=
  mkToolResult
    ("Image edited successfully based on prompt: " ++ Js.quoted (Js.show prompt) ++ ".")
    None None None (Some (data, edited)) None None None.

(** Whenever [m] returns, what it returns satisfies [Q]. *)
Definition ensures {A} (m : M A) (Q : A -> Prop) : Prop :=
  forall w, match fst (m w) with
            | inr a => Q a
            | inl _ => True
            end.

(** The graph [new] holds the nodes and the links of [old], in their order
    and before any other; of a node of [old] it keeps the id and the origin,
    of a link all but the source. *)
Definition extends (old new : MindMapData) : Prop :=
  exists ns ls,
    map node_origin (nodes new) = (map node_origin (nodes old) ++ ns)%list
    /\ map link_shape (links new) = (map link_shape (links old) ++ ls)%list.

(** The file that a result says it handled is in the file system that the
    result carries. *)
Definition holds_its_file (vfs : option VirtualFileSystem) (path : option string)
  : Prop :=
  match vfs, path with
  | Some v, Some p => exists content, getNodeFromPath v p = Some (Node (File content))
  | _, _ => True
  end.

Definition grows_from (old : MindMapData) (new : option MindMapData) : Prop :=
  match new with
  | Some g => extends old g
  | None => True
  end.

(** Two tool calls of the examples. *)
Definition touch_call : FunctionCall :=
  mkFunctionCall (Some "run_terminal_command") (Some [("command", "touch /a.txt")]).

Definition create_X_call : FunctionCall :=
  mkFunctionCall (Some "upsert_mind_map_node")
                 (Some [("name", "X"); ("parent_node_id", "root")]).

(** [m] submits no request: the queue is as it was. *)
Definition offline {A} (m : M A) : Prop :=
  forall w, apiQueue (snd (m w)) = apiQueue w.

(** The tools that call the model or a sub-agent. *)
Definition model_tools : list string :=
  ["search_the_web"; "delegate_to_psychology_sub_agent"; "recall_memory";
   "synthesize_knowledge"; "refine_mind_map"; "transcend"; "generate_image";
   "edit_image"].

(** [m] never writes to the audit log. *)
Definition silent {A} (m : M A) : Prop :=
  forall w, auditLog (snd (m w)) = auditLog w.

(** [m] never throws. *)
Definition unfailing {A} (m : M A) : Prop :=
  forall w, exists a w', m w = (inr a, w').

(** When [m] throws it has logged nothing. *)
Definition careful {A} (m : M A) : Prop :=
  forall w, match fst (m w) with
            | inl _ => auditLog (snd (m w)) = auditLog w
            | inr _ => True
            end.

(** The command that writes [content], between double quotes, to [path]. *)
Definition write_quoted (path content : string) : string :=
  "write " ++ path ++ " " ++ Js.quoted content.

(** The names in the order in which the runtime enumerates the properties
    of an object: the array indices in ascending order, then the other
    names. *)
Definition is_name (k : string) : bool :=
  match Js.array_index k with None => true | Some _ => false end.

Definition above (i : N) (k : string) : bool :=
  match Js.array_index k with Some j => (i <? j)%N | None => true end.

Fixpoint enumerated (ks : list string) : bool :=
  match ks with
  | [] => true
  | k :: rest =>
      match Js.array_index k with
      | None => forallb is_name rest
      | Some i => forallb (above i) rest && enumerated rest
      end
  end.

(** * Properties *)

(** ** The primitives on examples *)

Example split_path :
  Js.split "/" "/a//b.txt" = [EmptyString; "a"; EmptyString; "b.txt"].
Proof. reflexivity. Qed.

Example trim_spaces : Js.trim "  a b  " = "a b".
Proof. reflexivity. Qed.

Example of_N_1000 : Js.of_N 1000 = "1000".
Proof. reflexivity. Qed.

Example ensure_research_notes :
  fst (ensureDirectoryExists [] "/research/notes" w0)
  = inr [("research", Folder [("notes", Folder [])])].
Proof. reflexivity. Qed.

Example write_then_lookup :
  match fst (writeFileToVFS [] "/a/b.txt" "hi" w0) with
  | inr tree' => getNodeFromPath tree' "/a/b.txt"
  | inl _ => None
  end = Some (Node (File "hi")).
Proof. reflexivity. Qed.

Example tokenize_quoted :
  tokenize ("write /notes/a.txt " ++ Js.quoted "hello world" ++ " --parent=root")
  = ["write"; "/notes/a.txt"; Js.quoted "hello world"; "--parent=root"].
Proof. reflexivity. Qed.

Example tokenize_open_quote :
  tokenize ("cat a" ++ Js.dq ++ "b 'c d'") = ["cat"; "a"; "b"; "'c d'"].
Proof. reflexivity. Qed.

Example lookup_through_file :
  getNodeFromPath [("a", Folder [("b.txt", File "hi")])] "/a/./b.txt/c" = None
  /\ getNodeFromPath [("a", Folder [("b.txt", File "hi")])] "a//b.txt"
     = Some (Node (File "hi")).
Proof. split; reflexivity. Qed.

(** A name that every object inherits is found where no file has it, and is
    in the way of a directory of that name; a file of that name is an own
    property like any other. *)
Example inherited_names :
  getNodeFromPath [("a", Folder [])] "/a/toString" = Some (Member "toString")
  /\ getNodeFromPath [("a", Folder [])] "/a/toString/b" = None
  /\ fst (ensureDirectoryExists [] "/constructor/b" w0) = inl (not_a_directory "constructor")
  /\ fst (writeFileToVFS [] "/valueOf" "x" w0) = inr [("valueOf", File "x")].
Proof. repeat split; reflexivity. Qed.

(** New names are enumerated after the old ones, unless they are array
    indices, which come first and in ascending order. *)
Example enumeration_order :
  fst (ensureDirectoryExists [("2", File "x"); ("b", File "y")] "/a" w0)
  = inr [("2", File "x"); ("b", File "y"); ("a", Folder [])]
  /\ fst (ensureDirectoryExists [("2", File "x"); ("b", File "y")] "/10" w0)
     = inr [("2", File "x"); ("10", Folder []); ("b", File "y")]
  /\ fst (ensureDirectoryExists [("2", File "x"); ("b", File "y")] "/01" w0)
     = inr [("2", File "x"); ("b", File "y"); ("01", Folder [])].
Proof. repeat split; reflexivity. Qed.

(** Two create-calls with the same name, a millisecond apart: two nodes with
    different ids, each linked from the root. *)
Example upsert_twice :
  match fst (upsert_calls (canned "ok") [create_X 1000; create_X 1001] root_graph w0) with
  | inr g => (map n_id (nodes g), map (fun l => (l_source l, l_target l, l_type l)) (links g))
  | inl _ => ([], [])
  end
  = (["root"; "X_1000"; "X_1001"],
     [("root", "X_1000", HIERARCHICAL); ("root", "X_1001", HIERARCHICAL)]).
Proof. reflexivity. Qed.

(** The same two calls within one millisecond. *)
Example upsert_twice_same_millisecond :
  match fst (upsert_calls (canned "ok") [create_X 1000; create_X 1000] root_graph w0) with
  | inr g => map n_id (nodes g)
  | inl _ => []
  end
  = ["root"; "X_1000"; "X_1000"].
Proof. reflexivity. Qed.

(** A link that is created twice is in the graph twice. *)
Example parallel_links :
  let args := Some [("source_node_id", "root"); ("target_node_id", "root");
                    ("link_type", "RELATED")] in
  match fst (create_mind_map_link args root_graph w0) with
  | inr (g, _) =>
      match fst (create_mind_map_link args g w0) with
      | inr (g', _) => links g'
      | inl _ => []
      end
  | inl _ => []
  end
  = [mkLink "root" "root" RELATED (7 # 10) None;
     mkLink "root" "root" RELATED (7 # 10) None].
Proof. reflexivity. Qed.

(** [write] with the id of a node: the file, and a node that refers to it
    under that node. *)
Example write_with_parent :
  match fst (run_terminal_command (canned "ok") "m"
               ("write /notes/a.txt " ++ Js.quoted "hello world" ++ " --parent=root")
               [] root_graph w0) with
  | inr r =>
      (t_newVFS r,
       option_map (fun g => map (fun n => (n_id n, n_type n, n_linkedFile n)) (nodes g))
                  (t_newMindMap r),
       option_map (fun g => map (fun l => (l_source l, l_target l, l_type l)) (links g))
                  (t_newMindMap r))
  | inl _ => (None, None, None)
  end
  = (Some [("notes", Folder [("a.txt", File "hello world")])],
     Some [("root", CORE_PERSONA, None);
           ("file_a_txt_1000", FILE_REFERENCE, Some "/notes/a.txt")],
     Some [("root", "file_a_txt_1000", HIERARCHICAL)]).
Proof. reflexivity. Qed.

(** A request that the service rejects and one that it answers, one after
    the other: the first is recorded as failed, the second as succeeded. *)
Example queue_records_in_order :
  map q_status
      (apiQueue
         (snd ((try_catch (enqueueGeminiRequest (rejecting "A") request_A (by_agent "first"))
                          (fun _ => ret (mkResponse None None)) ;;;
                enqueueGeminiRequest (rejecting "A") request_B (by_agent "second")) w0)))
  = [failed; succeeded].
Proof. reflexivity. Qed.

(** An unknown tool is answered in the envelope, and recorded. *)
Example unknown_tool :
  let out := executeTool (canned "ok") "m" (mkFunctionCall (Some "fly") (Some []))
                         root_graph [] [] "persona" [] w0 in
  fst out = inr (result_only "Unknown tool: fly")
  /\ map ev_payload (auditLog (snd out))
     = [AGENT_ACTION (Some "fly") (Some []) "Unknown tool: fly"].
Proof. split; reflexivity. Qed.

(** A handler that throws: the envelope carries the message, the record the
    failure marker. *)
Example failing_tool :
  let call := mkFunctionCall (Some "run_terminal_command") (Some [("command", "cat")]) in
  let out := executeTool (canned "ok") "m" call root_graph [] [] "persona" [] w0 in
  option_map result (match fst out with inr r => Some r | inl _ => None end)
  = Some ("Tool " ++ Js.quoted "run_terminal_command"
          ++ " failed to execute. Error: Usage: cat <path>")
  /\ map ev_payload (auditLog (snd out))
     = [AGENT_ACTION (Some "run_terminal_command") (Some [("command", "cat")])
                     "FAILED: Usage: cat <path>"].
Proof. split; reflexivity. Qed.

(** ** Dictionaries *)

Section Dictionaries.

Context {V : Type}.

Implicit Types (d : list (string * V)) (k : string) (v : V).

Lemma get_put_eq d k v : Dict.get (Dict.put d k v) k = Some v.
Proof.
  induction d as [|[k' v'] rest IH]; simpl.
  - now rewrite String.eqb_refl.
  - destruct (String.eqb k' k) eqn:Hk; simpl; rewrite Hk; [reflexivity|exact IH].
Qed.


Lemma put_same d k v : Dict.get d k = Some v -> Dict.put d k v = d.
Proof.
  induction d as [|[k0 v0] rest IH]; simpl; [discriminate|].
  destruct (String.eqb k0 k); [now intros [= ->]|].
  intros H. now rewrite IH.
Qed.

Lemma Forall_put (P : string * V -> Prop) d k v :
  (forall k', P (k', v)) -> Forall P d -> Forall P (Dict.put d k v).
Proof.
  intros Hv. induction 1 as [|[k' v'] rest Hp Hrest IH]; simpl.
  - constructor; auto.
  - destruct (String.eqb k' k); constructor; auto.
Qed.

(** An array index is the index of one name only. *)
Lemma array_index_name k i : Js.array_index k = Some i -> k = Js.of_N i.
Proof.
  unfold Js.array_index. destruct (NilZero.uint_of_string k) as [digits|]; [|discriminate].
  destruct (String.eqb _ k) eqn:Hk; [|discriminate].
  destruct (_ <? _)%N; [|discriminate].
  intros [= <-]. apply String.eqb_eq in Hk. now symmetry.
Qed.

Lemma get_add_index_eq d i k v :
  Js.array_index k = Some i -> Dict.get (Dict.add_index d i k v) k = Some v.
Proof.
  intros Hk. induction d as [|[k' v'] rest IH]; simpl.
  - now rewrite String.eqb_refl.
  - destruct (Js.array_index k') as [j|] eqn:Hk'; simpl.
    + destruct (j <? i)%N eqn:Hji; simpl.
      * destruct (String.eqb k' k) eqn:Hsame; [|exact IH].
        apply String.eqb_eq in Hsame. subst k'.
        rewrite Hk in Hk'. injection Hk' as <-.
        rewrite N.ltb_irrefl in Hji. discriminate.
      * now rewrite String.eqb_refl.
    + now rewrite String.eqb_refl.
Qed.


Lemma Forall_add_index (P : string * V -> Prop) d i k v :
  P (k, v) -> Forall P d -> Forall P (Dict.add_index d i k v).
Proof.
  intros Hv. induction 1 as [|[k' v'] rest Hp Hrest IH]; simpl.
  - constructor; auto.
  - destruct (Js.array_index k') as [j|]; [destruct (j <? i)%N|];
      repeat constructor; auto.
Qed.

(** What is written is read back, and nothing else has changed. *)
Lemma Dict_get_set_eq d k v : Dict.get (Dict.set d k v) k = Some v.
Proof.
  unfold Dict.set. destruct (Js.array_index k) as [i|] eqn:Hk.
  - destruct (Dict.get d k); [apply get_put_eq|now apply get_add_index_eq].
  - apply get_put_eq.
Qed.


Lemma Dict_set_same d k v : Dict.get d k = Some v -> Dict.set d k v = d.
Proof.
  intros H. unfold Dict.set. rewrite H.
  destruct (Js.array_index k); now apply put_same.
Qed.

Lemma Dict_set_Forall (P : string * V -> Prop) d k v :
  (forall k', P (k', v)) -> Forall P d -> Forall P (Dict.set d k v).
Proof.
  intros Hv Hd. unfold Dict.set. destruct (Js.array_index k) as [i|].
  - destruct (Dict.get d k); [now apply Forall_put|now apply Forall_add_index].
  - now apply Forall_put.
Qed.

(** A first property is the only one. *)
Lemma keys_put_present d k v x :
  Dict.get d k = Some x -> Dict.keys (Dict.put d k v) = Dict.keys d.
Proof.
  unfold Dict.keys. induction d as [|[k' v'] rest IH]; simpl; [discriminate|].
  destruct (String.eqb k' k); simpl; [reflexivity|].
  intros H. now rewrite IH.
Qed.

Lemma keys_put_absent d k v :
  Dict.get d k = None -> Dict.keys (Dict.put d k v) = (Dict.keys d ++ [k])%list.
Proof.
  unfold Dict.keys. induction d as [|[k' v'] rest IH]; simpl; [reflexivity|].
  destruct (String.eqb k' k); simpl; [discriminate|].
  intros H. now rewrite IH.
Qed.

Lemma enumerated_name ks k :
  is_name k = true -> enumerated ks = true -> enumerated (ks ++ [k]) = true.
Proof.
  intros Hk. induction ks as [|k' rest IH]; simpl.
  - unfold is_name in Hk. now destruct (Js.array_index k).
  - destruct (Js.array_index k') as [i|].
    + intros H. apply andb_true_iff in H as [Ha He].
      rewrite forallb_app, Ha, (IH He). simpl.
      unfold above, is_name in *. now destruct (Js.array_index k).
    + intros H. rewrite forallb_app, H. simpl. now rewrite Hk.
Qed.

Lemma above_trans i j k : (i <? j)%N = true -> above j k = true -> above i k = true.
Proof.
  unfold above. destruct (Js.array_index k) as [n|]; [|reflexivity].
  rewrite !N.ltb_lt. lia.
Qed.

Lemma above_add_index d i j k v :
  Js.array_index k = Some i -> (j <? i)%N = true ->
  forallb (above j) (Dict.keys d) = true ->
  forallb (above j) (Dict.keys (Dict.add_index d i k v)) = true.
Proof.
  intros Hk Hji. unfold Dict.keys.
  assert (Hnew : above j k = true) by (unfold above; now rewrite Hk).
  induction d as [|[k' v'] rest IH]; simpl.
  - now rewrite Hnew.
  - intros H. apply andb_true_iff in H as [Hhead Hrest].
    destruct (Js.array_index k') as [j'|]; [destruct (j' <? i)%N|]; simpl;
      rewrite ?Hnew, ?Hhead, ?Hrest; auto.
Qed.

Lemma above_names i ks : forallb is_name ks = true -> forallb (above i) ks = true.
Proof.
  induction ks as [|k rest IH]; simpl; [reflexivity|].
  intros H. apply andb_true_iff in H as [Hk Hrest]. rewrite (IH Hrest), andb_true_r.
  unfold above, is_name in *. now destruct (Js.array_index k).
Qed.

Lemma above_above i j ks :
  (i <? j)%N = true -> forallb (above j) ks = true -> forallb (above i) ks = true.
Proof.
  intros Hij. induction ks as [|k rest IH]; simpl; [reflexivity|].
  intros H. apply andb_true_iff in H as [Hk Hrest].
  now rewrite (above_trans i j k Hij Hk), IH.
Qed.

Lemma keys_add_index d i k v :
  Js.array_index k = Some i ->
  Dict.get d k = None ->
  enumerated (Dict.keys d) = true ->
  enumerated (Dict.keys (Dict.add_index d i k v)) = true.
Proof.
  intros Hk. unfold Dict.keys.
  induction d as [|[k' v'] rest IH];
    cbn [Dict.add_index Dict.get map fst enumerated forallb].
  - now rewrite Hk.
  - destruct (String.eqb k' k) eqn:Hsame; [discriminate|].
    intros Habsent. destruct (Js.array_index k') as [j|] eqn:Hk'.
    + intros H. apply andb_true_iff in H as [Ha He].
      destruct (j <? i)%N eqn:Hji; cbn [map fst enumerated forallb].
      * rewrite Hk'. rewrite (IH Habsent He), andb_true_r.
        now apply above_add_index.
      * assert (Hij : (i <? j)%N = true).
        { apply N.ltb_lt. apply N.ltb_ge in Hji.
          assert (i <> j); [|lia].
          intros Heq. subst j. apply String.eqb_neq in Hsame. apply Hsame.
          apply array_index_name in Hk, Hk'. congruence. }
        rewrite Hk, Hk', Ha, He, andb_true_r.
        unfold above at 1. rewrite Hk', Hij.
        now apply (above_above i j).
    + intros H. cbn [map fst enumerated forallb].
      rewrite Hk, Hk', H, andb_true_r.
      unfold above at 1. rewrite Hk'.
      now apply above_names.
Qed.

(** An assignment keeps the order of the enumeration. *)
Lemma Dict_set_enumerated d k v :
  enumerated (Dict.keys d) = true -> enumerated (Dict.keys (Dict.set d k v)) = true.
Proof.
  intros H. unfold Dict.set.
  destruct (Js.array_index k) as [i|] eqn:Hk; destruct (Dict.get d k) as [x|] eqn:Hget.
  - now rewrite (keys_put_present d k v x).
  - now apply keys_add_index.
  - now rewrite (keys_put_present d k v x).
  - rewrite (keys_put_absent d k v Hget). apply enumerated_name; [|assumption].
    unfold is_name. now rewrite Hk.
Qed.

Lemma Dict_set_nil k v : Dict.set (@nil (string * V)) k v = [(k, v)].
Proof. unfold Dict.set. now destruct (Js.array_index k). Qed.

End Dictionaries.

(** ** Path lookup *)

(** A node is reached by the lookup exactly when the segments walk to it
    through folders: an inherited member leads to no node. *)
Lemma walk_Walks (parts : list string) :
  forall current n, walk (Node current) parts = Some (Node n) <-> Walks current parts n.
Proof.
  induction parts as [|part rest IH]; intros current n; simpl.
  - split.
    + intros [= ->]. constructor.
    + inversion 1; reflexivity.
  - destruct current as [children|content].
    + unfold child. destruct (Dict.get children part) as [next|] eqn:Hget.
      * rewrite IH. split.
        -- intros Hw. econstructor; eassumption.
        -- inversion 1; subst. congruence.
      * split.
        -- destruct (inherited part); [|discriminate].
           destruct rest; discriminate.
        -- inversion 1; subst. congruence.
    + split; [discriminate|]. inversion 1.
Qed.

(** When the lookup returns not-found the walk is stopped, by a missing
    segment or by a file. *)
Lemma walk_Blocked (parts : list string) :
  forall current, walk (Node current) parts = None -> Blocked current parts.
Proof.
  induction parts as [|part rest IH]; intros current; simpl.
  - discriminate.
  - destruct current as [children|content]; [|intros _; constructor].
    unfold child. destruct (Dict.get children part) as [next|] eqn:Hget.
    + intros Hb. eapply blocked_below; [eassumption|]. now apply IH.
    + intros _. now apply blocked_missing.
Qed.

(** Where the lookup returns an inherited member, the walk of the design is
    stopped: the member stands for a segment that is missing. *)
Lemma walk_Member_Blocked (parts : list string) :
  forall current name, walk (Node current) parts = Some (Member name) ->
                       Blocked current parts.
Proof.
  induction parts as [|part rest IH]; intros current name; simpl.
  - discriminate.
  - destruct current as [children|content]; [|discriminate].
    unfold child. destruct (Dict.get children part) as [next|] eqn:Hget.
    + intros Hw. eapply blocked_below; [eassumption|]. now apply (IH _ name).
    + intros _. now apply blocked_missing.
Qed.

(** C7, on the code.  In the empty file system the path [constructor] has
    one segment, which is missing, so that the walk of the design is
    stopped; the lookup returns the member of that name that every object
    inherits, which is no node and not not-found. *)
Theorem getNodeFromPath_finds_inherited_member :
  getNodeFromPath [] "constructor" = Some (Member "constructor")
  /\ resolvePath "constructor" = ["constructor"]
  /\ Blocked (Folder []) ["constructor"].
Proof. repeat split. now apply blocked_missing. Qed.

(** ** The audit discipline of the handlers *)

Section Appends.

Context (P : AuditEvent -> Prop).

Lemma appends_silent {A} (m : M A) :
  (forall w, snd (m w) = w) -> appends P m.
Proof.
  intros H w. rewrite H. split; [reflexivity|].
  exists []. rewrite app_nil_r. auto.
Qed.

Lemma appends_ret {A} (a : A) : appends P (ret a).
Proof. now apply appends_silent. Qed.

Lemma appends_throw {A} (e : exn) : appends P (throw e : M A).
Proof. now apply appends_silent. Qed.

Lemma appends_lift {A} (r : exn + A) : appends P (lift r).
Proof. now apply appends_silent. Qed.

Lemma appends_Date_now : appends P Date_now.
Proof. now apply appends_silent. Qed.

Lemma appends_bind {A B} (m : M A) (k : A -> M B) :
  appends P m -> (forall a, appends P (k a)) -> appends P (bind m k).
Proof.
  intros Hm Hk w. unfold bind.
  destruct (Hm w) as [Hc (evs & Hl & HP)].
  destruct (m w) as [[e|a] w1]; simpl in *.
  - split; [assumption|]. eauto.
  - destruct (Hk a w1) as [Hc' (evs' & Hl' & HP')].
    split; [congruence|].
    exists (evs ++ evs')%list. rewrite Hl', Hl, app_assoc.
    split; [reflexivity|]. apply Forall_app; auto.
Qed.

Lemma appends_try_catch {A} (m : M A) (h : exn -> M A) :
  appends P m -> (forall e, appends P (h e)) -> appends P (try_catch m h).
Proof.
  intros Hm Hh w. unfold try_catch.
  destruct (Hm w) as [Hc (evs & Hl & HP)].
  destruct (m w) as [[e|a] w1]; simpl in *.
  - destruct (Hh e w1) as [Hc' (evs' & Hl' & HP')].
    split; [congruence|].
    exists (evs ++ evs')%list. rewrite Hl', Hl, app_assoc.
    split; [reflexivity|]. apply Forall_app; auto.
  - split; [assumption|]. eauto.
Qed.

Lemma appends_logEvent (p : AuditPayload) :
  (forall t, P (mkAuditEvent t p)) -> appends P (logEvent p).
Proof.
  intros Hp w. simpl. split; [reflexivity|].
  eexists. split; [reflexivity|]. auto.
Qed.

Lemma appends_enqueue call payload metadata :
  appends P (enqueueGeminiRequest call payload metadata).
Proof.
  intros w. unfold enqueueGeminiRequest.
  destruct (call w payload); simpl; (split; [reflexivity|]);
    exists []; rewrite app_nil_r; auto.
Qed.

End Appends.

Lemma state_change_is_not_agent_action domain action details t :
  not_agent_action (mkAuditEvent t (STATE_CHANGE domain action details)).
Proof. reflexivity. Qed.

(** The steps that every handler is made of. *)
Ltac appends_step :=
  lazymatch goal with
  | |- appends _ (bind _ _) => apply appends_bind; [|intros]
  | |- appends _ (try_catch _ _) => apply appends_try_catch; [|intros]
  | |- appends _ (ret _) => apply appends_ret
  | |- appends _ (throw _) => apply appends_throw
  | |- appends _ (throw_Error _) => apply appends_throw
  | |- appends _ (throw_TypeError _) => apply appends_throw
  | |- appends _ (lift _) => apply appends_lift
  | |- appends _ Date_now => apply appends_Date_now
  | |- appends _ (enqueueGeminiRequest _ _ _) => apply appends_enqueue
  | |- appends _ (logEvent (STATE_CHANGE _ _ _)) =>
      apply appends_logEvent; intros; apply state_change_is_not_agent_action
  | |- appends _ (if ?b then _ else _) => destruct b
  | |- appends _ (match ?x with _ => _ end) => destruct x
  end.

Section HandlersLog.

Variable ext : Externals.

Local Ltac handler := repeat (appends_step; simpl).

Lemma appends_require_ai : appends not_agent_action (require_ai ext).
Proof. unfold require_ai. handler. Qed.

Lemma appends_text_trim r : appends not_agent_action (text_trim r).
Proof. unfold text_trim, response_text. handler. Qed.

Lemma appends_ensureDirectoryExists vfs path :
  appends not_agent_action (ensureDirectoryExists vfs path).
Proof. unfold ensureDirectoryExists. handler. Qed.

Lemma appends_writeFileToVFS vfs path content :
  appends not_agent_action (writeFileToVFS vfs path content).
Proof.
  unfold writeFileToVFS.
  destruct (pop_last (resolvePath path)) as [[|c filename]|];
    [handler| |handler].
  apply appends_bind; [apply appends_ensureDirectoryExists|intros]. handler.
Qed.

Lemma appends_recall_memory modelName query vectorStore :
  appends not_agent_action (recall_memory ext modelName query vectorStore).
Proof.
  unfold recall_memory.
  apply appends_bind; [apply appends_require_ai|intros].
  destruct vectorStore; [handler|].
  apply appends_bind; [apply appends_enqueue|intros; apply appends_text_trim].
Qed.

Lemma appends_search_the_web modelName query :
  appends not_agent_action (search_the_web ext modelName query).
Proof.
  unfold search_the_web.
  apply appends_bind; [apply appends_require_ai|intros].
  apply appends_bind; [apply appends_enqueue|intros; apply appends_text_trim].
Qed.

Lemma appends_transcend modelName inquiry mindMap :
  appends not_agent_action (transcend ext modelName inquiry mindMap).
Proof.
  unfold transcend.
  apply appends_bind; [apply appends_require_ai|intros].
  apply appends_bind; [apply appends_enqueue|intros].
  apply appends_bind; [apply appends_text_trim|intros].
  handler.
Qed.

Lemma appends_refine_op now op state :
  appends not_agent_action (refine_op now op state).
Proof.
  unfold refine_op, merge_nodes. destruct state as [newMindMap summary].
  handler.
Qed.

Lemma appends_refine_ops now operations :
  forall state, appends not_agent_action (refine_ops now operations state).
Proof.
  induction operations as [|op rest IH]; intros state; simpl.
  - apply appends_ret.
  - apply appends_bind; [|intros; apply IH].
    apply appends_try_catch; [apply appends_refine_op|intros; apply appends_ret].
Qed.

Lemma appends_refine_mind_map modelName mindMap :
  appends not_agent_action (refine_mind_map ext modelName mindMap).
Proof.
  unfold refine_mind_map.
  apply appends_bind; [apply appends_require_ai|intros].
  apply appends_bind; [apply appends_enqueue|intros].
  apply appends_bind; [unfold parse_operations; handler|intros].
  apply appends_bind; [handler|intros].
  apply appends_bind; [apply appends_refine_ops|intros [newMindMap summary]].
  apply appends_ret.
Qed.

Lemma appends_upsert_mind_map_node args mindMap :
  appends not_agent_action (upsert_mind_map_node ext args mindMap).
Proof. unfold upsert_mind_map_node, destructure. handler. Qed.

Lemma appends_create_mind_map_link args mindMap :
  appends not_agent_action (create_mind_map_link args mindMap).
Proof. unfold create_mind_map_link, destructure. handler. Qed.

Lemma appends_synthesize_knowledge modelName topic mindMap :
  appends not_agent_action (synthesize_knowledge ext modelName topic mindMap).
Proof.
  unfold synthesize_knowledge.
  apply appends_bind; [apply appends_require_ai|intros].
  destruct (nodes mindMap); [handler|].
  apply appends_bind; [apply appends_enqueue|intros].
  apply appends_bind; [unfold response_text; handler|intros].
  destruct (parse_node_ids _); [handler|].
  apply appends_bind; [apply appends_enqueue|intros; apply appends_text_trim].
Qed.

Lemma appends_run_terminal_command modelName command vfs mindMap :
  appends not_agent_action (run_terminal_command ext modelName command vfs mindMap).
Proof.
  unfold run_terminal_command. cbv zeta.
  repeat lazymatch goal with
         | |- appends _ (if ?b then _ else _) => destruct b
         end.
  - handler.
  - handler.
  - handler.
  - destruct (List.filter _ (tl _)) as [|filepath [|c contents]]; [handler|handler|].
    apply appends_bind; [apply appends_writeFileToVFS|intros].
    apply appends_bind; [handler|intros [newMindMap mindMapUpdateResult]].
    handler.
  - destruct (List.filter _ (tl _)) as [|path rest]; [handler|].
    apply appends_bind; [apply appends_ensureDirectoryExists|intros]. handler.
  - destruct (List.filter _ (tl _)) as [|path rest]; [handler|].
    apply appends_bind; [apply appends_writeFileToVFS|intros]. handler.
  - handler.
Qed.

Lemma appends_generateImage prompt :
  appends not_agent_action (generateImage ext prompt).
Proof. unfold generateImage, require_service_ai, image_data. handler. Qed.

Lemma appends_editImage prompt data mimeType :
  appends not_agent_action (editImage ext prompt data mimeType).
Proof. unfold editImage, require_service_ai, image_data. handler. Qed.

Lemma appends_awaitSubAgent modelName agent taskPrompt persona :
  appends not_agent_action (awaitSubAgent ext modelName agent taskPrompt persona).
Proof.
  intros w. unfold awaitSubAgent.
  destruct (invokeSubAgent ext w modelName agent taskPrompt persona) as [r queued].
  simpl. split; [reflexivity|]. exists []. rewrite app_nil_r. auto.
Qed.

Lemma appends_arg args key : appends not_agent_action (arg args key).
Proof. unfold arg. handler. Qed.

(** No handler records a tool call: whatever [dispatch] appends to the audit
    log is a state change. *)
Lemma appends_dispatch modelName name args mindMapData vfs vectorStore persona chat :
  appends not_agent_action
    (dispatch ext modelName name args mindMapData vfs vectorStore persona chat).
Proof.
  unfold dispatch. cbv zeta.
  repeat lazymatch goal with
         | |- appends _ (if ?b then _ else _) => destruct b
         end.
  all: repeat first
    [ apply appends_arg | apply appends_search_the_web | apply appends_awaitSubAgent
    | apply appends_writeFileToVFS | apply appends_run_terminal_command
    | apply appends_recall_memory | apply appends_upsert_mind_map_node
    | apply appends_create_mind_map_link | apply appends_synthesize_knowledge
    | apply appends_refine_mind_map | apply appends_transcend
    | apply appends_generateImage | apply appends_editImage
    | appends_step ].
Qed.

End HandlersLog.

(** ** The dispatcher *)

(** C4. Whatever the tool call and whatever its handler does, [executeTool]
    returns a result envelope; among the events the call appends to the audit
    log exactly one is an [AGENT_ACTION], the last one, and it carries the
    tool name, the arguments and the outcome: the result text when the
    handler returned, and the marker [FAILED: ] with the message when it
    threw, in which case the envelope carries the failure message and an
    error line for the terminal. *)
Theorem executeTool_contains_and_records (ext : Externals) (modelName : string)
    (toolCall : FunctionCall) (mindMapData : MindMapData) (vfs : VirtualFileSystem)
    (vectorStore : VectorStore) (personaDescription : string)
    (chatHistory : list ChatMessage) (w : World) :
  let name := fc_name toolCall in
  let args := fc_args toolCall in
  let handled :=
    dispatch ext modelName name args mindMapData vfs vectorStore
             personaDescription chatHistory w in
  let out :=
    executeTool ext modelName toolCall mindMapData vfs vectorStore
                personaDescription chatHistory w in
  exists (toolResult : ToolResult) (inner : list AuditEvent) (outcome : string),
    let record := mkAuditEvent (clock w) (AGENT_ACTION name args outcome) in
    fst out = inr toolResult
    /\ auditLog (snd out) = (auditLog w ++ inner ++ [record])%list
    /\ List.filter is_AGENT_ACTION (inner ++ [record])%list = [record]
    /\ match fst handled with
       | inr r => toolResult = r /\ outcome = result r
       | inl e =>
           outcome = "FAILED: " ++ error_message e
           /\ result toolResult
              = "Tool " ++ Js.quoted (Js.show name) ++ " failed to execute. Error: "
                ++ error_message e
           /\ terminalOutput toolResult
              = Some [mkTerminalLine line_error (result toolResult)]
       end.
Proof.
  intros name args handled out.
  destruct (appends_dispatch ext modelName name args mindMapData vfs vectorStore
              personaDescription chatHistory w) as [Hclock (inner & Hlog & Hinner)].
  fold handled in Hclock, Hlog.
  assert (Hfilter : forall record, is_AGENT_ACTION record = true ->
            List.filter is_AGENT_ACTION (inner ++ [record])%list = [record]).
  { intros record Hrec. rewrite List.filter_app. simpl. rewrite Hrec.
    replace (List.filter is_AGENT_ACTION inner) with (@nil AuditEvent); [reflexivity|].
    clear -Hinner. induction Hinner as [|e evs He _ IH]; [reflexivity|].
    simpl. unfold not_agent_action in He. now rewrite He. }
  subst out. unfold executeTool, try_catch, bind. fold name args. fold handled.
  destruct handled as [[e|r] w1] eqn:Hh; simpl in *.
  - eexists _, inner, _. cbv zeta. repeat split.
    + now rewrite Hlog, Hclock, <- app_assoc.
    + now apply Hfilter.
  - exists r, inner, (result r). cbv zeta. repeat split.
    + now rewrite Hlog, Hclock, <- app_assoc.
    + now apply Hfilter.
Qed.

(** ** Audit events of the file system operations *)

Lemma ensureDirectoryExists_silent vfs path w :
  snd (ensureDirectoryExists vfs path w) = w.
Proof. reflexivity. Qed.

Lemma writeFileToVFS_returns vfs path content w vfs' w' :
  writeFileToVFS vfs path content w = (inr vfs', w') ->
  w' = mkWorld (clock w) (auditLog w ++ [WRITE_FILE_event (clock w) path content])
               (apiQueue w).
Proof.
  unfold writeFileToVFS.
  destruct (pop_last (resolvePath path)) as [[|c filename]|]; try discriminate.
  unfold bind, ensureDirectoryExists, lift.
  destruct (ensure_parts vfs _) as [e|dirs]; try discriminate.
  destruct (assign_file dirs _ _ _) as [e|written]; try discriminate.
  simpl. now intros [= _ <-].
Qed.

Lemma writeFileToVFS_throws vfs path content w e w' :
  writeFileToVFS vfs path content w = (inl e, w') -> w' = w.
Proof.
  unfold writeFileToVFS.
  destruct (pop_last (resolvePath path)) as [[|c filename]|];
    try (now intros [= _ <-]).
  unfold bind, ensureDirectoryExists, lift.
  destruct (ensure_parts vfs _) as [e1|dirs]; try (now intros [= _ <-]).
  destruct (assign_file dirs _ _ _) as [e2|written]; now intros [= _ <-].
Qed.

Lemma run_mkdir ext modelName command vfs mindMap path rest :
  hd_error (tokenize command) = Some "mkdir" ->
  non_flags (tokenize command) = path :: rest ->
  run_terminal_command ext modelName command vfs mindMap
  = (newVFS <- ensureDirectoryExists vfs path ;;
     logEvent (STATE_CHANGE VFS "MKDIR" (details_path path None)) ;;;
     ret (mkTerminalResult EmptyString (Some newVFS) None None)).
Proof.
  intros Hcmd Hargs. unfold run_terminal_command, non_flags in *.
  rewrite Hcmd, Hargs. reflexivity.
Qed.

(** C6, as stated, fails: a successful [ensureDirectoryExists] emits no
    audit event at all. *)
Lemma ensureDirectory_emits_nothing :
  ~ (forall (vfs vfs' : VirtualFileSystem) (path : string) (w w' : World),
       ensureDirectoryExists vfs path w = (inr vfs', w') ->
       exists ev, auditLog w' = (auditLog w ++ [ev])%list /\ is_VFS_event ev = true).
Proof.
  intros H.
  destruct (H [] [("a", Folder [])] "/a" w0 w0 eq_refl) as (ev & Hlog & _).
  discriminate Hlog.
Qed.

(** C6, amended. A successful [writeFileToVFS] appends exactly one event to
    the audit log, the [VFS] event [WRITE_FILE] with the path, and a failing
    one appends nothing, whatever the path; [ensureDirectoryExists] itself
    never touches the audit log, whatever the path; the one [VFS] event of a
    directory creation, [MKDIR] with the path, is appended by the [mkdir]
    command of the terminal, which returns and appends it when
    [ensureDirectoryExists] returned on the path that the command names, and
    throws and appends nothing when it threw. *)
Theorem vfs_audit_events (ext : Externals) (modelName command : string)
    (vfs : VirtualFileSystem) (mindMap : MindMapData) (path content dir arg : string)
    (rest : list string) (w : World) :
  match writeFileToVFS vfs path content w with
  | (inr _, w') =>
      auditLog w' = (auditLog w ++ [WRITE_FILE_event (clock w) path content])%list
  | (inl _, w') => auditLog w' = auditLog w
  end
  /\ auditLog (snd (ensureDirectoryExists vfs dir w)) = auditLog w
  /\ (hd_error (tokenize command) = Some "mkdir" ->
      non_flags (tokenize command) = arg :: rest ->
      match ensureDirectoryExists vfs arg w with
      | (inr newVFS, _) =>
          run_terminal_command ext modelName command vfs mindMap w
          = (inr (mkTerminalResult EmptyString (Some newVFS) None None),
             mkWorld (clock w) (auditLog w ++ [MKDIR_event (clock w) arg])%list
                     (apiQueue w))
      | (inl e, _) =>
          run_terminal_command ext modelName command vfs mindMap w = (inl e, w)
      end).
Proof.
  split; [|split].
  - destruct (writeFileToVFS vfs path content w) as [[e|vfs'] w'] eqn:Hw.
    + now rewrite (writeFileToVFS_throws _ _ _ _ _ _ Hw).
    + now rewrite (writeFileToVFS_returns _ _ _ _ _ _ Hw).
  - reflexivity.
  - intros Hcmd Hargs.
    rewrite (run_mkdir ext modelName command vfs mindMap arg rest Hcmd Hargs).
    unfold bind, ensureDirectoryExists, lift.
    destruct (ensure_parts vfs (resolvePath arg)); reflexivity.
Qed.

Lemma vfs_audit_events_witness :
  auditLog (snd (writeFileToVFS [] "/reports/Dream Analyst_1.md" "hi" w0))
  = [WRITE_FILE_event 1000 "/reports/Dream Analyst_1.md" "hi"]
  /\ run_terminal_command (canned "ok") "m" "mkdir /a -p" [] (mkMindMap [] []) w0
     = (inr (mkTerminalResult EmptyString (Some [("a", Folder [])]) None None),
        mkWorld 1000 [MKDIR_event 1000 "/a"] []).
Proof.
  destruct (vfs_audit_events (canned "ok") "m" "mkdir /a -p" [] (mkMindMap [] [])
              "/reports/Dream Analyst_1.md" "hi" "" "/a" [] w0)
    as (Hwrite & _ & Hmkdir).
  split; [exact Hwrite|]. exact (Hmkdir eq_refl eq_refl).
Defined.

(** ** Links between existing nodes *)

Lemma existsb_id_is (mindMap : MindMapData) (v : option string) :
  existsb (id_is v) (nodes mindMap) = true <-> node_exists mindMap v.
Proof.
  unfold node_exists. rewrite existsb_exists. split.
  - intros (n & Hin & Hid). exists n. split; [assumption|].
    destruct v as [s|]; [|discriminate]. simpl in Hid.
    apply String.eqb_eq in Hid. now subst.
  - intros (n & Hin & Hid). exists n. split; [assumption|].
    subst v. simpl. apply String.eqb_refl.
Qed.

(** C9. [create_mind_map_link] returns the end-point error exactly when the
    source id or the target id is not the id of a node of the graph, and it
    then returns the input graph and leaves the world alone; when both end
    points exist it keeps the nodes and appends one link to the links, from
    the source to the target, of the requested type and label, with strength
    0.7, whatever links the graph already has. *)
Theorem create_mind_map_link_spec (args : Args) (mindMap : MindMapData) (w : World) :
  let source := Dict.get args "source_node_id" in
  let target := Dict.get args "target_node_id" in
  exists (newMindMapData : MindMapData) (result : string) (w' : World),
    create_mind_map_link (Some args) mindMap w = (inr (newMindMapData, result), w')
    /\ (result = endpoint_error
        <-> ~ (node_exists mindMap source /\ node_exists mindMap target))
    /\ (result = endpoint_error -> newMindMapData = mindMap /\ w' = w)
    /\ (result <> endpoint_error ->
        nodes newMindMapData = nodes mindMap
        /\ exists newLink,
            links newMindMapData = (links mindMap ++ [newLink])%list
            /\ Some (l_source newLink) = source
            /\ Some (l_target newLink) = target
            /\ l_type newLink = as_MindMapLinkType (Dict.get args "link_type")
            /\ l_strength newLink = 7 # 10
            /\ l_label newLink = Dict.get args "label").
Proof.
  intros source target.
  unfold create_mind_map_link, destructure, bind, ret. fold source target.
  destruct (existsb (id_is source) (nodes mindMap)) eqn:Hs;
    destruct (existsb (id_is target) (nodes mindMap)) eqn:Ht; simpl.
  - (* both end points exist *)
    apply existsb_id_is in Hs as Hsrc. apply existsb_id_is in Ht as Htgt.
    eexists _, _, _. split; [reflexivity|]. split; [|split].
    + split; [discriminate|]. intros Hn. exfalso. apply Hn. now split.
    + discriminate.
    + intros _. split; [reflexivity|]. eexists. split; [reflexivity|]. simpl.
      destruct Hsrc as (n1 & _ & <-). destruct Htgt as (n2 & _ & <-).
      repeat split.
  - exists mindMap, endpoint_error, w. split; [reflexivity|]. split; [|split].
    + split; [|reflexivity]. intros _ [_ Htgt].
      apply existsb_id_is in Htgt. congruence.
    + auto.
    + congruence.
  - exists mindMap, endpoint_error, w. split; [reflexivity|]. split; [|split].
    + split; [|reflexivity]. intros _ [Hsrc _].
      apply existsb_id_is in Hsrc. congruence.
    + auto.
    + congruence.
  - exists mindMap, endpoint_error, w. split; [reflexivity|]. split; [|split].
    + split; [|reflexivity]. intros _ [Hsrc _].
      apply existsb_id_is in Hsrc. congruence.
    + auto.
    + congruence.
Qed.

Lemma create_mind_map_link_spec_witness :
  create_mind_map_link
    (Some [("source_node_id", "missing"); ("target_node_id", "root");
           ("link_type", "RELATED")]) root_graph w0
  = (inr (root_graph, endpoint_error), w0).
Proof.
  destruct (create_mind_map_link_spec
              [("source_node_id", "missing"); ("target_node_id", "root");
               ("link_type", "RELATED")] root_graph w0)
    as (g & r & w' & Hrun & Hiff & Hfail & _).
  assert (Hr : r = endpoint_error).
  { apply Hiff. intros [(n & Hin & Hid) _]. simpl in Hin, Hid.
    destruct Hin as [<-|[]]. discriminate Hid. }
  destruct (Hfail Hr) as [Hg Hw]. subst g w' r. exact Hrun.
Defined.

(** ** The two stages of [synthesize_knowledge] *)

(** C8. When the answer to the pre-filter request lists no node id, the
    handler returns the text that says that no relevant node was found, as a
    normal result, and the request queue has received the pre-filter request
    and nothing else: the synthesis request is never submitted. *)
Theorem synthesize_stops_on_empty_prefilter (ext : Externals) (modelName : string)
    (topic : option string) (mindMap : MindMapData) (w : World)
    (response : Response) (text : string) :
  ai ext = true ->
  nodes mindMap <> [] ->
  generateContent ext w (prefilterPayload topic mindMap) = inr response ->
  r_text response = Some text ->
  parse_node_ids text = [] ->
  synthesize_knowledge ext modelName topic mindMap w
  = (inr (nothing_relevant topic),
     mkWorld (clock w) (auditLog w)
             (apiQueue w ++ [mkQueued (prefilterMetadata topic mindMap) (clock w)
                                      succeeded None (Some text)])%list).
Proof.
  intros Hai Hnodes Hcall Htext Hids.
  unfold synthesize_knowledge, require_ai. rewrite Hai.
  destruct (nodes mindMap) as [|n ns] eqn:Hn; [contradiction|].
  unfold response_text, enqueueGeminiRequest, bind, ret. cbv beta iota.
  rewrite Hcall, Htext. cbv beta iota. rewrite Hids. reflexivity.
Qed.

Lemma synthesize_stops_on_empty_prefilter_witness :
  synthesize_knowledge (canned " , ") "gemini-2.5-pro" (Some "sleep") root_graph w0
  = (inr (nothing_relevant (Some "sleep")),
     mkWorld 1000 []
             [mkQueued (prefilterMetadata (Some "sleep") root_graph) 1000
                       succeeded None (Some " , ")]).
Proof.
  apply (synthesize_stops_on_empty_prefilter (canned " , ") "gemini-2.5-pro"
           (Some "sleep") root_graph w0 (mkResponse (Some " , ") None) " , ");
    first [reflexivity | discriminate].
Defined.

(** ** The [write] command and its [--parent] flag *)

Lemma run_write ext modelName command vfs mindMap filepath c cs :
  hd_error (tokenize command) = Some "write" ->
  non_flags (tokenize command) = filepath :: c :: cs ->
  existsb (id_is (parent_flag (List.filter is_flag (tokenize command))))
          (nodes mindMap) = false ->
  let content := strip_quotes (Js.join " " (c :: cs)) in
  run_terminal_command ext modelName command vfs mindMap
  = (newVFS <- writeFileToVFS vfs filepath content ;;
     ret (mkTerminalResult
            ("Wrote " ++ Js.of_nat (String.length content) ++ " chars to "
             ++ filepath ++ "." ++ nl ++ nl ++ "--- FILE CONTENT ---" ++ nl ++ content)
            (Some newVFS) (Some mindMap) (Some filepath))).
Proof.
  intros Hcmd Hargs Hparent content.
  unfold run_terminal_command, non_flags in *.
  rewrite Hcmd, Hargs, Hparent, andb_false_r. reflexivity.
Qed.

Lemma assign_file_walk (pathParts : list string) (filename content : string) :
  forall current written,
    assign_file current pathParts filename content = inr written ->
    walk (Node (Folder written)) (pathParts ++ [filename])%list
    = Some (Node (File content)).
Proof.
  induction pathParts as [|part rest IH]; intros current written; simpl.
  - intros [= <-]. unfold child. now rewrite Dict_get_set_eq.
  - destruct (child current part) as [[[children|]|]|]; try discriminate.
    destruct (assign_file children rest filename content) as [|children'] eqn:Hrest;
      try discriminate.
    intros [= <-]. unfold child. rewrite Dict_get_set_eq. exact (IH _ _ Hrest).
Qed.

Lemma pop_last_removelast (parts : list string) (filename : string) :
  pop_last parts = Some filename ->
  parts = (removelast parts ++ [filename])%list.
Proof.
  unfold pop_last.
  induction parts as [|p [|y ps] IH]; intros Hlast.
  - discriminate.
  - simpl in Hlast. injection Hlast as <-. reflexivity.
  - change (removelast (p :: y :: ps)) with (p :: removelast (y :: ps)).
    simpl app. f_equal. apply IH. exact Hlast.
Qed.

(** A file that [writeFileToVFS] wrote is found at its path. *)
Lemma writeFileToVFS_lookup vfs path content w vfs' w' :
  writeFileToVFS vfs path content w = (inr vfs', w') ->
  getNodeFromPath vfs' path = Some (Node (File content)).
Proof.
  unfold writeFileToVFS, getNodeFromPath.
  destruct (pop_last (resolvePath path)) as [[|c filename]|] eqn:Hpop;
    try discriminate.
  unfold bind, ensureDirectoryExists, lift.
  destruct (ensure_parts vfs _) as [e|dirs]; try discriminate.
  destruct (assign_file dirs _ _ _) as [e|written] eqn:Hassign; try discriminate.
  simpl. intros [= <- _].
  rewrite (pop_last_removelast _ _ Hpop) at 1.
  exact (assign_file_walk _ _ _ _ _ Hassign).
Qed.




(** ** Ids of created nodes *)

Lemma has_char_app (c : ascii) (a b : string) :
  has_char c (a ++ String c b) = true.
Proof.
  induction a as [|x a IH]; simpl.
  - now rewrite Ascii.eqb_refl.
  - rewrite IH. apply orb_true_r.
Qed.

(** A text is cut at its last underscore in one way only. *)
Lemma cut_at_last_underscore (p1 p2 d1 d2 : string) :
  has_char "_" d1 = false ->
  has_char "_" d2 = false ->
  p1 ++ String "_" d1 = p2 ++ String "_" d2 ->
  p1 = p2 /\ d1 = d2.
Proof.
  intros H1 H2. revert p2.
  induction p1 as [|x p1 IH]; intros [|y p2]; simpl.
  - now intros [= ->].
  - intros [= <- ->]. now rewrite has_char_app in H1.
  - intros [= -> <-]. now rewrite has_char_app in H2.
  - intros [= -> Heq]. destruct (IH _ Heq) as [-> ->]. now split.
Qed.

Lemma digits_have_no_underscore (d : Decimal.uint) :
  has_char "_" (NilEmpty.string_of_uint d) = false.
Proof. induction d; simpl; auto. Qed.

Lemma of_N_digits (n : N) : Js.of_N n = NilEmpty.string_of_uint (N.to_uint n).
Proof.
  unfold Js.of_N, NilZero.string_of_uint.
  destruct n as [|p]; [reflexivity|].
  simpl. pose proof (DecimalPos.Unsigned.to_uint_nonnil p) as Hp.
  now destruct (Pos.to_uint p).
Qed.

Lemma of_N_inj (n m : N) : Js.of_N n = Js.of_N m -> n = m.
Proof.
  rewrite !of_N_digits. intros H.
  apply DecimalN.Unsigned.to_uint_inj.
  apply (f_equal NilEmpty.uint_of_string) in H.
  rewrite !NilEmpty.usu in H. now injection H.
Qed.

(** The id of a created node determines the prefix of the sanitised name and
    the millisecond it was made from. *)
Lemma new_node_id_inj (name1 name2 : string) (t1 t2 : N) :
  new_node_id name1 t1 = new_node_id name2 t2 ->
  Js.substring0 20 (Js.sanitize name1) = Js.substring0 20 (Js.sanitize name2)
  /\ t1 = t2.
Proof.
  unfold new_node_id. intros H.
  apply cut_at_last_underscore in H.
  - destruct H as [Hp Ht]. split; [assumption|now apply of_N_inj].
  - rewrite of_N_digits. apply digits_have_no_underscore.
  - rewrite of_N_digits. apply digits_have_no_underscore.
Qed.

Lemma created_id_inj (c1 c2 : N * Args) :
  created_id c1 = created_id c2 -> id_key c1 = id_key c2.
Proof.
  unfold created_id, id_key. intros H.
  apply new_node_id_inj in H. destruct H as [-> ->]. reflexivity.
Qed.

(** A create-call on a graph that holds its parent appends one node, with
    the id made from the name and the time, and one link. *)
Lemma upsert_create (ext : Externals) (call : N * Args) (mindMap : MindMapData)
    (w : World) :
  create_calls (map n_id (nodes mindMap)) [call] ->
  exists newNode newLink message w',
    upsert_mind_map_node ext (Some (snd call)) mindMap (at_time (fst call) w)
    = (inr (mkMindMap (nodes mindMap ++ [newNode])%list
                      (links mindMap ++ [newLink])%list, message), w')
    /\ n_id newNode = created_id call.
Proof.
  destruct call as [t args]. simpl.
  intros (Hid & (name & Hname) & (parent & Hparent & Hne & Hin) & _).
  unfold upsert_mind_map_node, destructure, bind, ret, Date_now. cbv beta iota zeta.
  rewrite Hid, Hname, Hparent.
  assert (Htruthy : Js.truthy (Some parent) = true) by (now destruct parent).
  assert (Hex : existsb (id_is (Some parent)) (nodes mindMap) = true).
  { apply existsb_id_is. apply in_map_iff in Hin as (n & Hn & Hin).
    exists n. split; [assumption|now rewrite Hn]. }
  rewrite Htruthy, Hex. simpl negb. simpl orb. cbv beta iota.
  unfold logEvent. cbv beta iota.
  eexists _, _, _, _. split; [reflexivity|].
  unfold created_id. simpl. now rewrite Hname.
Qed.

Lemma NoDup_map_through {A B C} (f : A -> B) (g : A -> C) (l : list A) :
  (forall x y, f x = f y -> g x = g y) ->
  List.NoDup (map g l) -> List.NoDup (map f l).
Proof.
  intros Hfg. induction l as [|x l IH]; simpl; intros Hnd.
  - constructor.
  - inversion Hnd as [|? ? Hnotin Hrest]; subst. constructor.
    + intros Hin. apply Hnotin.
      apply in_map_iff in Hin as (y & Hy & Hin).
      apply in_map_iff. exists y. split; [|assumption].
      symmetry. now apply Hfg.
    + now apply IH.
Qed.

Lemma upsert_calls_create (ext : Externals) (calls : list (N * Args)) :
  forall (mindMap : MindMapData) (w : World),
    create_calls (map n_id (nodes mindMap)) calls ->
    exists created newLinks w',
      upsert_calls ext calls mindMap w
      = (inr (mkMindMap (nodes mindMap ++ created)%list
                        (links mindMap ++ newLinks)%list), w')
      /\ map n_id created = map created_id calls.
Proof.
  induction calls as [|call rest IH]; intros mindMap w Hcalls.
  - exists [], [], w. simpl. rewrite !app_nil_r. now destruct mindMap.
  - destruct Hcalls as (Hid & Hname & Hparent & Hrest).
    destruct (upsert_create ext call mindMap w) as (n & l & msg & w1 & Hrun & Hn).
    { simpl. auto. }
    destruct call as [t args]. simpl in Hrun. simpl upsert_calls. rewrite Hrun.
    destruct (IH (mkMindMap (nodes mindMap ++ [n])%list (links mindMap ++ [l])%list) w1)
      as (created & newLinks & w' & Hrec & Hids).
    { simpl. rewrite map_app. simpl. now rewrite Hn. }
    exists (n :: created), (l :: newLinks), w'. simpl in Hrec.
    rewrite <- !app_assoc in Hrec. split; [exact Hrec|].
    simpl. now rewrite Hn, Hids.
Qed.

(** C1, as stated, fails: two create-calls with the same name in the same
    millisecond make the same id. *)
Lemma same_millisecond_same_id :
  ~ (forall (ext : Externals) (calls : list (N * Args)) (mindMap g' : MindMapData)
            (w w' : World),
       create_calls (map n_id (nodes mindMap)) calls ->
       upsert_calls ext calls mindMap w = (inr g', w') ->
       List.NoDup (map n_id (skipn (length (nodes mindMap)) (nodes g')))).
Proof.
  intros H.
  specialize (H (canned "ok") [create_X 1000; create_X 1000] root_graph).
  edestruct (upsert_calls_create (canned "ok") [create_X 1000; create_X 1000]
               root_graph w0) as (created & newLinks & w' & Hrun & Hids).
  { simpl. repeat split; eauto; try (eexists; repeat split; eauto; discriminate). }
  specialize (H _ w0 w' ltac:(simpl; repeat split; eauto;
                              try (eexists; repeat split; eauto; discriminate)) Hrun).
  change (List.NoDup (map n_id created)) in H. rewrite Hids in H.
  inversion H as [|? ? Hnotin _]. apply Hnotin. now left.
Qed.

(** C1, amended. In a sequence of create-calls, each with a name and a
    parent that is in the graph, every call appends one node, and the ids of
    the appended nodes are pairwise distinct provided no two calls agree on
    both the first 20 characters of the sanitised name and the millisecond
    of the call. *)
Theorem created_ids_distinct (ext : Externals) (calls : list (N * Args))
    (mindMap : MindMapData) (w : World) :
  create_calls (map n_id (nodes mindMap)) calls ->
  List.NoDup (map id_key calls) ->
  exists (created : list MindMapNode) (newLinks : list MindMapLink) (w' : World),
    upsert_calls ext calls mindMap w
    = (inr (mkMindMap (nodes mindMap ++ created)%list
                      (links mindMap ++ newLinks)%list), w')
    /\ length created = length calls
    /\ List.NoDup (map n_id created).
Proof.
  intros Hcalls Hkeys.
  destruct (upsert_calls_create ext calls mindMap w Hcalls)
    as (created & newLinks & w' & Hrun & Hids).
  exists created, newLinks, w'. split; [exact Hrun|]. split.
  - apply (f_equal (@length string)) in Hids. now rewrite !length_map in Hids.
  - rewrite Hids. apply (NoDup_map_through created_id id_key); [|assumption].
    apply created_id_inj.
Qed.

Lemma created_ids_distinct_witness :
  exists created newLinks w',
    upsert_calls (canned "ok") [create_X 1000; create_X 1001] root_graph w0
    = (inr (mkMindMap (nodes root_graph ++ created)%list
                      (links root_graph ++ newLinks)%list), w')
    /\ length created = 2%nat
    /\ List.NoDup (map n_id created).
Proof.
  apply (created_ids_distinct (canned "ok") [create_X 1000; create_X 1001]
           root_graph w0).
  - simpl. repeat split; eauto; try (eexists; repeat split; eauto; discriminate).
  - simpl. repeat constructor; simpl; intuition discriminate.
Defined.

(** ** Merging nodes *)

(** What [merge_nodes] returns: the old nodes and links that no merged id
    touches, then the new node and its link when no merged id touches them
    either. *)
Lemma merge_nodes_returns (now : string) (ids : list string)
    (name content : option string) (mindMap : MindMapData) (w : World) :
  let parent :=
    match find (fun l => includes ids (l_target l)) (links mindMap) with
    | Some l => l_source l
    | None => merge_root_sentinel
    end in
  let newNode :=
    mkNode ("merged_" ++ Js.of_N (clock w)) name ABSTRACT_CONCEPT content
           "SYSTEM_REFINEMENT" now now None in
  let newLink := mkLink parent (n_id newNode) HIERARCHICAL (8 # 10) None in
  let keeps_node n := negb (includes ids (n_id n)) in
  let keeps_link l :=
    negb (includes ids (l_target l)) && negb (includes ids (l_source l)) in
  merge_nodes now ids name content mindMap w
  = (inr (mkMindMap
            (List.filter keeps_node (nodes mindMap)
             ++ (if keeps_node newNode then [newNode] else []))%list
            (List.filter keeps_link (links mindMap)
             ++ (if keeps_link newLink then [newLink] else []))%list,
          newNode), w).
Proof.
  unfold merge_nodes, bind, ret, Date_now, list_push. cbv beta iota zeta.
  rewrite !List.filter_app. reflexivity.
Qed.

(** After a merge no link of the graph touches a merged id. *)
Lemma merge_removes_touching_links (now : string) (ids : list string)
    (name content : option string) (mindMap merged : MindMapData)
    (newNode : MindMapNode) (w w' : World) :
  merge_nodes now ids name content mindMap w = (inr (merged, newNode), w') ->
  forall l, In l (links merged) ->
            includes ids (l_source l) = false /\ includes ids (l_target l) = false.
Proof.
  unfold merge_nodes, bind, ret, Date_now. cbv beta iota zeta.
  intros [= <- _ _] l. simpl. rewrite filter_In. intros [_ Hkeep].
  apply andb_true_iff in Hkeep as [Ht Hs].
  now rewrite negb_true_iff in Ht, Hs.
Qed.

(** C3, on the code. Merging A and B in [related_first] puts the new node
    under X, the source of a [RELATED] link, although the first inbound
    [HIERARCHICAL] link of a merged node comes from the root: the search for
    the parent link does not look at the type of the link. *)
Theorem merge_parent_ignores_link_type :
  fst (refine_op "now" merge_A_B (related_first, []) w0)
  = inr (mkMindMap [root_node; concept "X"; merged_AB "now" 1000]
                   [mkLink "X" "merged_1000" HIERARCHICAL (8 # 10) None],
         ["Merged 2 nodes into: AB"])
  /\ hierarchical_parent ["A"; "B"] related_first = "root".
Proof. split; reflexivity. Qed.






(** ** Copy on write *)

Module CopyOnWrite.

Import Heap.

Lemma fresh_mono (n m : nat) (v : value) : n <= m -> fresh m v -> fresh n v.
Proof. destruct v; simpl; auto. lia. Qed.

Lemma fresh_cell_mono (n m : nat) (c : cell) :
  n <= m -> fresh_cell m c -> fresh_cell n c.
Proof.
  intros Hnm. destruct c as [props|elems]; simpl; intros H;
    eapply Forall_impl; try exact H; intros x Hx.
  - unfold fresh_prop in *. now apply (fresh_mono n m).
  - now apply (fresh_mono n m).
Qed.

Lemma fresh_of_option (n : nat) (v : option string) : fresh n (of_option v).
Proof. now destruct v. Qed.

Lemma Dict_get_Forall {V} (P : string * V -> Prop) (d : list (string * V))
    (k : string) (v : V) :
  Forall P d -> Dict.get d k = Some v -> exists k', P (k', v).
Proof.
  induction 1 as [|[k' v'] rest Hp _ IH]; simpl; [discriminate|].
  destruct (String.eqb k' k); [|exact IH].
  intros [= <-]. now exists k'.
Qed.

(** *** The deep copy only allocates *)

Lemma json_induction (P : json -> Prop) :
  P JNull -> (forall b, P (JBool b)) -> (forall q, P (JNum q)) ->
  (forall s, P (JStr s)) ->
  (forall elems, Forall P elems -> P (JArr elems)) ->
  (forall props, Forall (fun kv => P (snd kv)) props -> P (JObj props)) ->
  forall j, P j.
Proof.
  intros Hnull Hbool Hnum Hstr Harr Hobj.
  fix IH 1. intros [| b | q | s | elems | props].
  - exact Hnull.
  - apply Hbool.
  - apply Hnum.
  - apply Hstr.
  - apply Harr. induction elems as [|j rest IHrest]; constructor.
    + apply IH.
    + exact IHrest.
  - apply Hobj. induction props as [|[k j] rest IHrest]; constructor.
    + apply IH.
    + exact IHrest.
Qed.

Lemma alloc_each_allocates {A B} (ok : nat -> B -> Prop)
    (f : A -> heap -> B * heap) (l : list A) :
  (forall n m b, n <= m -> ok m b -> ok n b) ->
  Forall (allocates ok f) l ->
  allocates (fun n => Forall (ok n)) (alloc_each f) l.
Proof.
  intros Hmono. induction 1 as [|x rest Hx _ IH]; intros h; simpl.
  - exists []. rewrite app_nil_r. auto.
  - destruct (Hx h) as (a1 & Hh1 & Ha1 & Hy).
    destruct (f x h) as [y h1]. simpl in Hh1, Hy. subst h1.
    destruct (IH (h ++ a1)%list) as (a2 & Hh2 & Ha2 & Hys).
    destruct (alloc_each f rest (h ++ a1)%list) as [ys h2]. simpl in *. subst h2.
    assert (Hle : length h <= length (h ++ a1)%list)
      by (rewrite length_app; lia).
    exists (a1 ++ a2)%list. rewrite app_assoc. split; [reflexivity|]. split.
    + apply Forall_app. split; [assumption|].
      eapply Forall_impl; [exact Ha2|]. intros c. now apply fresh_cell_mono.
    + constructor; [assumption|].
      eapply Forall_impl; [exact Hys|]. intros b. now apply Hmono.
Qed.

Lemma alloc_json_allocates (j : json) : allocates fresh alloc_json j.
Proof.
  induction j as [| b | q | s | elems IH | props IH] using json_induction;
    intros h; simpl;
    try (exists []; rewrite app_nil_r; simpl; now auto).
  - destruct (alloc_each_allocates fresh alloc_json elems fresh_mono IH h)
      as (added & Hh1 & Hadded & Hvs).
    destruct (alloc_each alloc_json elems h) as [vs h1]. simpl in *. subst h1.
    exists (added ++ [Arr vs])%list. rewrite app_assoc. split; [reflexivity|]. split.
    + apply Forall_app. split; [assumption|]. constructor; [exact Hvs|constructor].
    + rewrite length_app. lia.
  - set (f := fun '(k, j) h => let '(v, h1) := alloc_json j h in ((k, v), h1)).
    assert (IH' : Forall (allocates fresh_prop f) props).
    { eapply Forall_impl; [exact IH|]. intros [k j] Hj h'. simpl in Hj.
      destruct (Hj h') as (added & Hh1 & Hadded & Hv). simpl.
      destruct (alloc_json j h') as [v h1]. simpl in *. eauto. }
    destruct (alloc_each_allocates fresh_prop f props) with (h := h)
      as (added & Hh1 & Hadded & Hps); [|exact IH'|].
    { intros n m kv Hnm. now apply fresh_mono. }
    fold f. destruct (alloc_each f props h) as [ps h1]. simpl in *. subst h1.
    exists (added ++ [Obj ps])%list. rewrite app_assoc. split; [reflexivity|]. split.
    + apply Forall_app. split; [assumption|]. constructor; [exact Hps|constructor].
    + rewrite length_app. lia.
Qed.

(** *** Work that stays in the copy *)

Section Confined.

(** The store when the handler starts. *)
Variable h0 : heap.

Abbreviation is_fresh := (fresh (length h0)).

Lemma confined_weaken {A} (m : HM A) (Q R : A -> Prop) :
  confined h0 m Q -> (forall a, Q a -> R a) -> confined h0 m R.
Proof.
  intros Hm HQR s Hs. destruct (Hm s Hs) as [Hg Hq]. split; auto.
Qed.

Lemma confined_ret {A} (a : A) (Q : A -> Prop) : Q a -> confined h0 (ret a) Q.
Proof. intros Hq s Hs. simpl. split; [assumption|]. now intros ? [= <-]. Qed.

Lemma confined_throw {A} (e : exn) (Q : A -> Prop) : confined h0 (throw e) Q.
Proof. intros s Hs. simpl. split; [assumption|discriminate]. Qed.

Lemma confined_lift {A} (r : exn + A) : confined h0 (lift r) anything.
Proof. intros s Hs. simpl. split; [assumption|]. now intros. Qed.

Lemma confined_bind {A B} (m : HM A) (k : A -> HM B) (Q : A -> Prop) (R : B -> Prop) :
  confined h0 m Q -> (forall a, Q a -> confined h0 (k a) R) -> confined h0 (bind m k) R.
Proof.
  intros Hm Hk s Hs. unfold bind.
  destruct (Hm s Hs) as [Hg Hq].
  destruct (m s) as [[e|a] s1]; simpl in *.
  - split; [assumption|discriminate].
  - apply (Hk a (Hq a eq_refl) s1 Hg).
Qed.

Lemma confined_try_catch {A} (m : HM A) (handler : exn -> HM A) (Q : A -> Prop) :
  confined h0 m Q -> (forall e, confined h0 (handler e) Q) -> confined h0 (try_catch m handler) Q.
Proof.
  intros Hm Hh s Hs. unfold try_catch.
  destruct (Hm s Hs) as [Hg Hq].
  destruct (m s) as [[e|a] s1]; simpl in *.
  - apply (Hh e s1 Hg).
  - split; [assumption|]. intros a' [= <-]. now apply Hq.
Qed.

Lemma confined_in_world {A} (m : M A) : confined h0 (in_world m) anything.
Proof.
  intros s Hs. unfold in_world. destruct (m (fst s)) as [r w']. simpl.
  split; [assumption|]. now intros.
Qed.

Lemma confined_alloc (c : cell) :
  fresh_cell (length h0) c -> confined h0 (alloc c) is_fresh.
Proof.
  intros Hc s (added & Hs & Hadded). unfold alloc. simpl. split.
  - exists (added ++ [c])%list. rewrite Hs, app_assoc. split; [reflexivity|].
    apply Forall_app. split; [assumption|]. now constructor.
  - intros a [= <-]. simpl. rewrite Hs, length_app. lia.
Qed.

(** The cell that a fresh reference leads to is an added one. *)
Lemma grown_lookup (s : Store) (l : loc) (c : cell) :
  grown h0 s -> length h0 <= l -> snd s !! l = Some c -> fresh_cell (length h0) c.
Proof.
  intros (added & Hs & Hadded) Hl Hc. rewrite Hs in Hc.
  rewrite (lookup_app_r h0 added l Hl) in Hc.
  exact (Forall_lookup_1 _ _ _ _ Hadded Hc).
Qed.

Lemma grown_insert (s : Store) (l : loc) (c : cell) :
  grown h0 s -> length h0 <= l -> fresh_cell (length h0) c ->
  grown h0 (fst s, <[l := c]> (snd s)).
Proof.
  intros (added & Hs & Hadded) Hl Hc. simpl.
  exists (<[l - length h0 := c]> added). split.
  - rewrite Hs. now apply insert_app_r_alt.
  - now apply Forall_insert.
Qed.

Lemma confined_get (v : value) (k : string) : confined h0 (get v k) anything.
Proof.
  intros s Hs. unfold get.
  destruct v as [| | | | |l|member]; simpl; try (split; [assumption|now intros]).
  destruct (snd s !! l) as [[props|elems]|]; simpl; (split; [assumption|now intros]).
Qed.

Lemma confined_get_fresh (v : value) (k : string) :
  is_fresh v -> confined h0 (get v k) is_fresh.
Proof.
  intros Hv s Hs. unfold get.
  destruct v as [| | | | |l|member]; simpl;
    try (split; [assumption|]; intros a [= <-]; exact I);
    try (split; [assumption|discriminate]).
  destruct (snd s !! l) as [[props|elems]|] eqn:Hl; simpl;
    (split; [assumption|]); try discriminate; intros a [= <-]; try exact I.
  pose proof (grown_lookup s l _ Hs Hv Hl) as Hc. simpl in Hc.
  destruct (Dict.get props k) as [x|] eqn:Hk; [|now destruct (inherited k)].
  destruct (Dict_get_Forall _ _ _ _ Hc Hk) as (k' & Hx). exact Hx.
Qed.

Lemma confined_set (v : value) (k : string) (x : value) :
  is_fresh v -> is_fresh x -> confined h0 (set v k x) anything.
Proof.
  intros Hv Hx s Hs. unfold set.
  destruct v as [| | | | |l|member]; simpl; try (split; [assumption|now intros]).
  destruct (snd s !! l) as [[props|elems]|] eqn:Hl; simpl;
    try (split; [assumption|now intros]).
  split; [|now intros].
  apply grown_insert; [assumption|exact Hv|].
  pose proof (grown_lookup s l _ Hs Hv Hl) as Hc. simpl in *.
  apply Dict_set_Forall; [intros k'; exact Hx|exact Hc].
Qed.

Lemma confined_items (v : value) : confined h0 (items v) anything.
Proof.
  intros s Hs. unfold items.
  destruct v as [| | | | |l|member]; simpl; try (split; [assumption|now intros]).
  destruct (snd s !! l) as [[props|elems]|]; simpl; (split; [assumption|now intros]).
Qed.

Lemma confined_items_fresh (v : value) :
  is_fresh v -> confined h0 (items v) (Forall is_fresh).
Proof.
  intros Hv s Hs. unfold items.
  destruct v as [| | | | |l|member]; simpl; try (split; [assumption|discriminate]).
  destruct (snd s !! l) as [[props|elems]|] eqn:Hl; simpl;
    (split; [assumption|]); try discriminate.
  intros a [= <-]. exact (grown_lookup s l _ Hs Hv Hl).
Qed.

Lemma confined_push (v x : value) :
  is_fresh v -> is_fresh x -> confined h0 (push v x) anything.
Proof.
  intros Hv Hx s Hs. unfold push.
  destruct v as [| | | | |l|member]; simpl; try (split; [assumption|now intros]).
  destruct (snd s !! l) as [[props|elems]|] eqn:Hl; simpl;
    try (split; [assumption|now intros]).
  split; [|now intros].
  apply grown_insert; [assumption|exact Hv|].
  pose proof (grown_lookup s l _ Hs Hv Hl) as Hc. simpl in *.
  apply Forall_app. split; [exact Hc|]. now constructor.
Qed.

Lemma confined_stringify (v : value) : confined h0 (stringify v) anything.
Proof.
  intros s Hs. unfold stringify.
  destruct (to_json _ _ v); simpl; (split; [assumption|now intros]).
Qed.

Lemma confined_deep_copy (v : value) : confined h0 (deep_copy v) is_fresh.
Proof.
  unfold deep_copy. eapply confined_bind; [apply confined_stringify|].
  intros [j|] _; [|apply confined_throw].
  intros s (added & Hs & Hadded).
  destruct (alloc_json_allocates j (snd s)) as (copied & Hcopy & Hcopied & Hv).
  destruct (alloc_json j (snd s)) as [v' h']. simpl in *. subst h'.
  assert (Hle : length h0 <= length (snd s)) by (rewrite Hs, length_app; lia).
  split.
  - exists (added ++ copied)%list. rewrite Hs, app_assoc. split; [reflexivity|].
    apply Forall_app. split; [assumption|].
    eapply Forall_impl; [exact Hcopied|]. intros c. now apply fresh_cell_mono.
  - intros a [= <-]. now apply (fresh_mono _ (length (snd s))).
Qed.

Lemma confined_findM {A} (p : A -> HM bool) (l : list A) (Q : A -> Prop) :
  (forall x, confined h0 (p x) anything) -> Forall Q l ->
  confined h0 (findM p l) (when_some Q).
Proof.
  intros Hp. induction 1 as [|x rest Hx _ IH]; simpl.
  - now apply confined_ret.
  - eapply confined_bind; [apply Hp|]. intros [|] _; [|exact IH].
    now apply confined_ret.
Qed.

Lemma confined_filterM {A} (p : A -> HM bool) (l : list A) (Q : A -> Prop) :
  (forall x, confined h0 (p x) anything) -> Forall Q l ->
  confined h0 (filterM p l) (Forall Q).
Proof.
  intros Hp. induction 1 as [|x rest Hx _ IH]; simpl.
  - now apply confined_ret.
  - eapply confined_bind; [apply Hp|]. intros b _.
    eapply confined_bind; [exact IH|]. intros kept Hkept.
    apply confined_ret. destruct b; auto.
Qed.

Lemma confined_someM {A} (p : A -> HM bool) (l : list A) :
  (forall x, confined h0 (p x) anything) -> confined h0 (someM p l) anything.
Proof.
  intros Hp. unfold someM.
  eapply confined_bind; [apply (confined_findM p l anything Hp)|].
  - apply Forall_forall. now intros.
  - intros found _. now apply confined_ret.
Qed.

Lemma Forall_anything {A} (l : list A) : Forall anything l.
Proof. apply Forall_forall. now intros. Qed.

End Confined.

(** Side conditions: a value or a cell does not lead below the store the
    handler started from. *)
Ltac freshness :=
  solve [ assumption | exact I | apply fresh_of_option
        | simpl; repeat constructor; (assumption || exact I || apply fresh_of_option) ].

(** One statement of a handler. *)
Ltac confine_step :=
  lazymatch goal with
  | |- confined _ (bind (destructure _ _) _) _ =>
      eapply (confined_bind _ _ _ anything); [unfold destructure|intros ? _]
  | |- confined _ (bind (if _ then _ else _) _) _ =>
      eapply (confined_bind _ _ _ anything); [|intros ? _]
  | |- confined _ (bind (match _ with _ => _ end) _) _ =>
      eapply (confined_bind _ _ _ anything); [|intros ? _]
  | |- confined _ (bind _ _) _ => eapply confined_bind; [|intros ? ?]
  | |- confined _ (try_catch _ _) _ => apply confined_try_catch; [|intros ?]
  | |- confined _ (ret _) _ => apply confined_ret; try exact I
  | |- confined _ (throw _) _ => apply confined_throw
  | |- confined _ (throw_Error _) _ => apply confined_throw
  | |- confined _ (throw_TypeError _) _ => apply confined_throw
  | |- confined _ (destructure _ _) _ => unfold destructure
  | |- confined _ (in_world _) _ => apply confined_in_world
  | |- confined _ (deep_copy _) _ => apply confined_deep_copy
  | |- confined _ (stringify _) _ => apply confined_stringify
  | |- confined _ (alloc _) _ => apply confined_alloc; freshness
  | |- confined _ (get _ _) _ =>
      first [apply confined_get_fresh; freshness | apply confined_get]
  | |- confined _ (items _) _ =>
      first [apply confined_items_fresh; freshness | apply confined_items]
  | |- confined _ (set _ _ _) _ => apply confined_set; freshness
  | |- confined _ (push _ _) _ => apply confined_push; freshness
  | |- confined _ (if ?b then _ else _) _ => destruct b
  | |- confined _ (match ?x with _ => _ end) _ => destruct x
  end.

Section ConfinedHandlers.

Variable ext : Externals.
Variable h0 : heap.

Lemma confined_logged k v : confined h0 (logged k v) anything.
Proof. unfold logged. repeat confine_step. Qed.

Lemma confined_stringify_text v : confined h0 (stringify_text ext v) anything.
Proof. unfold stringify_text. repeat confine_step. Qed.

Lemma confined_has_id v n : confined h0 (has_id v n) anything.
Proof. unfold has_id. repeat confine_step. Qed.

Lemma confined_is_parent_link v l : confined h0 (is_parent_link v l) anything.
Proof. unfold is_parent_link. repeat confine_step. Qed.

Lemma confined_targets ids l : confined h0 (targets ids l) anything.
Proof. unfold targets. repeat confine_step. Qed.

Lemma confined_keeps_node ids n : confined h0 (keeps_node ids n) anything.
Proof. unfold keeps_node. repeat confine_step. Qed.

Lemma confined_keeps_link ids l : confined h0 (keeps_link ids l) anything.
Proof. unfold keeps_link. repeat confine_step. Qed.

Lemma confined_ensure_loop (pathParts : list string) :
  forall current, fresh (length h0) current ->
                  confined h0 (ensure_loop pathParts current) anything.
Proof.
  induction pathParts as [|part rest IH]; intros current Hcurrent; simpl.
  - now apply confined_ret.
  - repeat confine_step. now apply IH.
Qed.

Lemma confined_ensureDirectoryExists vfs path :
  confined h0 (ensureDirectoryExists vfs path) (fresh (length h0)).
Proof.
  unfold ensureDirectoryExists.
  eapply confined_bind; [apply confined_deep_copy|]. intros newVFS Hnew.
  eapply confined_bind; [now apply confined_ensure_loop|]. intros _ _.
  now apply confined_ret.
Qed.

Lemma confined_descend (pathParts : list string) :
  forall current, fresh (length h0) current ->
                  confined h0 (descend pathParts current) (fresh (length h0)).
Proof.
  induction pathParts as [|part rest IH]; intros current Hcurrent; simpl.
  - now apply confined_ret.
  - repeat confine_step. now apply IH.
Qed.

Lemma confined_writeFileToVFS vfs path content :
  confined h0 (writeFileToVFS vfs path content) anything.
Proof.
  unfold writeFileToVFS.
  destruct (pop_last (resolvePath path)) as [[|c filename]|];
    try apply confined_throw.
  eapply confined_bind; [apply confined_ensureDirectoryExists|].
  intros vfsWithDir Hdir.
  eapply confined_bind; [now apply confined_descend|]. intros current Hcurrent.
  repeat confine_step.
Qed.

(** The callbacks of [find], [filter] and [some] only read. *)
Local Ltac callback :=
  intros;
  first [ apply confined_has_id | apply confined_is_parent_link
        | apply confined_targets | apply confined_keeps_node
        | apply confined_keeps_link ].

(** A search or a filter over the elements of an array of the copy. *)
Local Ltac search :=
  lazymatch goal with
  | |- confined _ (findM _ _) _ =>
      first [ apply confined_findM; [callback|eassumption]
            | eapply (confined_findM _ _ _ anything); [callback|apply Forall_anything] ]
  | |- confined _ (filterM _ _) _ => apply confined_filterM; [callback|eassumption]
  | |- confined _ (someM _ _) _ => apply confined_someM; callback
  | |- confined _ (logged _ _) _ => apply confined_logged
  | |- confined _ (stringify_text _ _) _ => apply confined_stringify_text
  end.

Local Ltac found :=
  repeat match goal with
         | H : when_some _ (Some _) |- _ => simpl in H
         end.

Local Ltac handler := repeat (first [search | confine_step]; found).

Lemma confined_upsert_mind_map_node args mindMap :
  confined h0 (upsert_mind_map_node ext args mindMap) anything.
Proof. unfold upsert_mind_map_node. handler. Qed.

Lemma confined_create_mind_map_link args mindMap :
  confined h0 (create_mind_map_link args mindMap) anything.
Proof. unfold create_mind_map_link. handler. Qed.

Lemma confined_parent_of firstParentLink :
  when_some (fresh (length h0)) firstParentLink ->
  confined h0 (parent_of firstParentLink) (fresh (length h0)).
Proof.
  intros Hlink. unfold parent_of.
  destruct firstParentLink as [l|]; simpl in Hlink; [|now apply confined_ret].
  destruct (truthy l); [|now apply confined_ret].
  eapply confined_bind; [now apply confined_get_fresh|]. intros source Hsource.
  destruct source; handler.
Qed.

Lemma confined_refine_op now newMindMap op summary :
  fresh (length h0) newMindMap ->
  confined h0 (refine_op ext now newMindMap op summary) anything.
Proof.
  intros Hnew. unfold refine_op.
  destruct (String.eqb (operation op) "UPDATE_NODE_CONTENT"); [handler|].
  destruct (String.eqb (operation op) "MERGE_NODES"); [|handler].
  destruct (nodes_to_merge op) as [ids|]; [|handler].
  destruct (length ids <? 2)%nat; [handler|].
  eapply confined_bind; [now apply confined_get_fresh|]. intros links Hlinks.
  eapply confined_bind; [now apply confined_items_fresh|]. intros elems Helems.
  eapply confined_bind; [apply confined_findM; [callback|exact Helems]|].
  intros firstParentLink Hlink.
  eapply confined_bind; [now apply confined_parent_of|]. intros parentNodeId Hparent.
  handler.
Qed.

Lemma confined_refine_ops now newMindMap operations :
  fresh (length h0) newMindMap ->
  forall summary, confined h0 (refine_ops ext now newMindMap operations summary) anything.
Proof.
  intros Hnew. induction operations as [|op rest IH]; intros summary; simpl.
  - now apply confined_ret.
  - eapply confined_bind; [|intros summary' _; apply IH].
    apply confined_try_catch; [now apply confined_refine_op|].
    intros e. now apply confined_ret.
Qed.

Lemma confined_transcend modelName inquiry mindMap :
  confined h0 (transcend ext modelName inquiry mindMap) anything.
Proof. unfold transcend. handler. Qed.

(** The part of [refine_mind_map] that works on the copy. *)
Lemma confined_refine_copy mindMap operations :
  confined h0
    (newMindMap <- deep_copy mindMap ;;
     now <- in_world Date_now ;;
     summary <- refine_ops ext (toISOString ext now) newMindMap operations [] ;;
     ret (newMindMap, refine_result summary)) anything.
Proof.
  eapply confined_bind; [apply confined_deep_copy|]. intros newMindMap Hnew.
  eapply confined_bind; [apply confined_in_world|]. intros now _.
  eapply confined_bind; [now apply confined_refine_ops|]. intros summary _.
  now apply confined_ret.
Qed.

End ConfinedHandlers.

(** *** The store only grows *)

Lemma confined_frames {A} (m : HM A) (Q : A -> Prop) :
  (forall h0, confined h0 m Q) -> frames m.
Proof.
  intros Hm s. destruct (Hm (snd s) s) as [(added & Hs & _) _].
  - exists []. rewrite app_nil_r. auto.
  - now exists added.
Qed.

Lemma frames_bind {A B} (m : HM A) (k : A -> HM B) :
  frames m -> (forall a, frames (k a)) -> frames (bind m k).
Proof.
  intros Hm Hk s. unfold bind. destruct (Hm s) as (a1 & H1).
  destruct (m s) as [[e|a] s1]; simpl in *.
  - now exists a1.
  - destruct (Hk a s1) as (a2 & H2). exists (a1 ++ a2)%list.
    now rewrite H2, H1, app_assoc.
Qed.

Lemma frames_unchanged {A} (m : HM A) :
  (forall s, snd (snd (m s)) = snd s) -> frames m.
Proof. intros H s. exists []. now rewrite app_nil_r. Qed.

Lemma frames_alloc (c : cell) : frames (alloc c).
Proof. intros s. now exists [c]. Qed.

Lemma frames_node_summary (n : value) : frames (node_summary n).
Proof.
  unfold node_summary.
  repeat (apply frames_bind;
          [apply (confined_frames _ anything); intros; apply confined_get|intros]).
  apply frames_alloc.
Qed.

Lemma frames_mapM {A B} (f : A -> HM B) (l : list A) :
  (forall x, frames (f x)) -> frames (mapM f l).
Proof.
  intros Hf. induction l as [|x rest IH]; simpl.
  - apply frames_unchanged. reflexivity.
  - apply frames_bind; [apply Hf|intros y].
    apply frames_bind; [exact IH|intros ys].
    apply frames_unchanged. reflexivity.
Qed.

Section Frames.

Variable ext : Externals.

Lemma frames_refine_mind_map modelName mindMap :
  frames (refine_mind_map ext modelName mindMap).
Proof.
  unfold refine_mind_map.
  apply frames_bind;
    [apply (confined_frames _ anything); intros; apply confined_in_world|intros _].
  apply frames_bind;
    [apply (confined_frames _ anything); intros; apply confined_get|intros nodes].
  apply frames_bind;
    [apply (confined_frames _ anything); intros; apply confined_items|intros elems].
  apply frames_bind; [apply frames_mapM, frames_node_summary|intros summaries].
  apply frames_bind; [apply frames_alloc|intros summaries_array].
  apply frames_bind;
    [apply (confined_frames _ anything); intros; apply confined_stringify_text
    |intros mindMapString].
  apply frames_bind;
    [apply (confined_frames _ anything); intros; apply confined_get|intros nodes'].
  apply frames_bind;
    [apply (confined_frames _ anything); intros; apply confined_items|intros elems'].
  apply frames_bind;
    [apply (confined_frames _ anything); intros; apply confined_in_world
    |intros response].
  apply frames_bind; [|intros operations].
  - apply frames_unchanged. intros s. unfold parse_operations.
    destruct (r_text response); reflexivity.
  - apply (confined_frames _ anything). intros h0.
    apply confined_refine_copy.
Qed.

End Frames.

(** *** What the snapshot serialises to *)

Lemma to_json_grown (fuel : nat) (h added : heap) :
  closed h ->
  forall v, allocated h v -> to_json fuel (h ++ added)%list v = to_json fuel h v.
Proof.
  intros Hclosed. induction fuel as [|fuel IH]; intros v Hv;
    destruct v as [| | | | |l|member]; try reflexivity.
  simpl in Hv. simpl. rewrite (lookup_app_l h added l Hv).
  destruct (h !! l) as [[props|elems]|] eqn:Hl; [| |reflexivity].
  - pose proof (Forall_lookup_1 _ _ _ _ Hclosed Hl) as Hprops. simpl in Hprops.
    f_equal. f_equal. apply map_ext_in. intros kv Hin. f_equal.
    apply IH. exact (proj1 (List.Forall_forall _ _) Hprops kv Hin : allocated h (snd kv)).
  - pose proof (Forall_lookup_1 _ _ _ _ Hclosed Hl) as Helems. simpl in Helems.
    f_equal. f_equal. apply map_ext_in. intros x Hin.
    apply IH. exact (proj1 (List.Forall_forall _ _) Helems x Hin).
Qed.

Lemma frames_untouched {A} (m : HM A) (w : World) (h : heap) (snapshot : value) :
  frames m -> closed h -> allocated h snapshot -> untouched m w h snapshot.
Proof.
  intros Hm Hclosed Hsnap. unfold untouched. cbv zeta.
  destruct (Hm (w, h)) as (added & Hadded). simpl snd in Hadded. rewrite Hadded.
  split; [now exists added|]. intros fuel. now apply to_json_grown.
Qed.

(** *** The copy serialises as the original *)

Lemma allocated_grown (h added : heap) (v : value) :
  allocated h v -> allocated (h ++ added)%list v.
Proof. destruct v; simpl; auto. rewrite length_app. lia. Qed.

Lemma within_grown (h added : heap) (c : cell) :
  within h c -> within (h ++ added)%list c.
Proof.
  destruct c as [props|elems]; simpl; intros H;
    (eapply Forall_impl; [exact H|]); intros x; apply allocated_grown.
Qed.

Lemma closed_snoc (h : heap) (c : cell) :
  closed h -> within (h ++ [c])%list c -> closed (h ++ [c])%list.
Proof.
  intros Hh Hc. apply Forall_app. split.
  - eapply Forall_impl; [exact Hh|]. intros c'. apply within_grown.
  - now constructor.
Qed.

Lemma list_max_bound (l : list nat) (n : nat) :
  list_max l <= n -> Forall (fun k => k <= n) l.
Proof.
  induction l as [|k l IH]; simpl; intros H; constructor; [lia|].
  apply IH. lia.
Qed.

Lemma alloc_each_copies {A B} (holds : heap -> B -> Prop)
    (reads : nat -> heap -> B -> A -> Prop) (d : A -> nat)
    (f : A -> heap -> B * heap) (l : list A) :
  (forall h added b, holds h b -> holds (h ++ added)%list b) ->
  (forall fuel h added b a,
      closed h -> holds h b -> reads fuel h b a -> reads fuel (h ++ added)%list b a) ->
  Forall (copies holds reads d f) l ->
  copies (fun h => Forall (holds h)) (fun fuel h => Forall2 (reads fuel h))
         (fun xs => list_max (map d xs)) (alloc_each f) l.
Proof.
  intros Hholds Hreads. induction 1 as [|x rest Hx _ IH]; intros h Hclosed; simpl.
  - exists []. rewrite app_nil_r. repeat split; auto.
  - destruct (Hx h Hclosed) as (a1 & Hh1 & Hc1 & Hy & Hry).
    destruct (f x h) as [y h1]. simpl in Hh1, Hc1, Hy, Hry.
    destruct (IH h1 Hc1) as (a2 & Hh2 & Hc2 & Hys & Hrys).
    destruct (alloc_each f rest h1) as [ys h2]. simpl in *.
    exists (a1 ++ a2)%list. rewrite app_assoc, <- Hh1, <- Hh2.
    split; [reflexivity|]. split; [assumption|]. split.
    + constructor; [|assumption]. rewrite Hh2. now apply Hholds.
    + intros fuel Hfuel. constructor.
      * rewrite Hh2. apply Hreads; auto. apply Hry. lia.
      * apply Hrys. lia.
Qed.

Lemma kept_items_all (fuel : nat) (h : heap) (vs : list value) (elems : list json) :
  Forall2 (fun v j => to_json fuel h v = Some (Some j)) vs elems ->
  kept_items (map (to_json fuel h) vs) = Some elems.
Proof.
  induction 1 as [|v j vs elems Hv _ IH]; simpl; [reflexivity|].
  now rewrite Hv, IH.
Qed.

Lemma kept_props_all (fuel : nat) (h : heap) (ps : list (string * value))
    (props : list (string * json)) :
  Forall2 (fun kv kj => fst kv = fst kj
                        /\ to_json fuel h (snd kv) = Some (Some (snd kj))) ps props ->
  kept_props (map (fun kv => (fst kv, to_json fuel h (snd kv))) ps) = Some props.
Proof.
  induction 1 as [|[k v] [k' j] ps props [Hk Hv] _ IH]; simpl; [reflexivity|].
  simpl in Hk, Hv. subst k'. now rewrite Hv, IH.
Qed.

(** [JSON.parse] gives a value that [JSON.stringify] turns into the same
    tree again. *)
Lemma alloc_json_copies (j : json) :
  copies allocated (fun fuel h v j => to_json fuel h v = Some (Some j)) depth
         alloc_json j.
Proof.
  induction j as [| b | q | s | elems IH | props IH] using json_induction;
    intros h Hclosed; simpl;
    try (exists []; rewrite app_nil_r; repeat split; auto;
         intros [|fuel] _; reflexivity).
  - destruct (alloc_each_copies allocated
                (fun fuel h v j => to_json fuel h v = Some (Some j)) depth
                alloc_json elems) with (h := h)
      as (added & Hh1 & Hc1 & Hvs & Hread); auto.
    { intros; now apply allocated_grown. }
    { intros fuel h' added b a Hc Hb Hr. now rewrite to_json_grown. }
    destruct (alloc_each alloc_json elems h) as [vs h1]. simpl in *.
    assert (Hcell : within (h1 ++ [Arr vs])%list (Arr vs)).
    { simpl. eapply Forall_impl; [exact Hvs|]. intros v. apply allocated_grown. }
    exists (added ++ [Arr vs])%list. rewrite app_assoc, <- Hh1.
    split; [reflexivity|]. split; [now apply closed_snoc|]. split.
    + rewrite length_app. simpl. lia.
    + intros [|fuel] Hfuel; [lia|]. simpl.
      rewrite list_lookup_middle by reflexivity.
      rewrite (kept_items_all fuel _ vs elems); [reflexivity|].
      eapply Forall2_impl; [apply (Hread fuel); lia|].
      intros v j Hv. simpl in Hv. rewrite to_json_grown; auto.
      clear -Hvs Hv. destruct v; simpl; auto.
      destruct fuel; [discriminate|]. simpl in Hv.
      destruct (h1 !! l) eqn:Hl; [|discriminate].
      now apply lookup_lt_Some in Hl.
  - set (f := fun '(k, j) h => let '(v, h1) := alloc_json j h in ((k, v), h1)).
    set (reads := fun fuel h (kv : string * value) (kj : string * json) =>
                    fst kv = fst kj /\ to_json fuel h (snd kv) = Some (Some (snd kj))).
    assert (IH' : Forall (copies allocated_prop reads (fun kj => depth (snd kj)) f) props).
    { eapply Forall_impl; [exact IH|]. intros [k j] Hj h' Hc'. simpl in Hj.
      destruct (Hj h' Hc') as (added & Hh1 & Hc1 & Hv & Hr). simpl.
      destruct (alloc_json j h') as [v h1]. simpl in *.
      exists added. repeat split; auto. }
    destruct (alloc_each_copies allocated_prop reads (fun kj => depth (snd kj)) f props)
      with (h := h) as (added & Hh1 & Hc1 & Hps & Hread); auto.
    { intros h' added [k v] Hv. now apply allocated_grown. }
    { intros fuel h' added [k v] [k' j] Hc Hb [Hk Hr]. split; [exact Hk|].
      simpl in *. now rewrite to_json_grown. }
    fold f. destruct (alloc_each f props h) as [ps h1]. simpl in *.
    assert (Hcell : within (h1 ++ [Obj ps])%list (Obj ps)).
    { simpl. eapply Forall_impl; [exact Hps|]. intros [k v]. apply allocated_grown. }
    exists (added ++ [Obj ps])%list. rewrite app_assoc, <- Hh1.
    split; [reflexivity|]. split; [now apply closed_snoc|]. split.
    + rewrite length_app. simpl. lia.
    + intros [|fuel] Hfuel; [lia|]. simpl.
      rewrite list_lookup_middle by reflexivity.
      rewrite (kept_props_all fuel _ ps props); [reflexivity|].
      eapply Forall2_impl; [apply (Hread fuel); lia|].
      intros [k v] [k' j] [Hk Hv]. split; [exact Hk|]. simpl in *.
      rewrite to_json_grown; auto.
      clear -Hv. destruct v; simpl; auto.
      destruct fuel; [discriminate|]. simpl in Hv.
      destruct (h1 !! l) eqn:Hl; [|discriminate].
      now apply lookup_lt_Some in Hl.
Qed.

(** X27. The deep copy of a snapshot is a value of its own, in cells of its
    own, that serialises to the tree that the snapshot serialises to. *)
Lemma deep_copy_serialises_alike (v : value) (w : World) (h : heap) (j : json) :
  closed h ->
  to_json (length h) h v = Some (Some j) ->
  exists v' added,
    deep_copy v (w, h) = (inr v', (w, (h ++ added)%list))
    /\ closed (h ++ added)%list
    /\ fresh (length h) v'
    /\ forall fuel, depth j <= fuel ->
                    to_json fuel (h ++ added)%list v' = Some (Some j).
Proof.
  intros Hclosed Hj. unfold deep_copy, stringify, bind. simpl. rewrite Hj.
  destruct (alloc_json_copies j h Hclosed) as (added & Hh' & Hc' & _ & Hread).
  destruct (alloc_json_allocates j h) as (added' & Hh'' & _ & Hfresh).
  destruct (alloc_json j h) as [v' h'] eqn:Hcopy. simpl in *. subst h'.
  exists v', added. repeat split; auto. now rewrite Hcopy.
Qed.

(** C5. Each of the operations that change a store works on a copy: in the
    store of objects in which it ran, whether it returned or threw, every
    cell that was there before the call is as it was, so the snapshot that
    was passed in serialises exactly as before; what the operation built it
    built in cells of its own.  This holds for [ensureDirectoryExists] and
    [writeFileToVFS] on the file system, and on the mind map for
    [upsert_mind_map_node], [create_mind_map_link], [refine_mind_map] with
    its merges, relinks and content updates, and [transcend] with the
    insight it appends. *)
Theorem copy_on_write (ext : Externals) (w : World) (h : heap) (snapshot : value)
    (path content modelName : string) (args : option Args) (inquiry : option string) :
  closed h ->
  allocated h snapshot ->
  untouched (ensureDirectoryExists snapshot path) w h snapshot
  /\ untouched (writeFileToVFS snapshot path content) w h snapshot
  /\ untouched (upsert_mind_map_node ext args snapshot) w h snapshot
  /\ untouched (create_mind_map_link args snapshot) w h snapshot
  /\ untouched (refine_mind_map ext modelName snapshot) w h snapshot
  /\ untouched (transcend ext modelName inquiry snapshot) w h snapshot.
Proof.
  intros Hclosed Hsnap.
  split; [|split; [|split; [|split; [|split]]]];
    apply frames_untouched; try assumption.
  - apply (confined_frames _ anything). intros h0.
    eapply confined_weaken; [apply confined_ensureDirectoryExists|now intros].
  - apply (confined_frames _ anything). intros h0. apply confined_writeFileToVFS.
  - apply (confined_frames _ anything). intros h0.
    apply confined_upsert_mind_map_node.
  - apply (confined_frames _ anything). intros h0.
    apply confined_create_mind_map_link.
  - apply frames_refine_mind_map.
  - apply (confined_frames _ anything). intros h0. apply confined_transcend.
Qed.

Lemma copy_on_write_witness :
  let h := snd root_store in
  let snapshot := fst root_store in
  let args := Some (snd (create_X 1000)) in
  untouched (ensureDirectoryExists snapshot "/a/b.txt") w0 h snapshot
  /\ untouched (writeFileToVFS snapshot "/a/b.txt" "hi") w0 h snapshot
  /\ untouched (upsert_mind_map_node (canned "ok") args snapshot) w0 h snapshot
  /\ untouched (create_mind_map_link args snapshot) w0 h snapshot
  /\ untouched (refine_mind_map (canned "ok") "m" snapshot) w0 h snapshot
  /\ untouched (transcend (canned "ok") "m" (Some "why") snapshot) w0 h snapshot.
Proof.
  apply (copy_on_write (canned "ok") w0 (snd root_store) (fst root_store)
           "/a/b.txt" "hi" "m" (Some (snd (create_X 1000))) (Some "why")).
  - vm_compute. repeat constructor.
  - vm_compute. repeat constructor.
Defined.

End CopyOnWrite.

(** ** The two readings of the handlers agree

    On the examples of the design, the handlers over the store of objects
    return a graph or a file system that serialises to the JSON of what the
    handlers over values return. *)

Example upsert_agrees :
  let '(mindMap, s) := in_store (json_of_mindMap root_graph) w0 in
  serialised (first_of (Heap.upsert_mind_map_node (canned "ok")
                          (Some [("name", "X"); ("content", "x");
                                 ("node_type", "TASK"); ("parent_node_id", "root")])
                          mindMap s))
  = graph_of (upsert_mind_map_node (canned "ok")
                (Some [("name", "X"); ("content", "x");
                       ("node_type", "TASK"); ("parent_node_id", "root")])
                root_graph w0).
Proof. reflexivity. Qed.

Example merge_agrees :
  let '(mindMap, s) := in_store (json_of_mindMap parent_and_child) w0 in
  serialised (first_of (Heap.refine_mind_map (plans [merge_A_B]) "m" mindMap s))
  = graph_of (refine_mind_map (plans [merge_A_B]) "m" parent_and_child w0).
Proof. reflexivity. Qed.

Example merge_related_first_agrees :
  let '(mindMap, s) := in_store (json_of_mindMap related_first) w0 in
  serialised (first_of (Heap.refine_mind_map (plans [merge_A_B]) "m" mindMap s))
  = graph_of (refine_mind_map (plans [merge_A_B]) "m" related_first w0).
Proof. reflexivity. Qed.

Example create_link_agrees :
  let '(mindMap, s) := in_store (json_of_mindMap parent_and_child) w0 in
  serialised (first_of (Heap.create_mind_map_link
                          (Some [("source_node_id", "B"); ("target_node_id", "root");
                                 ("link_type", "RELATED"); ("label", "see")])
                          mindMap s))
  = graph_of (create_mind_map_link
                (Some [("source_node_id", "B"); ("target_node_id", "root");
                       ("link_type", "RELATED"); ("label", "see")])
                parent_and_child w0).
Proof. reflexivity. Qed.

Example ensure_inherited_agrees :
  let '(vfs, s) := in_store (json_of_vfs [("a", Folder [])]) w0 in
  match fst (Heap.ensureDirectoryExists vfs "/a/constructor" s) with
  | inl e => Some e
  | inr _ => None
  end
  = match fst (ensureDirectoryExists [("a", Folder [])] "/a/constructor" w0) with
    | inl e => Some e
    | inr _ => None
    end.
Proof. reflexivity. Qed.

Example enumeration_agrees :
  let '(vfs, s) := in_store (json_of_vfs [("2", File "x"); ("b", File "y")]) w0 in
  serialised (Heap.writeFileToVFS vfs "/10" "hi" s)
  = match writeFileToVFS [("2", File "x"); ("b", File "y")] "/10" "hi" w0 with
    | (inr vfs', _) => Some (Some (json_of_vfs vfs'))
    | (inl _, _) => None
    end.
Proof. reflexivity. Qed.

Example writeFile_agrees :
  let '(vfs, s) := in_store (json_of_vfs [("a", Folder [("old.txt", File "x")])]) w0 in
  serialised (Heap.writeFileToVFS vfs "/a/b/c.txt" "hi" s)
  = match writeFileToVFS [("a", Folder [("old.txt", File "x")])] "/a/b/c.txt" "hi" w0 with
    | (inr vfs', _) => Some (Some (json_of_vfs vfs'))
    | (inl _, _) => None
    end.
Proof. reflexivity. Qed.

(** * Further properties of the executor

    What the file system operations, the terminal, the handlers of the mind
    map and the dispatcher do beyond the properties above: their errors,
    what they keep, and how they compose. *)

(** ** Paths and directories *)

Lemma split_nonempty sep s : Js.split sep s <> [].
Proof.
  destruct s as [|c s]; simpl; [discriminate|].
  destruct (Ascii.eqb c sep); [discriminate|].
  destruct (Js.split sep s); discriminate.
Qed.

Lemma split_app sep a b :
  Js.split sep (a ++ String sep b) = (Js.split sep a ++ Js.split sep b)%list.
Proof.
  induction a as [|c a IH]; simpl.
  - now rewrite Ascii.eqb_refl.
  - destruct (Ascii.eqb c sep); [now rewrite IH|].
    rewrite IH. pose proof (split_nonempty sep a) as Hne.
    destruct (Js.split sep a); [contradiction|reflexivity].
Qed.

Lemma split_no_sep sep s : has_char sep s = false -> Js.split sep s = [s].
Proof.
  induction s as [|c s IH]; simpl; [reflexivity|].
  intros H. apply orb_false_iff in H as [Hc Hs].
  rewrite Ascii.eqb_sym, Hc, (IH Hs). reflexivity.
Qed.

Lemma split_pieces sep s : Forall (fun p => has_char sep p = false) (Js.split sep s).
Proof.
  induction s as [|c s IH]; simpl.
  - repeat constructor.
  - destruct (Ascii.eqb c sep) eqn:Hc.
    + constructor; [reflexivity|exact IH].
    + destruct (Js.split sep s) as [|p ps]; inversion IH; subst;
        constructor; simpl; auto.
      * rewrite Ascii.eqb_sym, Hc. reflexivity.
      * rewrite Ascii.eqb_sym, Hc. assumption.
Qed.

Lemma resolvePath_segments path : Forall (fun p => is_segment p = true) (resolvePath path).
Proof.
  unfold resolvePath. apply List.Forall_forall. intros p Hin.
  apply filter_In in Hin as [Hin Hp].
  pose proof (split_pieces "/" path) as Hall.
  pose proof (proj1 (List.Forall_forall _ _) Hall p Hin) as Hs. simpl in Hs.
  unfold is_segment. now rewrite Hp, Hs.
Qed.

Lemma resolve_join parts :
  Forall (fun p => is_segment p = true) parts ->
  resolvePath (Js.join "/" parts) = parts.
Proof.
  unfold resolvePath.
  induction parts as [|p [|q rest] IH]; intros Hall.
  - reflexivity.
  - inversion Hall as [|? ? Hp _]; subst. unfold is_segment in Hp.
    apply andb_true_iff in Hp as [Hp Hs]. simpl Js.join.
    rewrite split_no_sep by (now apply negb_true_iff). simpl. now rewrite Hp.
  - inversion Hall as [|? ? Hp Hrest]; subst. specialize (IH Hrest).
    change (Js.join "/" (p :: q :: rest)) with (p ++ String "/" (Js.join "/" (q :: rest))).
    rewrite split_app, List.filter_app, IH.
    unfold is_segment in Hp. apply andb_true_iff in Hp as [Hp Hs].
    rewrite split_no_sep by (now apply negb_true_iff). simpl. now rewrite Hp.
Qed.

(** X1. The segments that [resolvePath] returns are in normal form: none is
    empty, none is the dot, none holds a slash.  Joining them with slashes
    and resolving again gives the same segments, which is what
    [writeFileToVFS] relies on when it hands the joined directory to
    [ensureDirectoryExists]. *)
Theorem resolvePath_normal_form (path : string) :
  Forall (fun p => is_segment p = true) (resolvePath path)
  /\ resolvePath (Js.join "/" (resolvePath path)) = resolvePath path.
Proof.
  split; [apply resolvePath_segments|].
  apply resolve_join, resolvePath_segments.
Qed.

Lemma resolvePath_concat (a b : string) :
  resolvePath (a ++ "/" ++ b) = (resolvePath a ++ resolvePath b)%list.
Proof.
  unfold resolvePath. change ("/" ++ b) with (String "/" b).
  now rewrite split_app, List.filter_app.
Qed.

Lemma walk_app (p q : list string) :
  forall current,
    walk current (p ++ q)%list
    = match walk current p with
      | Some n => walk n q
      | None => None
      end.
Proof.
  induction p as [|part rest IH]; intros current; simpl; [reflexivity|].
  destruct current as [[children|content]|name]; try reflexivity.
  destruct (child children part); [apply IH|reflexivity].
Qed.

(** X2. Looking up a single segment is reading that name in the root: the
    own property, or else the inherited member.  Looking up [a/b] is looking
    up [b] in the folder that [a] names; when [a] names what is no folder, a
    file or an inherited member, the lookup returns it if [b] has no segment
    and not-found otherwise, and when [a] names nothing it returns
    not-found. *)
Theorem getNodeFromPath_concat (vfs : VirtualFileSystem) (a b : string) :
  (is_segment a = true -> getNodeFromPath vfs a = child vfs a)
  /\ getNodeFromPath vfs (a ++ "/" ++ b)
     = match getNodeFromPath vfs a with
       | Some (Node (Folder children)) => getNodeFromPath children b
       | Some reached =>
           match resolvePath b with
           | [] => Some reached
           | _ :: _ => None
           end
       | None => None
       end.
Proof.
  split.
  - intros Ha. unfold getNodeFromPath.
    change a with (Js.join "/" [a]) at 1. rewrite resolve_join by now constructor.
    simpl. now destruct (child vfs a).
  - unfold getNodeFromPath. rewrite resolvePath_concat, walk_app.
    destruct (walk (Node (Folder vfs)) (resolvePath a)) as [[[children|content]|name]|];
      try reflexivity; now destruct (resolvePath b).
Qed.

Lemma getNodeFromPath_concat_witness :
  getNodeFromPath [("notes", Folder [("a.txt", File "hi")])] "notes"
  = Some (Node (Folder [("a.txt", File "hi")]))
  /\ getNodeFromPath [("notes", Folder [("a.txt", File "hi")])] "notes/a.txt"
     = Some (Node (File "hi"))
  /\ getNodeFromPath [("notes", Folder [("a.txt", File "hi")])] "notes/valueOf"
     = Some (Member "valueOf").
Proof.
  pose proof (getNodeFromPath_concat [("notes", Folder [("a.txt", File "hi")])]
                "notes" "a.txt") as [Hroot Hfile].
  pose proof (getNodeFromPath_concat [("notes", Folder [("a.txt", File "hi")])]
                "notes" "valueOf") as [_ Hmember].
  split; [exact (Hroot eq_refl)|]. split; [exact Hfile | exact Hmember].
Defined.

Lemma child_set_eq (d : VFSFolder) (k : string) (n : VFSNode) :
  child (Dict.set d k n) k = Some (Node n).
Proof. unfold child. now rewrite Dict_get_set_eq. Qed.




(** The shape of a step of [ensure_parts]. *)
Lemma ensure_parts_step current part rest new :
  ensure_parts current (part :: rest) = inr new ->
  exists children children',
    (child current part = None /\ children = []
     \/ child current part = Some (Node (Folder children)))
    /\ ensure_parts children rest = inr children'
    /\ new = Dict.set current part (Folder children').
Proof.
  simpl. destruct (child current part) as [[[children|content]|name]|] eqn:Hget.
  - destruct (ensure_parts children rest) as [e|children'] eqn:Hrest; [discriminate|].
    intros [= <-]. exists children, children'. auto.
  - discriminate.
  - discriminate.
  - destruct (ensure_parts [] rest) as [e|children'] eqn:Hrest; [discriminate|].
    intros [= <-]. exists [], children'. auto.
Qed.

Lemma ensure_parts_folder parts :
  forall current new,
    ensure_parts current parts = inr new ->
    exists children, walk (Node (Folder new)) parts = Some (Node (Folder children)).
Proof.
  induction parts as [|part rest IH]; intros current new H.
  - simpl. eauto.
  - apply ensure_parts_step in H as (children & children' & _ & Hrest & ->).
    simpl. rewrite child_set_eq. exact (IH _ _ Hrest).
Qed.

Lemma ensure_parts_again parts :
  forall current new,
    ensure_parts current parts = inr new -> ensure_parts new parts = inr new.
Proof.
  induction parts as [|part rest IH]; intros current new H.
  - reflexivity.
  - apply ensure_parts_step in H as (children & children' & _ & Hrest & ->).
    simpl. rewrite child_set_eq, (IH _ _ Hrest).
    f_equal. apply Dict_set_same, Dict_get_set_eq.
Qed.

Lemma walk_not_folder (reached : Reached) (parts : list string) (children : VFSFolder) :
  is_folder reached = false ->
  walk reached parts = Some (Node (Folder children)) -> False.
Proof.
  destruct reached as [[sub|content]|name]; simpl; try discriminate;
    intros _; destruct parts; discriminate.
Qed.


Lemma walk_Member (name : string) (parts : list string) (n : VFSNode) :
  walk (Member name) parts <> Some (Node n).
Proof. destruct parts; discriminate. Qed.



Lemma leads_to_stops (reached : Reached) (parts : list string) :
  is_folder reached = false -> parts <> [] -> leads_to reached parts = None.
Proof.
  destruct reached as [[sub|content]|name]; simpl; try discriminate;
    intros _; now destruct parts.
Qed.

Lemma ensure_parts_fails parts :
  forall current e,
    ensure_parts current parts = inl e
    <-> exists part, in_the_way current parts part /\ e = not_a_directory part.
Proof.
  unfold in_the_way.
  assert (Hdown : forall current part rest children e,
             (forall e',
                 ensure_parts children rest = inl e'
                 <-> exists p, (exists pre post reached,
                                   rest = (pre ++ p :: post)%list
                                   /\ leads_to (Node (Folder children)) (pre ++ [p])%list
                                      = Some reached
                                   /\ is_folder reached = false)
                               /\ e' = not_a_directory p) ->
             (forall tail, leads_to (Node (Folder current)) (part :: tail)
                           = leads_to (Node (Folder children)) tail) ->
             match ensure_parts children rest with
             | inr children' => inr (Dict.set current part (Folder children'))
             | inl e' => inl e'
             end = inl e
             <-> exists p, (exists pre post reached,
                               part :: rest = (pre ++ p :: post)%list
                               /\ leads_to (Node (Folder current)) (pre ++ [p])%list
                                  = Some reached
                               /\ is_folder reached = false)
                           /\ e = not_a_directory p).
  { intros current part rest children e IH Hstep. split.
    - destruct (ensure_parts children rest) as [e'|children'] eqn:Hrest; [|discriminate].
      intros [= <-].
      destruct (proj1 (IH e') eq_refl) as (p & (pre & post & reached & Hparts & Hw & Hnf) & He).
      exists p. split; [|assumption].
      exists (part :: pre), post, reached. split; [now rewrite Hparts|].
      split; [|assumption]. change ((part :: pre) ++ [p])%list with (part :: (pre ++ [p]))%list.
      now rewrite Hstep.
    - intros (p & (pre & post & reached & Hparts & Hw & Hnf) & He).
      destruct pre as [|x pre]; simpl in Hparts; injection Hparts as <- Hrest.
      + change ([] ++ [part])%list with [part] in Hw. rewrite Hstep in Hw.
        simpl in Hw. injection Hw as <-. discriminate.
      + change ((part :: pre) ++ [p])%list with (part :: (pre ++ [p]))%list in Hw.
        rewrite Hstep in Hw.
        assert (Hfail : ensure_parts children rest = inl e).
        { apply IH. exists p. split; [|assumption]. exists pre, post, reached. auto. }
        now rewrite Hfail. }
  induction parts as [|part rest IH]; intros current e.
  - simpl. split; [discriminate|].
    intros (part & (pre & post & reached & Hparts & _) & _).
    now destruct pre.
  - simpl. destruct (child current part) as [[[children|content]|name]|] eqn:Hget.
    + apply Hdown; [intros e'; apply IH|]. intros tail. simpl. now rewrite Hget.
    + split.
      * intros [= <-]. exists part. split; [|reflexivity].
        exists [], rest, (Node (File content)). simpl. now rewrite Hget.
      * intros (p & (pre & post & reached & Hparts & Hw & Hnf) & He). f_equal.
        destruct pre as [|x pre]; simpl in Hparts; injection Hparts as <- Hrest.
        -- now subst e.
        -- simpl in Hw. rewrite Hget in Hw.
           rewrite leads_to_stops in Hw; [discriminate|reflexivity|now destruct pre].
    + split.
      * intros [= <-]. exists part. split; [|reflexivity].
        exists [], rest, (Member name). simpl. now rewrite Hget.
      * intros (p & (pre & post & reached & Hparts & Hw & Hnf) & He). f_equal.
        destruct pre as [|x pre]; simpl in Hparts; injection Hparts as <- Hrest.
        -- now subst e.
        -- simpl in Hw. rewrite Hget in Hw.
           rewrite leads_to_stops in Hw; [discriminate|reflexivity|now destruct pre].
    + apply Hdown; [intros e'; apply IH|]. intros tail. simpl. now rewrite Hget.
Qed.





(** X5. [ensureDirectoryExists] throws exactly when something is in the
    way: some leading segments of the path, with every missing directory
    among them taken as a new and empty one, lead to what is no folder, a
    file or a member that every object inherits; the error names the
    segment at which it stands. *)
Theorem ensureDirectoryExists_fails_iff (vfs : VirtualFileSystem) (path : string)
    (w : World) (e : exn) :
  fst (ensureDirectoryExists vfs path w) = inl e
  <-> exists part,
        in_the_way vfs (resolvePath path) part /\ e = not_a_directory part.
Proof. unfold ensureDirectoryExists, lift. simpl. apply ensure_parts_fails. Qed.

Lemma assign_after_ensure parts (filename content : string) :
  forall dirs children,
    walk (Node (Folder dirs)) parts = Some (Node (Folder children)) ->
    exists written, assign_file dirs parts filename content = inr written.
Proof.
  induction parts as [|part rest IH]; intros dirs children; simpl.
  - eauto.
  - destruct (child dirs part) as [[[sub|c]|name]|]; try discriminate.
    + intros Hw. destruct (IH _ _ Hw) as (written & ->). eauto.
    + intros Hw. now apply walk_not_folder in Hw.
    + intros Hw. now apply walk_not_folder in Hw.
Qed.

Lemma Forall_removelast {A} (P : A -> Prop) (l : list A) :
  Forall P l -> Forall P (removelast l).
Proof.
  induction l as [|x [|y l] IH]; intros H; simpl; auto.
  inversion H; subst. constructor; auto.
Qed.

Lemma pop_last_None (parts : list string) : pop_last parts = None -> parts = [].
Proof.
  unfold pop_last. induction parts as [|p [|q rest] IH]; simpl; auto; try discriminate.
  intros H. specialize (IH H). discriminate.
Qed.

Lemma pop_last_In (parts : list string) (x : string) :
  pop_last parts = Some x -> In x parts.
Proof.
  intros H. rewrite (pop_last_removelast _ _ H). apply in_or_app. right. now left.
Qed.

(** What [writeFileToVFS] comes to, once the path is known to name a file:
    the directory of the path is ensured and the file is set in it. *)
Lemma writeFileToVFS_unfold vfs path content filename :
  pop_last (resolvePath path) = Some filename ->
  writeFileToVFS vfs path content
  = (vfsWithDir <- lift (ensure_parts vfs (removelast (resolvePath path))) ;;
     vfsWithDir <- lift (assign_file vfsWithDir (removelast (resolvePath path))
                                     filename content) ;;
     logEvent (STATE_CHANGE VFS "WRITE_FILE"
                 (details_path path (Some (String.length content)))) ;;;
     ret vfsWithDir).
Proof.
  intros Hpop. unfold writeFileToVFS. rewrite Hpop.
  assert (Hseg : is_segment filename = true).
  { apply (proj1 (List.Forall_forall _ _) (resolvePath_segments path)).
    now apply pop_last_In. }
  destruct filename as [|c filename]; [discriminate|].
  unfold ensureDirectoryExists.
  rewrite resolve_join; [reflexivity|].
  apply Forall_removelast, resolvePath_segments.
Qed.

(** X6. [writeFileToVFS] throws in two cases only: the path has no
    segment, or [ensureDirectoryExists] throws on the directory of the path
    because something is in the way.  The descent through the directories,
    which casts every step to a folder, and the assignment of the file never
    fail after the directories were ensured. *)
Theorem writeFileToVFS_fails_iff (vfs : VirtualFileSystem) (path content : string)
    (w : World) (e : exn) :
  fst (writeFileToVFS vfs path content w) = inl e
  <-> (resolvePath path = [] /\ e = invalid_file_path path)
      \/ (exists part,
             in_the_way vfs (removelast (resolvePath path)) part
             /\ e = not_a_directory part).
Proof.
  destruct (pop_last (resolvePath path)) as [filename|] eqn:Hpop.
  - rewrite (writeFileToVFS_unfold _ _ _ _ Hpop). unfold bind, lift.
    assert (Hne : resolvePath path <> []).
    { intros Hnil. rewrite Hnil in Hpop. discriminate. }
    destruct (ensure_parts vfs (removelast (resolvePath path))) as [e'|dirs] eqn:Hensure.
    + simpl. split.
      * intros [= <-]. right. now apply ensure_parts_fails.
      * intros [[Hnil _]|Hway]; [contradiction|].
        apply ensure_parts_fails in Hway. rewrite Hensure in Hway.
        now injection Hway as ->.
    + destruct (ensure_parts_folder _ _ _ Hensure) as (children & Hdir).
      destruct (assign_after_ensure _ filename content _ _ Hdir) as (written & ->).
      simpl. split; [discriminate|].
      intros [[Hnil _]|Hway]; [contradiction|].
      apply ensure_parts_fails in Hway. rewrite Hensure in Hway. discriminate.
  - apply pop_last_None in Hpop as Hnil. unfold writeFileToVFS. rewrite Hpop. simpl.
    split.
    + intros [= <-]. left. auto.
    + intros [[_ ->]|(part & (pre & post & reached & Hparts & _) & _)]; [reflexivity|].
      rewrite Hnil in Hparts. now destruct pre.
Qed.




(** ** The commands of the terminal *)

Lemma string_app_assoc (a b c : string) : (a ++ b) ++ c = a ++ (b ++ c).
Proof. induction a as [|x a IH]; simpl; [reflexivity|now rewrite IH]. Qed.

Lemma string_app_nil_r (a : string) : a ++ "" = a.
Proof. induction a as [|x a IH]; simpl; [reflexivity|now rewrite IH]. Qed.

Lemma scan_word (word : string) :
  all_chars plain_char word = true ->
  forall rest current,
    scan (word ++ rest) None current = scan rest None (current ++ word).
Proof.
  induction word as [|c word IH]; intros Hall rest current; simpl.
  - now rewrite string_app_nil_r.
  - simpl in Hall. apply andb_true_iff in Hall as [Hc Hword].
    unfold plain_char in Hc. apply andb_true_iff in Hc as [Hs Hq].
    apply negb_true_iff in Hs, Hq. rewrite Hs, Hq.
    rewrite (IH Hword). unfold add_char. now rewrite string_app_assoc.
Qed.

Lemma flush_word (word : string) : is_word word = true -> flush word = [word].
Proof. destruct word; [discriminate|reflexivity]. Qed.

Lemma scan_words (words : list string) :
  Forall (fun word => is_word word = true) words ->
  scan (Js.join " " words) None EmptyString = words.
Proof.
  induction words as [|word [|next rest] IH]; intros Hall.
  - reflexivity.
  - inversion Hall as [|? ? Hword _]; subst. simpl Js.join.
    rewrite <- (string_app_nil_r word) at 1.
    unfold is_word in Hword. apply andb_true_iff in Hword as [Hne Hchars].
    rewrite (scan_word _ Hchars). simpl. destruct word; [discriminate|reflexivity].
  - inversion Hall as [|? ? Hword Hrest]; subst. specialize (IH Hrest).
    change (Js.join " " (word :: next :: rest))
      with (word ++ String " " (Js.join " " (next :: rest))).
    pose proof Hword as Hw. unfold is_word in Hw.
    apply andb_true_iff in Hw as [_ Hchars].
    remember (Js.join " " (next :: rest)) as tail eqn:Htail.
    rewrite (scan_word _ Hchars). simpl.
    rewrite (flush_word _ Hword), IH. reflexivity.
Qed.

(** X8. A command made of plain words, none empty and none with white
    space or a quote, separated by single spaces, is split into these
    words. *)
Theorem tokenize_words (words : list string) :
  Forall (fun word => is_word word = true) words ->
  tokenize (Js.join " " words) = words.
Proof. apply scan_words. Qed.

Lemma tokenize_words_witness :
  tokenize "write /notes/a.txt hello --parent=root"
  = ["write"; "/notes/a.txt"; "hello"; "--parent=root"].
Proof.
  apply (tokenize_words ["write"; "/notes/a.txt"; "hello"; "--parent=root"]).
  repeat constructor.
Defined.

(** X9. The commands [ls], [cat] and [python] only read: whatever their
    arguments and whether they return or throw, the world is as before, and
    a result carries no file system, no graph and no handled path. *)
Theorem reading_commands_change_nothing (ext : Externals) (modelName command verb : string)
    (vfs : VirtualFileSystem) (mindMap : MindMapData) (w : World) :
  hd_error (tokenize command) = Some verb ->
  In verb ["ls"; "cat"; "python"] ->
  snd (run_terminal_command ext modelName command vfs mindMap w) = w
  /\ match fst (run_terminal_command ext modelName command vfs mindMap w) with
     | inr r => t_newVFS r = None /\ t_newMindMap r = None
                /\ t_filePathHandled r = None
     | inl _ => True
     end.
Proof.
  intros Hcmd Hverb. unfold run_terminal_command. rewrite Hcmd.
  destruct Hverb as [<-|[<-|[<-|[]]]]; simpl.
  - destruct (getNodeFromPath vfs _) as [[[children|content]|name]|]; simpl; auto.
  - destruct (List.filter _ (tl _)) as [|path rest]; simpl; auto.
    destruct (getNodeFromPath vfs path) as [[[children|content]|name]|]; simpl; auto.
  - destruct (List.filter _ (tl _)) as [|path rest]; simpl; auto.
    destruct (getNodeFromPath vfs path) as [[[children|content]|name]|]; simpl; auto.
    destruct (syntax_check content); simpl; auto.
Qed.

Lemma reading_commands_change_nothing_witness :
  snd (run_terminal_command (canned "ok") "m" "cat /a.txt" [("a.txt", File "hi")]
         root_graph w0) = w0
  /\ match fst (run_terminal_command (canned "ok") "m" "cat /a.txt"
                  [("a.txt", File "hi")] root_graph w0) with
     | inr r => t_newVFS r = None /\ t_newMindMap r = None
                /\ t_filePathHandled r = None
     | inl _ => True
     end.
Proof.
  apply (reading_commands_change_nothing (canned "ok") "m" "cat /a.txt" "cat"
           [("a.txt", File "hi")] root_graph w0 eq_refl).
  simpl. auto.
Defined.

Lemma run_cat ext modelName command vfs mindMap path rest :
  hd_error (tokenize command) = Some "cat" ->
  non_flags (tokenize command) = path :: rest ->
  run_terminal_command ext modelName command vfs mindMap
  = match getNodeFromPath vfs path with
    | Some (Node (File content)) => ret (mkTerminalResult content None None None)
    | _ => throw_Error ("cat: " ++ path ++ ": No such file or not a file")
    end.
Proof.
  intros Hcmd Hargs. unfold run_terminal_command, non_flags in *.
  rewrite Hcmd, Hargs. reflexivity.
Qed.


Lemma run_touch ext modelName command vfs mindMap filepath rest :
  hd_error (tokenize command) = Some "touch" ->
  non_flags (tokenize command) = filepath :: rest ->
  run_terminal_command ext modelName command vfs mindMap
  = (newVFS <- writeFileToVFS vfs filepath EmptyString ;;
     ret (mkTerminalResult EmptyString (Some newVFS) None (Some filepath))).
Proof.
  intros Hcmd Hargs. unfold run_terminal_command, non_flags in *.
  rewrite Hcmd, Hargs. reflexivity.
Qed.

(** A [write] command that returned has written its file. *)
Lemma run_write_wrote ext modelName command vfs mindMap filepath c cs r w w' :
  hd_error (tokenize command) = Some "write" ->
  non_flags (tokenize command) = filepath :: c :: cs ->
  run_terminal_command ext modelName command vfs mindMap w = (inr r, w') ->
  exists newVFS w1,
    writeFileToVFS vfs filepath (strip_quotes (Js.join " " (c :: cs))) w
    = (inr newVFS, w1)
    /\ t_newVFS r = Some newVFS /\ t_filePathHandled r = Some filepath.
Proof.
  intros Hcmd Hargs Hrun. unfold run_terminal_command, non_flags in *.
  rewrite Hcmd, Hargs in Hrun.
  cbn [String.eqb Ascii.eqb Bool.eqb] in Hrun.
  unfold bind in Hrun. cbv beta in Hrun.
  destruct (writeFileToVFS vfs filepath _ w) as [[e|newVFS] w1];
    [discriminate Hrun|].
  exists newVFS, w1. split; [reflexivity|].
  destruct (Js.truthy _ && existsb _ _); simpl in Hrun; injection Hrun as <- _; auto.
Qed.

(** X10. What [write] wrote [cat] reads: after a [write] command
    returned, a [cat] command on the same path, run on the file system that
    [write] returned, returns the written content. *)
Theorem cat_reads_what_write_wrote (ext : Externals) (modelName modelName' : string)
    (write_command cat_command filepath c : string) (cs rest : list string)
    (vfs : VirtualFileSystem) (mindMap mindMap' : MindMapData)
    (r : TerminalResult) (w w' w2 : World) :
  hd_error (tokenize write_command) = Some "write" ->
  non_flags (tokenize write_command) = filepath :: c :: cs ->
  run_terminal_command ext modelName write_command vfs mindMap w = (inr r, w') ->
  hd_error (tokenize cat_command) = Some "cat" ->
  non_flags (tokenize cat_command) = filepath :: rest ->
  exists newVFS,
    t_newVFS r = Some newVFS
    /\ run_terminal_command ext modelName' cat_command newVFS mindMap' w2
       = (inr (mkTerminalResult (strip_quotes (Js.join " " (c :: cs))) None None None),
          w2).
Proof.
  intros Hwrite Hargs Hrun Hcat Hpath.
  destruct (run_write_wrote _ _ _ _ _ _ _ _ _ _ _ Hwrite Hargs Hrun)
    as (newVFS & w1 & Hwrote & Hvfs & _).
  exists newVFS. split; [exact Hvfs|].
  rewrite (run_cat _ _ _ _ _ _ _ Hcat Hpath).
  now rewrite (writeFileToVFS_lookup _ _ _ _ _ _ Hwrote).
Qed.

Lemma cat_reads_what_write_wrote_witness :
  run_terminal_command (canned "ok") "m" "cat /notes/a.txt"
    [("notes", Folder [("a.txt", File "hello world")])] root_graph w0
  = (inr (mkTerminalResult "hello world" None None None), w0).
Proof.
  destruct (cat_reads_what_write_wrote (canned "ok") "m" "m"
              ("write /notes/a.txt " ++ Js.quoted "hello world") "cat /notes/a.txt"
              "/notes/a.txt" (Js.quoted "hello world") [] [] [] root_graph root_graph
              _ w0 _ w0 eq_refl eq_refl eq_refl eq_refl eq_refl)
    as (newVFS & Hvfs & Hcat).
  simpl in Hvfs. injection Hvfs as <-. exact Hcat.
Defined.

(** X11. [touch] leaves an empty file: when it returns, the path names a
    file without content in the new file system, whatever it named before,
    and the write of a file of length zero has been logged. *)
Theorem touch_leaves_an_empty_file (ext : Externals) (modelName command filepath : string)
    (rest : list string) (vfs : VirtualFileSystem) (mindMap : MindMapData)
    (r : TerminalResult) (w w' : World) :
  hd_error (tokenize command) = Some "touch" ->
  non_flags (tokenize command) = filepath :: rest ->
  run_terminal_command ext modelName command vfs mindMap w = (inr r, w') ->
  exists newVFS,
    r = mkTerminalResult EmptyString (Some newVFS) None (Some filepath)
    /\ getNodeFromPath newVFS filepath = Some (Node (File EmptyString))
    /\ auditLog w' = (auditLog w ++ [WRITE_FILE_event (clock w) filepath EmptyString])%list.
Proof.
  intros Hcmd Hargs. rewrite (run_touch _ _ _ _ _ _ _ Hcmd Hargs). unfold bind.
  destruct (writeFileToVFS vfs filepath EmptyString w) as [[e|newVFS] w1] eqn:Hwrite;
    [discriminate|].
  simpl. intros [= <- <-]. exists newVFS. split; [reflexivity|]. split.
  - exact (writeFileToVFS_lookup _ _ _ _ _ _ Hwrite).
  - now rewrite (writeFileToVFS_returns _ _ _ _ _ _ Hwrite).
Qed.

Lemma touch_leaves_an_empty_file_witness :
  exists newVFS,
    getNodeFromPath newVFS "/a.txt" = Some (Node (File EmptyString))
    /\ fst (run_terminal_command (canned "ok") "m" "touch /a.txt"
              [("a.txt", File "old content")] root_graph w0)
       = inr (mkTerminalResult EmptyString (Some newVFS) None (Some "/a.txt")).
Proof.
  destruct (touch_leaves_an_empty_file (canned "ok") "m" "touch /a.txt" "/a.txt" []
              [("a.txt", File "old content")] root_graph _ w0 _ eq_refl eq_refl eq_refl)
    as (newVFS & Hr & Hfile & _).
  exists newVFS. split; [exact Hfile|]. simpl. now rewrite <- Hr.
Defined.





(** X13. A [write] command whose [--parent] flag names a node of the
    graph: when the file is written, the result carries the new file system
    and the graph with one more node and one more link, the node of category
    [FILE_REFERENCE] with the path as its linked file, the link
    [HIERARCHICAL] from the parent, and the audit log has received the
    [WRITE_FILE] event and then the [CREATE_FILE_REFERENCE_NODE] event; when
    the write throws, the command throws the same and the world is as
    before. *)
Theorem write_with_known_parent (ext : Externals) (modelName command : string)
    (vfs : VirtualFileSystem) (mindMap : MindMapData)
    (filepath c id : string) (cs : list string) (w : World) :
  hd_error (tokenize command) = Some "write" ->
  non_flags (tokenize command) = filepath :: c :: cs ->
  parent_flag (List.filter is_flag (tokenize command)) = Some id ->
  id <> EmptyString ->
  node_exists mindMap (Some id) ->
  let content := strip_quotes (Js.join " " (c :: cs)) in
  let t := clock w in
  match writeFileToVFS vfs filepath content w with
  | (inr newVFS, _) =>
      run_terminal_command ext modelName command vfs mindMap w
      = (inr (mkTerminalResult
                (wrote_with_reference filepath content) (Some newVFS)
                (Some (mkMindMap
                         (nodes mindMap ++ [file_reference ext t filepath])%list
                         (links mindMap ++ [file_reference_link ext t filepath id])%list))
                (Some filepath)),
         mkWorld t
                 (auditLog w ++ [WRITE_FILE_event t filepath content;
                                 FILE_REFERENCE_event ext t filepath id])%list
                 (apiQueue w))
  | (inl e, _) =>
      run_terminal_command ext modelName command vfs mindMap w = (inl e, w)
  end.
Proof.
  intros Hcmd Hargs Hflag Hid Hnode content t.
  apply existsb_id_is in Hnode.
  unfold run_terminal_command, non_flags in *.
  rewrite Hcmd, Hargs, Hflag, Hnode.
  assert (Htruthy : Js.truthy (Some id) = true) by (now destruct id).
  rewrite Htruthy. cbn [String.eqb Ascii.eqb Bool.eqb andb]. fold content.
  unfold bind, ret, Date_now, logEvent. cbv beta.
  destruct (writeFileToVFS vfs filepath content w) as [[e|newVFS] w1] eqn:Hwrite;
    cbv beta iota.
  - now rewrite (writeFileToVFS_throws _ _ _ _ _ _ Hwrite).
  - rewrite (writeFileToVFS_returns _ _ _ _ _ _ Hwrite).
    cbn [clock auditLog apiQueue]. rewrite <- app_assoc. reflexivity.
Qed.

Lemma write_with_known_parent_witness :
  map ev_payload
      (auditLog (snd (run_terminal_command (canned "ok") "m"
                        "write /notes/a.txt hello --parent=root" [] root_graph w0)))
  = map ev_payload [WRITE_FILE_event 1000 "/notes/a.txt" "hello";
                    FILE_REFERENCE_event (canned "ok") 1000 "/notes/a.txt" "root"].
Proof.
  rewrite (write_with_known_parent (canned "ok") "m"
             "write /notes/a.txt hello --parent=root" [] root_graph
             "/notes/a.txt" "hello" "root" [] w0 eq_refl eq_refl eq_refl).
  - reflexivity.
  - discriminate.
  - exists root_node. split; [now left|reflexivity].
Defined.

(** ** Ids on the command line *)

Lemma all_chars_app p a b :
  all_chars p (a ++ b) = all_chars p a && all_chars p b.
Proof. induction a as [|c a IH]; simpl; [reflexivity|]. now rewrite IH, andb_assoc. Qed.

Lemma all_chars_impl (p q : ascii -> bool) s :
  (forall c, p c = true -> q c = true) -> all_chars p s = true -> all_chars q s = true.
Proof.
  intros H. induction s as [|c s IH]; simpl; [reflexivity|].
  intros Hs. apply andb_true_iff in Hs as [Hc Hs]. now rewrite (H c Hc), IH.
Qed.

Lemma map_chars_cons f c s :
  Js.map_chars f (String c s) = String (f c) (Js.map_chars f s).
Proof. reflexivity. Qed.

Lemma all_chars_sanitize s : all_chars is_id_char (Js.sanitize s) = true.
Proof.
  unfold Js.sanitize. induction s as [|c s IH]; [reflexivity|].
  rewrite map_chars_cons. simpl all_chars. rewrite IH, andb_true_r.
  unfold is_id_char. destruct (Js.is_alnum c) eqn:Hc; [now rewrite Hc|reflexivity].
Qed.

Lemma all_chars_substring p s : forall n,
  all_chars p s = true -> all_chars p (String.substring 0 n s) = true.
Proof.
  induction s as [|c s IH]; intros [|n]; simpl; auto.
  intros H. apply andb_true_iff in H as [Hc Hs]. now rewrite Hc, IH.
Qed.

Lemma length_substring s : forall n, String.length (String.substring 0 n s) <= n.
Proof.
  induction s as [|c s IH]; intros [|n]; simpl; try lia.
  specialize (IH n). lia.
Qed.

Lemma all_chars_digits (d : Decimal.uint) :
  all_chars is_id_char (NilEmpty.string_of_uint d) = true.
Proof. induction d; simpl; auto. Qed.

Lemma all_chars_of_N (t : N) : all_chars is_id_char (Js.of_N t) = true.
Proof. rewrite of_N_digits. apply all_chars_digits. Qed.

Lemma string_length_app (a b : string) :
  String.length (a ++ b) = String.length a + String.length b.
Proof. induction a as [|c a IH]; simpl; [reflexivity|now rewrite IH]. Qed.

Lemma new_node_id_chars name t : all_chars is_id_char (new_node_id name t) = true.
Proof.
  unfold new_node_id, Js.substring0. rewrite !all_chars_app.
  rewrite all_chars_substring by apply all_chars_sanitize.
  now rewrite all_chars_of_N.
Qed.

Lemma file_node_id_chars filename t : all_chars is_id_char (file_node_id filename t) = true.
Proof.
  unfold file_node_id. rewrite !all_chars_app.
  now rewrite all_chars_sanitize, all_chars_of_N.
Qed.

Lemma id_char_plain c : is_id_char c = true -> plain_char c = true.
Proof.
  unfold is_id_char, plain_char, Js.is_alnum, Js.is_space, is_quote.
  destruct c as [[] [] [] [] [] [] [] []]; vm_compute; auto.
Qed.

Lemma id_char_no_equals s : all_chars is_id_char s = true -> has_char "=" s = false.
Proof.
  induction s as [|c s IH]; cbn [has_char all_chars]; [reflexivity|].
  intros H. apply andb_true_iff in H as [Hc Hs]. rewrite (IH Hs), orb_false_r.
  destruct (Ascii.eqb "=" c) eqn:Heq; [|reflexivity].
  apply Ascii.eqb_eq in Heq. subst c. discriminate Hc.
Qed.

Lemma find_filter {A} (p q : A -> bool) (l : list A) :
  find p l = None -> find p (List.filter q l) = None.
Proof.
  induction l as [|x l IH]; simpl; [reflexivity|].
  destruct (p x) eqn:Hp; [discriminate|]. intros H.
  destruct (q x); simpl; [rewrite Hp|]; auto.
Qed.

Lemma find_app_None {A} (p : A -> bool) (l l' : list A) :
  find p l = None -> find p (l ++ l') = find p l'.
Proof.
  induction l as [|x l IH]; simpl; [reflexivity|].
  destruct (p x); [discriminate|]. exact IH.
Qed.

Lemma parent_flag_app (flags flags' : list string) :
  find (Js.startsWith "--parent=") flags = None ->
  parent_flag (flags ++ flags') = parent_flag flags'.
Proof. intros H. unfold parent_flag. now rewrite find_app_None. Qed.

Lemma parent_flag_single (id : string) :
  has_char "=" id = false -> parent_flag ["--parent=" ++ id] = Some id.
Proof.
  intros Hid. unfold parent_flag.
  assert (Hstart : Js.startsWith "--parent=" ("--parent=" ++ id) = true).
  { unfold Js.startsWith. simpl. now destruct id. }
  cbn [find]. rewrite Hstart.
  change ("--parent=" ++ id) with ("--parent" ++ String "=" id).
  now rewrite split_app, (split_no_sep _ id).
Qed.

(** X15. The ids that [upsert_mind_map_node] and the [write] command make
    consist of letters, digits and underscores, so they can be handed back
    on a command line: in a command of plain words that ends with
    [--parent=<id>], the flag is read as exactly that id. *)
Theorem created_ids_pass_as_parent_flags (name filename : string) (t : N)
    (words : list string) (id : string) :
  id = new_node_id name t \/ id = file_node_id filename t ->
  Forall (fun word => is_word word = true) words ->
  find (Js.startsWith "--parent=") words = None ->
  all_chars is_id_char id = true
  /\ parent_flag (List.filter is_flag
                    (tokenize (Js.join " " (words ++ ["--parent=" ++ id]))))
     = Some id.
Proof.
  intros Hid Hwords Hnone.
  assert (Hchars : all_chars is_id_char id = true).
  { destruct Hid as [->| ->]; [apply new_node_id_chars|apply file_node_id_chars]. }
  split; [exact Hchars|].
  assert (Hflag : is_word ("--parent=" ++ id) = true).
  { unfold is_word. simpl. apply (all_chars_impl is_id_char); [|assumption].
    apply id_char_plain. }
  unfold tokenize. rewrite scan_words.
  2:{ apply Forall_app. split; [assumption|]. now constructor. }
  rewrite List.filter_app, parent_flag_app by (now apply find_filter).
  change (List.filter is_flag ["--parent=" ++ id]) with ["--parent=" ++ id].
  apply parent_flag_single. now apply id_char_no_equals.
Qed.

Lemma created_ids_pass_as_parent_flags_witness :
  parent_flag (List.filter is_flag
                 (tokenize "write /notes/b.txt hello --parent=Sleep___dreams_1000"))
  = Some "Sleep___dreams_1000".
Proof.
  apply (created_ids_pass_as_parent_flags "Sleep & dreams" "" 1000
           ["write"; "/notes/b.txt"; "hello"] "Sleep___dreams_1000").
  - now left.
  - repeat constructor.
  - reflexivity.
Defined.

(** ** The shape and the links of the graph *)

Lemma has_node_iff (ns : list MindMapNode) (s : string) :
  existsb (id_is (Some s)) ns = true <-> In s (map n_id ns).
Proof.
  rewrite existsb_exists, in_map_iff. split.
  - intros (n & Hin & Hid). simpl in Hid. apply String.eqb_eq in Hid. eauto.
  - intros (n & Hid & Hin). exists n. split; [assumption|].
    simpl. now apply String.eqb_eq.
Qed.

Lemma well_linked_iff (g : MindMapData) :
  well_linked g = true
  <-> forall l, In l (links g) ->
                In (l_source l) (map n_id (nodes g))
                /\ In (l_target l) (map n_id (nodes g)).
Proof.
  unfold well_linked. rewrite forallb_forall. split.
  - intros H l Hin. specialize (H l Hin). apply andb_true_iff in H.
    now rewrite !has_node_iff in H.
  - intros H l Hin. apply andb_true_iff. rewrite !has_node_iff. auto.
Qed.

Lemma map_update_first {A B} (g : A -> B) (p : A -> bool) (f : A -> A) (l : list A) :
  (forall x, find p l = Some x -> g (f x) = g x) ->
  map g (update_first p f l) = map g l.
Proof.
  induction l as [|x l IH]; simpl; intros H; [reflexivity|].
  destruct (p x) eqn:Hp; simpl; [now rewrite H|now rewrite IH].
Qed.

Lemma In_update_first {A} (p : A -> bool) (f : A -> A) (l : list A) (y : A) :
  In y (update_first p f l) ->
  In y l \/ exists x, In x l /\ p x = true /\ y = f x.
Proof.
  induction l as [|x l IH]; simpl; [tauto|].
  destruct (p x) eqn:Hp; simpl.
  - intros [<-|Hin]; [right; exists x; auto|auto].
  - intros [<-|Hin]; [auto|].
    destruct (IH Hin) as [H|(x' & Hx' & Hp' & ->)]; [auto|].
    right. exists x'. auto.
Qed.

Lemma update_first_In {A} (p : A -> bool) (f : A -> A) (l : list A) (x : A) :
  find p l = Some x -> In (f x) (update_first p f l).
Proof.
  induction l as [|y l IH]; simpl; [discriminate|].
  destruct (p y); [intros [= ->]; now left|].
  intros H. right. now apply IH.
Qed.

Lemma find_update_first {A} (p : A -> bool) (f : A -> A) (l : list A) :
  (forall x, p x = true -> p (f x) = true) ->
  find p (update_first p f l) = option_map f (find p l).
Proof.
  intros H. induction l as [|x l IH]; simpl; [reflexivity|].
  destruct (p x) eqn:Hp; simpl.
  - now rewrite (H x Hp).
  - now rewrite Hp.
Qed.

Lemma id_is_true (v : option string) (n : MindMapNode) :
  id_is v n = true -> v = Some (n_id n).
Proof.
  destruct v as [s|]; simpl; [|discriminate].
  intros H. apply String.eqb_eq in H. now subst.
Qed.

Lemma set_source_shape (s : string) (l : MindMapLink) :
  link_shape (set_source s l) = link_shape l.
Proof. reflexivity. Qed.

(** X19. [create_mind_map_link] keeps the links sound: from a graph whose
    links all start and end at nodes it returns such a graph, whether it
    adds the link or refuses. *)
Theorem create_mind_map_link_keeps_links_sound (args : option Args)
    (mindMap newMindMapData : MindMapData) (result : string) (w w' : World) :
  create_mind_map_link args mindMap w = (inr (newMindMapData, result), w') ->
  well_linked mindMap = true ->
  well_linked newMindMapData = true.
Proof.
  unfold create_mind_map_link, destructure, bind, ret, logEvent.
  destruct args as [args|]; [|discriminate]. cbv beta iota zeta.
  destruct (existsb (id_is (Dict.get args "source_node_id")) (nodes mindMap)) eqn:Hs;
    destruct (existsb (id_is (Dict.get args "target_node_id")) (nodes mindMap)) eqn:Ht;
    simpl; intros [= <- _ _]; auto.
  intros Hold. apply well_linked_iff. rewrite well_linked_iff in Hold.
  simpl. unfold list_push. intros l Hin. apply in_app_or in Hin as [Hin|[<-|[]]].
  - auto.
  - simpl.
    apply existsb_id_is in Hs as (n1 & Hn1 & <-).
    apply existsb_id_is in Ht as (n2 & Hn2 & <-).
    simpl. split; now apply in_map.
Qed.

Lemma create_mind_map_link_keeps_links_sound_witness :
  well_linked (mkMindMap [root_node]
                         [mkLink "root" "root" RELATED (7 # 10) None]) = true.
Proof.
  apply (create_mind_map_link_keeps_links_sound
           (Some [("source_node_id", "root"); ("target_node_id", "root");
                  ("link_type", "RELATED")]) root_graph _ _ w0 _ eq_refl).
  reflexivity.
Defined.

Lemma truthy_Some (s : string) : s <> EmptyString -> Js.truthy (Some s) = true.
Proof. now destruct s. Qed.

Lemma truthy_true (v : option string) :
  Js.truthy v = true -> exists s, v = Some s /\ s <> EmptyString.
Proof.
  destruct v as [[|c s]|]; try discriminate.
  intros _. eexists. split; [reflexivity|discriminate].
Qed.

Lemma find_id_is (v : option string) (ns : list MindMapNode) :
  (exists n, find (id_is v) ns = Some n) <-> existsb (id_is v) ns = true.
Proof.
  induction ns as [|n ns IH]; simpl.
  - split; [intros [? [=]]|discriminate].
  - destruct (id_is v n); simpl; [split; eauto|exact IH].
Qed.

(** X16. An update by [upsert_mind_map_node], a call with a [node_id],
    returns a graph with the same nodes in the same order, each with its id,
    source, creation time and linked file, and the same links up to their
    sources.  When the id names a node, the first node with that id gets the
    given name and content, keeping the old ones where none is given, and
    the time of the call as its update time, and one event is logged; when
    it names none, the input graph is returned with the not-found message
    and the world is as before. *)
Theorem upsert_update_keeps_the_shape (ext : Externals) (args : Args)
    (mindMap : MindMapData) (id : string) (w : World) :
  Dict.get args "node_id" = Some id ->
  id <> EmptyString ->
  exists (g : MindMapData) (message : string) (w' : World),
    upsert_mind_map_node ext (Some args) mindMap w = (inr (g, message), w')
    /\ map node_origin (nodes g) = map node_origin (nodes mindMap)
    /\ map link_shape (links g) = map link_shape (links mindMap)
    /\ match find (id_is (Some id)) (nodes mindMap) with
       | Some old =>
           exists new ev,
             find (id_is (Some id)) (nodes g) = Some new
             /\ n_name new = match Dict.get args "name" with
                             | Some name => Some name
                             | None => n_name old
                             end
             /\ n_content new = match Dict.get args "content" with
                                | Some content => Some content
                                | None => n_content old
                                end
             /\ n_updatedAt new = toISOString ext (clock w)
             /\ auditLog w' = (auditLog w ++ [ev])%list
       | None => g = mindMap /\ message = update_error id /\ w' = w
       end.
Proof.
  intros Hid Hne.
  unfold upsert_mind_map_node, destructure, bind, ret, Date_now, logEvent.
  cbv beta iota zeta. rewrite Hid, (truthy_Some _ Hne).
  destruct (find (id_is (Some id)) (nodes mindMap)) as [old|] eqn:Hfind.
  - eexists _, _, _. split; [reflexivity|]. cbn [nodes links fst snd].
    apply find_some in Hfind as Hold. destruct Hold as [_ Hold].
    apply id_is_true in Hold. injection Hold as Hold.
    split; [|split].
    + apply map_update_first. intros x Hx. rewrite Hfind in Hx.
      now injection Hx as <-.
    + destruct (Js.truthy (Dict.get args "parent_node_id")); [|reflexivity].
      apply map_update_first. intros x _. apply set_source_shape.
    + eexists _, _. split; [|split; [|split; [|split]]].
      * rewrite find_update_first; [now rewrite Hfind|].
        intros x _. simpl. rewrite Hold. apply String.eqb_refl.
      * simpl. now destruct (Dict.get args "name").
      * simpl. now destruct (Dict.get args "content").
      * reflexivity.
      * reflexivity.
  - exists mindMap, (update_error id), w. repeat split; reflexivity.
Qed.

Lemma upsert_update_keeps_the_shape_witness :
  exists g message w',
    upsert_mind_map_node (canned "ok")
      (Some [("node_id", "root"); ("content", "revised")]) root_graph w0
    = (inr (g, message), w')
    /\ map n_id (nodes g) = ["root"]
    /\ map n_content (nodes g) = [Some "revised"].
Proof.
  destruct (upsert_update_keeps_the_shape (canned "ok")
              [("node_id", "root"); ("content", "revised")] root_graph "root" w0
              eq_refl)
    as (g & message & w' & Hrun & _); [discriminate|].
  exists g, message, w'. split; [exact Hrun|].
  injection Hrun as <- _ _. split; reflexivity.
Defined.

(** X17. An update with a [parent_node_id] moves the first hierarchical
    link into the node under that id without checking that it is the id of a
    node: the link then starts at the given id, and the links of the
    returned graph all start and end at nodes only if the given id is the id
    of a node. *)
Theorem upsert_update_takes_any_parent (ext : Externals) (args : Args)
    (mindMap g : MindMapData) (id parent message : string) (old : MindMapNode)
    (l : MindMapLink) (w w' : World) :
  Dict.get args "node_id" = Some id ->
  id <> EmptyString ->
  Dict.get args "parent_node_id" = Some parent ->
  parent <> EmptyString ->
  find (id_is (Some id)) (nodes mindMap) = Some old ->
  find (is_parent_link_of (Some id)) (links mindMap) = Some l ->
  upsert_mind_map_node ext (Some args) mindMap w = (inr (g, message), w') ->
  find (is_parent_link_of (Some id)) (links g) = Some (set_source parent l)
  /\ (well_linked g = true -> node_exists mindMap (Some parent)).
Proof.
  intros Hid Hne Hparent Hpne Hold Hlink.
  unfold upsert_mind_map_node, destructure, bind, ret, Date_now, logEvent.
  cbv beta iota zeta.
  rewrite Hid, Hparent, (truthy_Some _ Hne), (truthy_Some _ Hpne), Hold.
  intros [= <- _ _]. cbn [nodes links]. split.
  - rewrite find_update_first; [now rewrite Hlink|]. now intros x Hx.
  - intros Hsound. rewrite well_linked_iff in Hsound. cbn [nodes links] in Hsound.
    destruct (Hsound (set_source parent l)) as [Hsource _].
    + now apply update_first_In.
    + simpl in Hsource. apply in_map_iff in Hsource as (n & Hn & Hin).
      apply In_update_first in Hin as [Hin|(x & Hx & Hp & ->)].
      * exists n. split; [assumption|now rewrite Hn].
      * simpl in Hn. apply id_is_true in Hp. injection Hp as Hp.
        apply find_some in Hold as [Hin _].
        exists old. split; [assumption|now rewrite Hn].
Qed.

Lemma upsert_update_takes_any_parent_witness :
  match fst (upsert_mind_map_node (canned "ok")
               (Some [("node_id", "B"); ("parent_node_id", "ghost")])
               parent_and_child w0) with
  | inr (g, _) => find (is_parent_link_of (Some "B")) (links g)
  | inl _ => None
  end = Some (edge "ghost" "B" HIERARCHICAL).
Proof.
  destruct (upsert_mind_map_node (canned "ok")
              (Some [("node_id", "B"); ("parent_node_id", "ghost")])
              parent_and_child w0) as [[e|[g message]] w'] eqn:Hrun;
    [discriminate Hrun|].
  exact (proj1 (upsert_update_takes_any_parent (canned "ok")
                  [("node_id", "B"); ("parent_node_id", "ghost")]
                  parent_and_child g "B" "ghost" message (concept "B")
                  (edge "A" "B" HIERARCHICAL) w0 w'
                  eq_refl ltac:(discriminate) eq_refl ltac:(discriminate)
                  eq_refl eq_refl Hrun)).
Defined.

(** X18. [upsert_mind_map_node] keeps the links sound: from a graph whose
    links all start and end at nodes it returns such a graph, provided that
    an update which names a parent names a node; a creation checks its
    parent itself. *)
Theorem upsert_keeps_links_sound (ext : Externals) (args : Args)
    (mindMap g : MindMapData) (message : string) (w w' : World) :
  upsert_mind_map_node ext (Some args) mindMap w = (inr (g, message), w') ->
  well_linked mindMap = true ->
  (Js.truthy (Dict.get args "node_id") = true ->
   Js.truthy (Dict.get args "parent_node_id") = true ->
   node_exists mindMap (Dict.get args "parent_node_id")) ->
  well_linked g = true.
Proof.
  unfold upsert_mind_map_node, destructure, bind, ret, Date_now, logEvent.
  cbv beta iota zeta. intros Hrun Hsound Hparent.
  rewrite well_linked_iff in Hsound. apply well_linked_iff.
  destruct (Js.truthy (Dict.get args "node_id")) eqn:Hid.
  - destruct (find (id_is (Dict.get args "node_id")) (nodes mindMap)) as [old|] eqn:Hold.
    + injection Hrun as <- _ _. cbn [nodes links].
      rewrite (map_update_first n_id).
      2:{ intros x Hx. rewrite Hold in Hx. now injection Hx as <-. }
      destruct (Js.truthy (Dict.get args "parent_node_id")) eqn:Hp; [|exact Hsound].
      specialize (Hparent eq_refl eq_refl).
      apply truthy_true in Hp as (parent & Hget & _). rewrite Hget in *.
      intros l Hin. apply In_update_first in Hin as [Hin|(x & Hx & _ & ->)]; [auto|].
      simpl. split; [|now apply Hsound].
      destruct Hparent as (n & Hn & [= <-]). now apply in_map.
    + injection Hrun as <- _ _. exact Hsound.
  - destruct (negb (Js.truthy (Dict.get args "parent_node_id"))
              || negb (existsb (id_is (Dict.get args "parent_node_id")) (nodes mindMap)))
      eqn:Hguard.
    + injection Hrun as <- _ _. exact Hsound.
    + apply orb_false_iff in Hguard as [_ Hex]. apply negb_false_iff in Hex.
      apply existsb_id_is in Hex as (n & Hn & Hparent_id).
      destruct (Dict.get args "name") as [name|]; [|discriminate Hrun].
      injection Hrun as <- _ _. cbn [nodes links]. unfold list_push.
      rewrite map_app. intros l Hin.
      apply in_app_or in Hin as [Hin|[<-|[]]].
      * destruct (Hsound l Hin). split; apply in_or_app; auto.
      * simpl. rewrite <- Hparent_id. simpl. split; apply in_or_app.
        -- left. now apply in_map.
        -- right. now left.
Qed.

Lemma upsert_keeps_links_sound_witness :
  match fst (upsert_mind_map_node (canned "ok")
               (Some [("node_id", "B"); ("parent_node_id", "root")])
               parent_and_child w0) with
  | inr (g, _) => well_linked g
  | inl _ => false
  end = true.
Proof.
  destruct (upsert_mind_map_node (canned "ok")
              (Some [("node_id", "B"); ("parent_node_id", "root")])
              parent_and_child w0) as [[e|[g message]] w'] eqn:Hrun;
    [discriminate Hrun|].
  apply (upsert_keeps_links_sound (canned "ok")
           [("node_id", "B"); ("parent_node_id", "root")]
           parent_and_child g message w0 w' Hrun eq_refl).
  intros _ _. exists root_node. split; [now left|reflexivity].
Defined.

Lemma kept_node_id (ids : list string) (ns : list MindMapNode) (s : string) :
  In s (map n_id ns) ->
  includes ids s = false ->
  In s (map n_id (List.filter (fun n => negb (includes ids (n_id n))) ns)).
Proof.
  intros Hin Hs. apply in_map_iff in Hin as (n & <- & Hin).
  apply in_map, filter_In. split; [assumption|]. now rewrite Hs.
Qed.

(** X20. An operation of a refinement plan keeps the links sound,
    provided that a merge whose nodes have no inbound link finds a node with
    the id [Persona Core], under which it then hangs the merged node. *)
Theorem refine_op_keeps_links_sound (now : string) (op : RefineOp)
    (g g' : MindMapData) (summary summary' : list string) (w w' : World) :
  refine_op now op (g, summary) w = (inr (g', summary'), w') ->
  well_linked g = true ->
  (forall ids,
      operation op = "MERGE_NODES" ->
      nodes_to_merge op = Some ids ->
      find (fun l => includes ids (l_target l)) (links g) = None ->
      node_exists g (Some merge_root_sentinel)) ->
  well_linked g' = true.
Proof.
  intros Hrun Hsound Hroot. rewrite well_linked_iff in Hsound. apply well_linked_iff.
  unfold refine_op in Hrun.
  destruct (String.eqb (operation op) "UPDATE_NODE_CONTENT").
  { destruct (find (id_is (node_id_to_update op)) (nodes g)) as [node|] eqn:Hnode.
    - unfold bind, ret, logEvent in Hrun. injection Hrun as <- _ _. cbn [nodes links].
      rewrite (map_update_first n_id); [exact Hsound|]. now intros x _.
    - injection Hrun as <- _ _. exact Hsound. }
  destruct (String.eqb_spec (operation op) "MERGE_NODES") as [Hop|_].
  { destruct (nodes_to_merge op) as [ids|] eqn:Hids; [|discriminate Hrun].
    destruct (length ids <? 2)%nat.
    - injection Hrun as <- _ _. exact Hsound.
    - unfold bind at 1 in Hrun. rewrite merge_nodes_returns in Hrun.
      unfold bind, ret, logEvent in Hrun. cbn [fst snd] in Hrun.
      injection Hrun as <- _ _. cbn [nodes links]. rewrite map_app.
      intros l Hin. apply in_app_or in Hin as [Hin|Hin].
      + apply filter_In in Hin as [Hin Hkeep].
        apply andb_true_iff in Hkeep as [Ht Hs]. apply negb_true_iff in Ht, Hs.
        destruct (Hsound l Hin) as [Hsrc Htgt].
        split; apply in_or_app; left; now apply kept_node_id.
      + match type of Hin with
        | In l (if ?b then _ else _) => destruct b eqn:Hkeep
        end; [|contradiction].
        destruct Hin as [<-|[]]. cbn [l_source l_target n_id] in *.
        apply andb_true_iff in Hkeep as [Ht Hs]. apply negb_true_iff in Ht, Hs.
        rewrite Ht. simpl app. split; apply in_or_app.
        * left. apply kept_node_id; [|assumption].
          destruct (find (fun l => includes ids (l_target l)) (links g)) as [l0|] eqn:Hl0.
          -- apply find_some in Hl0 as [Hin0 _]. now apply Hsound.
          -- destruct (Hroot ids Hop eq_refl Hl0) as (n & Hn & [= <-]).
             now apply in_map.
        * right. now left. }
  destruct (String.eqb (operation op) "RELINK_NODE").
  { destruct (find (is_parent_link_of (node_to_relink op)) (links g)) as [l0|].
    - destruct (existsb (id_is (new_parent_id op)) (nodes g)) eqn:Hparent.
      + unfold bind, ret, logEvent in Hrun. injection Hrun as <- _ _.
        cbn [nodes links]. intros l Hin.
        apply In_update_first in Hin as [Hin|(x & Hx & _ & ->)]; [auto|].
        simpl. split; [|now apply Hsound].
        apply existsb_id_is in Hparent as (n & Hn & <-). simpl. now apply in_map.
      + injection Hrun as <- _ _. exact Hsound.
    - injection Hrun as <- _ _. exact Hsound. }
  injection Hrun as <- _ _. exact Hsound.
Qed.

Lemma refine_op_keeps_links_sound_witness :
  match fst (refine_op "now" merge_A_B (related_first, []) w0) with
  | inr (g, _) => well_linked g
  | inl _ => false
  end = true.
Proof.
  destruct (refine_op "now" merge_A_B (related_first, []) w0)
    as [[e|[g summary]] w'] eqn:Hrun; [discriminate Hrun|].
  apply (refine_op_keeps_links_sound "now" merge_A_B related_first g [] summary w0 w'
           Hrun eq_refl).
  intros ids _ [= <-]. discriminate.
Defined.

Lemma world_eta (w : World) : mkWorld (clock w) (auditLog w) (apiQueue w) = w.
Proof. now destruct w. Qed.

Lemma refine_step (now : string) (op : RefineOp) (g : MindMapData)
    (summary : list string) (w : World) :
  exists g' added evs,
    try_catch (refine_op now op (g, summary)) (fun _ => ret (g, summary)) w
    = (inr (g', summary ++ added)%list,
       mkWorld (clock w) (auditLog w ++ evs)%list (apiQueue w))
    /\ length evs = length added
    /\ (added = [] -> g' = g).
Proof.
  assert (Hidle : exists g' added evs,
             (@inr exn _ (g, summary), w)
             = (inr (g', summary ++ added)%list,
                mkWorld (clock w) (auditLog w ++ evs)%list (apiQueue w))
             /\ length evs = length added /\ (added = [] -> g' = g)).
  { exists g, [], []. rewrite !app_nil_r, world_eta. auto. }
  unfold try_catch, refine_op.
  destruct (String.eqb (operation op) "UPDATE_NODE_CONTENT").
  { destruct (find (id_is (node_id_to_update op)) (nodes g)) as [node|]; [|exact Hidle].
    unfold bind, ret, logEvent, list_push. cbn [clock auditLog apiQueue].
    eexists _, [_], [_]. split; [reflexivity|]. split; [reflexivity|discriminate]. }
  destruct (String.eqb (operation op) "MERGE_NODES").
  { destruct (nodes_to_merge op) as [ids|]; [|exact Hidle].
    destruct (length ids <? 2)%nat; [exact Hidle|].
    unfold merge_nodes, bind, ret, logEvent, Date_now, list_push.
    cbn [clock auditLog apiQueue fst snd].
    eexists _, [_], [_]. split; [reflexivity|]. split; [reflexivity|discriminate]. }
  destruct (String.eqb (operation op) "RELINK_NODE"); [|exact Hidle].
  destruct (find (is_parent_link_of (node_to_relink op)) (links g)); [|exact Hidle].
  destruct (existsb (id_is (new_parent_id op)) (nodes g)); [|exact Hidle].
  unfold bind, ret, logEvent, list_push. cbn [clock auditLog apiQueue].
  eexists _, [_], [_]. split; [reflexivity|]. split; [reflexivity|discriminate].
Qed.

Lemma refine_ops_returns (now : string) (operations : list RefineOp) :
  forall g summary w,
    exists g' added evs,
      refine_ops now operations (g, summary) w
      = (inr (g', summary ++ added)%list,
         mkWorld (clock w) (auditLog w ++ evs)%list (apiQueue w))
      /\ length evs = length added
      /\ (added = [] -> g' = g).
Proof.
  induction operations as [|op rest IH]; intros g summary w.
  - exists g, [], []. simpl. unfold ret. rewrite !app_nil_r, world_eta. auto.
  - destruct (refine_step now op g summary w) as (g1 & added1 & evs1 & Hstep & Hlen1 & Hg1).
    cbn [refine_ops]. unfold bind. cbv beta. rewrite Hstep.
    destruct (IH g1 (summary ++ added1)%list
                 (mkWorld (clock w) (auditLog w ++ evs1)%list (apiQueue w)))
      as (g2 & added2 & evs2 & Hrest & Hlen2 & Hg2).
    rewrite Hrest. cbn [clock auditLog apiQueue].
    exists g2, (added1 ++ added2)%list, (evs1 ++ evs2)%list.
    rewrite !app_assoc. split; [reflexivity|]. split.
    + rewrite !length_app. lia.
    + intros Hnil. apply app_eq_nil in Hnil as [-> ->]. rewrite Hg2, Hg1; auto.
Qed.

(** X21. Once the plan is read, [refine_mind_map] returns, whatever
    operations the plan holds: an operation that cannot be carried out is
    skipped.  It reports that nothing was refined exactly when it logged no
    event, and then the graph it returns is the input graph. *)
Theorem refine_mind_map_applies_any_plan (ext : Externals) (modelName text : string)
    (mindMap : MindMapData) (w : World) (response : Response)
    (operations : list RefineOp) :
  ai ext = true ->
  (forall payload, generateContent ext w payload = inr response) ->
  r_text response = Some text ->
  JSON_parse_operations ext text = inr operations ->
  exists (g : MindMapData) (result : string) (w' : World),
    refine_mind_map ext modelName mindMap w = (inr (g, result), w')
    /\ (result = no_refinement <-> auditLog w' = auditLog w)
    /\ (result = no_refinement -> g = mindMap).
Proof.
  intros Hai Hcall Htext Hparse.
  unfold refine_mind_map, require_ai, parse_operations, enqueueGeminiRequest.
  rewrite Hai. unfold bind at 1. unfold ret at 1. cbv beta iota.
  unfold bind at 1. rewrite Hcall. cbv beta iota.
  unfold bind at 1. rewrite Htext. unfold lift at 1. rewrite Hparse. cbv beta iota.
  unfold bind at 1. unfold Date_now at 1. cbv beta iota. cbn [clock].
  unfold bind.
  match goal with
  | |- context [refine_ops ?now operations (mindMap, []) ?w1] =>
      destruct (refine_ops_returns now operations mindMap [] w1)
        as (g & added & evs & Hrun & Hlen & Hsame); rewrite Hrun
  end.
  cbn [clock auditLog apiQueue app]. unfold ret.
  eexists _, _, _. split; [reflexivity|]. cbn [auditLog].
  destruct added as [|line added]; simpl in *.
  - destruct evs; [|discriminate]. rewrite app_nil_r. split; [tauto|auto].
  - destruct evs as [|ev evs]; [discriminate|]. split; [|discriminate].
    split; [discriminate|].
    intros Hlog. rewrite <- (app_nil_r (auditLog w)) in Hlog at 2.
    apply app_inv_head in Hlog. discriminate.
Qed.

Lemma refine_mind_map_applies_any_plan_witness :
  exists g result w',
    refine_mind_map (plans [unknown_operation; merge_A_B]) "m" related_first w0
    = (inr (g, result), w')
    /\ (result = no_refinement <-> auditLog w' = auditLog w0)
    /\ (result = no_refinement -> g = related_first).
Proof.
  apply (refine_mind_map_applies_any_plan (plans [unknown_operation; merge_A_B]) "m"
           "plan" related_first w0 (mkResponse (Some "plan") None)
           [unknown_operation; merge_A_B]); reflexivity.
Defined.

(** X22. [transcend] hangs its insight under the id [Persona_Core]: from
    a graph with sound links, the graph it returns has sound links exactly
    when the input graph has a node with that id. *)
Theorem transcend_keeps_links_sound (ext : Externals) (modelName : string)
    (inquiry : option string) (mindMap g : MindMapData) (result : string)
    (w w' : World) :
  transcend ext modelName inquiry mindMap w = (inr (g, result), w') ->
  well_linked mindMap = true ->
  (well_linked g = true <-> node_exists mindMap (Some insight_root)).
Proof.
  unfold transcend, require_ai, enqueueGeminiRequest, text_trim, response_text.
  unfold bind, ret, Date_now, logEvent, throw_Error, throw_TypeError, throw.
  destruct (ai ext); [|discriminate]. cbv beta iota.
  destruct (generateContent ext w _) as [e|response]; [discriminate|]. cbv beta iota.
  destruct (r_text response) as [text|]; [|discriminate]. cbv beta iota zeta.
  cbn [clock auditLog apiQueue]. intros [= <- _ _] Hsound.
  rewrite well_linked_iff in Hsound. rewrite well_linked_iff.
  cbn [nodes links]. unfold list_push. rewrite map_app. split.
  - intros Hnew. destruct (Hnew (mkLink insight_root ("insight_" ++ Js.of_N (clock w))
                                        HIERARCHICAL (8 # 10) None)) as [Hsource _].
    { apply in_or_app. right. now left. }
    cbn [l_source] in Hsource. apply in_app_or in Hsource as [Hin|[Hin|[]]].
    + apply in_map_iff in Hin as (n & Hn & Hin). exists n. split; [assumption|].
      now rewrite Hn.
    + discriminate Hin.
  - intros (n & Hn & [= Hroot]) l Hin. apply in_app_or in Hin as [Hin|[<-|[]]].
    + destruct (Hsound l Hin). split; apply in_or_app; auto.
    + cbn [l_source l_target]. split; apply in_or_app.
      * left. rewrite <- Hroot. now apply in_map.
      * right. now left.
Qed.

Lemma transcend_keeps_links_sound_witness :
  match fst (transcend (canned "insight") "m" (Some "why") root_graph w0) with
  | inr (g, _) => well_linked g
  | inl _ => true
  end = false.
Proof.
  destruct (transcend (canned "insight") "m" (Some "why") root_graph w0)
    as [[e|[g result]] w'] eqn:Hrun; [discriminate Hrun|].
  simpl. destruct (well_linked g) eqn:Hsound; [|reflexivity].
  apply (transcend_keeps_links_sound (canned "insight") "m" (Some "why") root_graph
           g result w0 w' Hrun eq_refl) in Hsound.
  destruct Hsound as (n & [<-|[]] & Hid). discriminate Hid.
Defined.

(** ** The list of relevant ids *)

Lemma rev_onto_app (s acc : string) :
  Js.rev_string_onto s acc = Js.rev_string_onto s EmptyString ++ acc.
Proof.
  revert acc. induction s as [|c s IH]; intros acc; simpl; [reflexivity|].
  rewrite IH, (IH (String c EmptyString)), string_app_assoc. reflexivity.
Qed.

Lemma rev_string_cons (c : ascii) (s : string) :
  Js.rev_string (String c s) = Js.rev_string s ++ String c EmptyString.
Proof. unfold Js.rev_string. simpl. apply rev_onto_app. Qed.

Lemma rev_string_app (a b : string) :
  Js.rev_string (a ++ b) = Js.rev_string b ++ Js.rev_string a.
Proof.
  induction a as [|c a IH]; simpl.
  - now rewrite string_app_nil_r.
  - now rewrite !rev_string_cons, IH, string_app_assoc.
Qed.

Lemma rev_string_involutive (s : string) : Js.rev_string (Js.rev_string s) = s.
Proof.
  induction s as [|c s IH]; [reflexivity|].
  now rewrite rev_string_cons, rev_string_app, IH.
Qed.

Lemma trimStart_length (s : string) : String.length (Js.trimStart s) <= String.length s.
Proof.
  induction s as [|c s IH]; simpl; [lia|].
  destruct (Js.is_space c); simpl; lia.
Qed.

(** A text that [trimStart] leaves alone and that is not empty starts with a
    character that is no white space. *)
Lemma trimStart_fixed (s : string) :
  s <> EmptyString -> Js.trimStart s = s ->
  exists c rest, s = String c rest /\ Js.is_space c = false.
Proof.
  destruct s as [|c s]; [contradiction|]. intros _ H. exists c, s. split; [reflexivity|].
  simpl in H. destruct (Js.is_space c); [|reflexivity].
  pose proof (trimStart_length s) as Hlen. rewrite H in Hlen. simpl in Hlen. lia.
Qed.

Lemma trimStart_head (c : ascii) (rest tail : string) :
  Js.is_space c = false -> Js.trimStart (String c rest ++ tail) = String c rest ++ tail.
Proof. intros H. simpl. now rewrite H. Qed.

Lemma rev_string_nonempty (s : string) : s <> EmptyString -> Js.rev_string s <> EmptyString.
Proof.
  destruct s as [|c s]; [contradiction|]. intros _. rewrite rev_string_cons.
  now destruct (Js.rev_string s).
Qed.

(** A text that starts with a listed id and ends with one is left alone by
    [trim]. *)
Lemma trim_between (first last middle : string) :
  listed_id first -> listed_id last ->
  Js.trim (first ++ middle ++ last) = first ++ middle ++ last.
Proof.
  intros (Hne1 & _ & Hs1 & _) (Hne2 & _ & _ & He2).
  destruct (trimStart_fixed _ Hne1 Hs1) as (c & rest & -> & Hc).
  unfold Js.trim. rewrite trimStart_head by assumption.
  unfold Js.trimEnd. rewrite <- string_app_assoc, rev_string_app.
  assert (Hrev : Js.trimStart (Js.rev_string last) = Js.rev_string last).
  { unfold Js.trimEnd in He2. apply (f_equal Js.rev_string) in He2.
    now rewrite rev_string_involutive in He2. }
  destruct (trimStart_fixed _ (rev_string_nonempty _ Hne2) Hrev) as (d & r & Hd & Hsp).
  rewrite Hd, trimStart_head by assumption.
  rewrite <- Hd, <- rev_string_app. apply rev_string_involutive.
Qed.

Lemma trim_listed (id : string) : listed_id id -> Js.trim id = id.
Proof.
  intros (_ & _ & Hs & He). unfold Js.trim. now rewrite Hs.
Qed.

(** The list ends with its last id. *)
Lemma join_ends (id : string) (ids : list string) :
  exists front last,
    Js.join ", " (id :: ids) = front ++ last /\ In last (id :: ids).
Proof.
  revert id. induction ids as [|next rest IH]; intros id.
  - exists EmptyString, id. split; [reflexivity|now left].
  - destruct (IH next) as (front & last & Hjoin & Hin).
    exists (id ++ ", " ++ front), last. split; [|now right].
    change (Js.join ", " (id :: next :: rest))
      with (id ++ ", " ++ Js.join ", " (next :: rest)).
    now rewrite Hjoin, !string_app_assoc.
Qed.

Lemma trim_join (ids : list string) :
  Forall listed_id ids -> Js.trim (Js.join ", " ids) = Js.join ", " ids.
Proof.
  intros Hall. destruct ids as [|id [|next rest]].
  - reflexivity.
  - inversion Hall; subst. now apply trim_listed.
  - destruct (join_ends next rest) as (front & last & Hjoin & Hin).
    change (Js.join ", " (id :: next :: rest))
      with (id ++ ", " ++ Js.join ", " (next :: rest)).
    rewrite Hjoin, <- (string_app_assoc ", " front last).
    apply trim_between.
    + now inversion Hall.
    + inversion Hall as [|? ? _ Hrest]; subst.
      exact (proj1 (List.Forall_forall _ _) Hrest last Hin).
Qed.

Lemma trim_padded (pad : bool) (id : string) :
  listed_id id -> Js.trim ((if pad then " " else "") ++ id) = id.
Proof.
  intros Hid. destruct pad; [|now apply trim_listed].
  change (Js.trim (" " ++ id)) with (Js.trim id). now apply trim_listed.
Qed.

Lemma padded_no_comma (pad : bool) (id : string) :
  listed_id id -> has_char "," ((if pad then " " else "") ++ id) = false.
Proof.
  intros (_ & Hcomma & _). destruct pad; [|assumption].
  cbn [append has_char]. now rewrite Hcomma.
Qed.

Lemma pieces_of_join (pad : bool) (ids : list string) :
  ids <> [] ->
  Forall listed_id ids ->
  map Js.trim (Js.split "," ((if pad then " " else "") ++ Js.join ", " ids)) = ids.
Proof.
  revert pad. induction ids as [|id [|next rest] IH]; intros pad Hne Hall.
  - contradiction.
  - inversion Hall as [|? ? Hid _]; subst.
    cbn [Js.join]. rewrite split_no_sep by (now apply padded_no_comma).
    cbn [map]. now rewrite trim_padded.
  - inversion Hall as [|? ? Hid Hrest]; subst.
    change (Js.join ", " (id :: next :: rest))
      with (id ++ String "," (" " ++ Js.join ", " (next :: rest))).
    rewrite <- string_app_assoc, split_app, map_app.
    rewrite (IH true) by (assumption || discriminate).
    rewrite split_no_sep by (now apply padded_no_comma).
    cbn [map app]. now rewrite trim_padded.
Qed.

(** X23. The answer of the pre-filter is read as a list: ids separated by
    a comma and a space, each not empty, free of commas and of surrounding
    white space, are read back as they are. *)
Theorem parse_node_ids_reads_a_list (ids : list string) :
  Forall listed_id ids ->
  parse_node_ids (Js.join ", " ids) = ids.
Proof.
  intros Hall. unfold parse_node_ids. rewrite trim_join by assumption.
  destruct ids as [|id rest]; [reflexivity|].
  pose proof (pieces_of_join false (id :: rest) ltac:(discriminate) Hall) as Hpieces.
  change ((if false then " " else "") ++ Js.join ", " (id :: rest))
    with (Js.join ", " (id :: rest)) in Hpieces.
  rewrite Hpieces. apply forallb_filter_id. apply forallb_forall. intros x Hx.
  destruct (proj1 (List.Forall_forall _ _) Hall x Hx) as (Hne & _).
  now destruct x.
Qed.

Lemma parse_node_ids_reads_a_list_witness :
  parse_node_ids "root, X_1000, file_a_txt_1000" = ["root"; "X_1000"; "file_a_txt_1000"].
Proof.
  apply (parse_node_ids_reads_a_list ["root"; "X_1000"; "file_a_txt_1000"]).
  repeat constructor; discriminate.
Defined.

(** ** The image of the conversation *)

Lemma until_semicolon_app (m rest : string) :
  all_chars mime_char m = true ->
  until_semicolon (m ++ String ";" rest) = Some m.
Proof.
  induction m as [|c m IH]; cbn [all_chars until_semicolon append].
  - reflexivity.
  - intros H. apply andb_true_iff in H as [Hc Hm]. unfold mime_char in Hc.
    apply andb_true_iff in Hc as [Hc Hl]. apply andb_true_iff in Hc as [Hs _].
    apply negb_true_iff in Hs, Hl. rewrite Hs, Hl, (IH Hm). reflexivity.
Qed.

Lemma has_char_app_false c a b :
  has_char c a = false -> has_char c b = false -> has_char c (a ++ b) = false.
Proof.
  induction a as [|x a IH]; cbn [has_char append]; [auto|].
  intros Ha Hb. apply orb_false_iff in Ha as [Hx Ha]. now rewrite Hx, IH.
Qed.

Lemma mime_no_comma (m : string) : all_chars mime_char m = true -> has_char "," m = false.
Proof.
  induction m as [|c m IH]; cbn [all_chars has_char]; [reflexivity|].
  intros H. apply andb_true_iff in H as [Hc Hm]. rewrite (IH Hm), orb_false_r.
  unfold mime_char in Hc. apply andb_true_iff in Hc as [Hc _].
  apply andb_true_iff in Hc as [_ Hc]. apply negb_true_iff in Hc.
  now rewrite Ascii.eqb_sym.
Qed.

Lemma data_url_pieces (mime data : string) :
  all_chars mime_char mime = true ->
  has_char "," data = false ->
  Js.split "," (data_url mime data) = ["data:" ++ mime ++ ";base64"; data].
Proof.
  intros Hmime Hdata. unfold data_url.
  replace ("data:" ++ mime ++ ";base64," ++ data)
    with (("data:" ++ mime ++ ";base64") ++ String "," data).
  2:{ cbn [append]. do 5 f_equal. rewrite string_app_assoc. reflexivity. }
  rewrite split_app, (split_no_sep _ data) by assumption.
  rewrite split_no_sep; [reflexivity|].
  cbn [append has_char]. cbn [Ascii.eqb Bool.eqb orb].
  apply has_char_app_false; [now apply mime_no_comma|reflexivity].
Qed.

Lemma mime_group_header (mime : string) :
  all_chars mime_char mime = true ->
  mime_group ("data:" ++ mime ++ ";base64") = Some mime.
Proof.
  intros Hmime. cbn [append mime_group Ascii.eqb Bool.eqb].
  change (mime ++ ";base64") with (mime ++ String ";" "base64").
  now rewrite until_semicolon_app.
Qed.

(** X24. [edit_image] takes the last image of the conversation apart: for
    a data URL with a MIME type and base64 data, the request to the image
    service carries exactly that data and that MIME type. *)
Theorem edit_image_decodes_the_data_url (ext : Externals) (modelName : string)
    (args : option Args) (mindMapData : MindMapData) (vfs : VirtualFileSystem)
    (vectorStore : VectorStore) (personaDescription : string)
    (chatHistory : list ChatMessage) (msg : ChatMessage)
    (mime data source : string) :
  find has_image (rev chatHistory) = Some msg ->
  msg_image msg = Some (mkChatImage (data_url mime data) source) ->
  mime <> EmptyString ->
  all_chars mime_char mime = true ->
  has_char "," data = false ->
  dispatch ext modelName (Some "edit_image") args mindMapData vfs vectorStore
           personaDescription chatHistory
  = (prompt <- arg args "prompt" ;;
     editedImageData <- editImage ext prompt (Some data) mime ;;
     ret (image_edited prompt editedImageData)).
Proof.
  intros Hfind Himage Hne Hmime Hdata. unfold dispatch. cbv zeta.
  cbn [String.eqb Ascii.eqb Bool.eqb]. rewrite Hfind.
  destruct msg as [sender type text image]. cbn [msg_image] in Himage. subst image.
  cbn [img_url]. rewrite (data_url_pieces _ _ Hmime Hdata).
  cbn [nth nth_error]. rewrite (mime_group_header _ Hmime).
  destruct mime as [|c mime]; [contradiction|]. reflexivity.
Qed.

Lemma edit_image_decodes_the_data_url_witness :
  let picture :=
    mkChatMessage "user" None (Some "look")
                  (Some (mkChatImage (data_url "image/png" "AAAA") "upload")) in
  dispatch (canned "ok") "m" (Some "edit_image") (Some [("prompt", "brighter")])
           root_graph [] [] "persona"
           [picture; mkChatMessage "persona" None (Some "nice") None]
  = (prompt <- arg (Some [("prompt", "brighter")]) "prompt" ;;
     editedImageData <- editImage (canned "ok") prompt (Some "AAAA") "image/png" ;;
     ret (image_edited prompt editedImageData)).
Proof.
  intros picture.
  apply (edit_image_decodes_the_data_url (canned "ok") "m" (Some [("prompt", "brighter")])
           root_graph [] [] "persona" _ picture "image/png" "AAAA" "upload");
    first [reflexivity | discriminate].
Defined.

(** ** What every tool call keeps *)

Lemma ensures_ret {A} (a : A) (Q : A -> Prop) : Q a -> ensures (ret a) Q.
Proof. intros H w. exact H. Qed.

Lemma ensures_throw {A} (e : exn) (Q : A -> Prop) : ensures (throw e) Q.
Proof. intros w. exact I. Qed.

Lemma ensures_bind {A B} (m : M A) (k : A -> M B) (P : A -> Prop) (Q : B -> Prop) :
  ensures m P -> (forall a, P a -> ensures (k a) Q) -> ensures (bind m k) Q.
Proof.
  intros Hm Hk w. unfold bind. specialize (Hm w).
  destruct (m w) as [[e|a] w1]; simpl in *; [exact I|].
  exact (Hk a Hm w1).
Qed.

Lemma ensures_after {A B} (m : M A) (k : A -> M B) (Q : B -> Prop) :
  (forall a, ensures (k a) Q) -> ensures (bind m k) Q.
Proof.
  intros Hk. apply (ensures_bind m k (fun _ => True)); [|auto].
  intros w. now destruct (fst (m w)).
Qed.

Lemma ensures_try_catch {A} (m : M A) (h : exn -> M A) (Q : A -> Prop) :
  ensures m Q -> (forall e, ensures (h e) Q) -> ensures (try_catch m h) Q.
Proof.
  intros Hm Hh w. unfold try_catch. specialize (Hm w).
  destruct (m w) as [[e|a] w1]; simpl in *; [apply Hh|exact Hm].
Qed.

Lemma ensures_writeFileToVFS vfs path content :
  ensures (writeFileToVFS vfs path content)
          (fun newVFS => getNodeFromPath newVFS path = Some (Node (File content))).
Proof.
  intros w. destruct (writeFileToVFS vfs path content w) as [[e|newVFS] w'] eqn:Hwrite;
    simpl; [exact I|].
  exact (writeFileToVFS_lookup _ _ _ _ _ _ Hwrite).
Qed.

Ltac ensures_step :=
  lazymatch goal with
  | |- ensures (bind (writeFileToVFS _ _ _) _) _ =>
      eapply ensures_bind; [apply ensures_writeFileToVFS|intros ? ?]
  | |- ensures (bind _ _) _ => apply ensures_after; intros
  | |- ensures (ret _) _ => apply ensures_ret
  | |- ensures (throw _) _ => apply ensures_throw
  | |- ensures (throw_Error _) _ => apply ensures_throw
  | |- ensures (throw_TypeError _) _ => apply ensures_throw
  | |- ensures (if ?b then _ else _) _ => destruct b eqn:?
  | |- ensures (match ?x with _ => _ end) _ => destruct x eqn:?
  | |- ensures (let '(_, _) := ?x in _) _ => destruct x eqn:?
  end.

Lemma ensures_run_terminal_command_file ext modelName command vfs mindMap :
  ensures (run_terminal_command ext modelName command vfs mindMap)
          (fun r => holds_its_file (t_newVFS r) (t_filePathHandled r)).
Proof.
  unfold run_terminal_command. cbv zeta.
  repeat lazymatch goal with
         | |- ensures (if ?b then _ else _) _ => destruct b
         end.
  all: repeat (ensures_step; cbn [holds_its_file t_newVFS t_filePathHandled]);
    cbv beta in *; eauto.
Qed.

Lemma ensures_dispatch_file ext modelName name args mindMapData vfs vectorStore persona chat :
  ensures (dispatch ext modelName name args mindMapData vfs vectorStore persona chat)
          (fun r => holds_its_file (newVirtualFileSystem r) (filePathHandled r)).
Proof.
  unfold dispatch. cbv zeta.
  repeat lazymatch goal with
         | |- ensures (if ?b then _ else _) _ => destruct b
         end.
  all: try (repeat (ensures_step;
                    cbn [holds_its_file newVirtualFileSystem filePathHandled result_only]);
            cbv beta in *; eauto; fail).
  (* the terminal *)
  apply ensures_after; intros command. destruct command as [command|];
    [|apply ensures_throw].
  eapply ensures_bind; [apply ensures_run_terminal_command_file|].
  intros r Hr. apply ensures_ret. exact Hr.
Qed.

(** X25. Whatever the tool, when the result of [executeTool] carries a
    file system and names a handled path, the path names a file in that file
    system. *)
Theorem executeTool_holds_the_file_it_names (ext : Externals) (modelName : string)
    (toolCall : FunctionCall) (mindMapData : MindMapData) (vfs : VirtualFileSystem)
    (vectorStore : VectorStore) (personaDescription : string)
    (chatHistory : list ChatMessage) (w w' : World) (toolResult : ToolResult)
    (newVFS : VirtualFileSystem) (path : string) :
  executeTool ext modelName toolCall mindMapData vfs vectorStore personaDescription
              chatHistory w = (inr toolResult, w') ->
  newVirtualFileSystem toolResult = Some newVFS ->
  filePathHandled toolResult = Some path ->
  exists content, getNodeFromPath newVFS path = Some (Node (File content)).
Proof.
  intros Hrun Hvfs Hpath.
  assert (H : ensures (executeTool ext modelName toolCall mindMapData vfs vectorStore
                                   personaDescription chatHistory)
                      (fun r => holds_its_file (newVirtualFileSystem r)
                                               (filePathHandled r))).
  { unfold executeTool. apply ensures_try_catch.
    - eapply ensures_bind; [apply ensures_dispatch_file|].
      intros r Hr. apply ensures_after. intros _. now apply ensures_ret.
    - intros e. apply ensures_after. intros _. now apply ensures_ret. }
  specialize (H w). rewrite Hrun in H. simpl in H. now rewrite Hvfs, Hpath in H.
Qed.

Lemma extends_refl (g : MindMapData) : extends g g.
Proof. exists [], []. now rewrite !app_nil_r. Qed.

Lemma extends_push (g : MindMapData) (ns : list MindMapNode) (ls : list MindMapLink) :
  extends g (mkMindMap (nodes g ++ ns) (links g ++ ls)).
Proof. eexists _, _. simpl. rewrite !map_app. split; reflexivity. Qed.

Lemma upsert_extends ext args g g' message w w' :
  upsert_mind_map_node ext args g w = (inr (g', message), w') -> extends g g'.
Proof.
  unfold upsert_mind_map_node, destructure, bind, ret, Date_now, logEvent.
  destruct args as [args|]; [|discriminate]. cbv beta iota zeta.
  destruct (Js.truthy (Dict.get args "node_id")).
  - destruct (find (id_is (Dict.get args "node_id")) (nodes g)) as [old|] eqn:Hold.
    + intros [= <- _ _]. exists [], []. rewrite !app_nil_r. cbn [nodes links]. split.
      * apply map_update_first. intros x Hx. rewrite Hold in Hx. now injection Hx as <-.
      * destruct (Js.truthy (Dict.get args "parent_node_id")); [|reflexivity].
        apply map_update_first. intros x _. apply set_source_shape.
    + intros [= <- _ _]. apply extends_refl.
  - destruct (negb _ || negb _).
    + intros [= <- _ _]. apply extends_refl.
    + destruct (Dict.get args "name"); [|discriminate].
      intros [= <- _ _]. apply extends_push.
Qed.

Lemma create_link_extends args g g' message w w' :
  create_mind_map_link args g w = (inr (g', message), w') -> extends g g'.
Proof.
  unfold create_mind_map_link, destructure, bind, ret, logEvent.
  destruct args as [args|]; [|discriminate]. cbv beta iota zeta.
  destruct (negb _ || negb _); intros [= <- _ _]; [apply extends_refl|].
  eexists [], [_]. rewrite app_nil_r. cbn [nodes links]. unfold list_push.
  rewrite map_app. split; reflexivity.
Qed.

Lemma transcend_extends ext modelName inquiry g g' message w w' :
  transcend ext modelName inquiry g w = (inr (g', message), w') -> extends g g'.
Proof.
  unfold transcend, require_ai, enqueueGeminiRequest, text_trim, response_text.
  unfold bind, ret, Date_now, logEvent, throw_Error, throw_TypeError, throw.
  destruct (ai ext); [|discriminate]. cbv beta iota.
  destruct (generateContent ext w _) as [e|response]; [discriminate|]. cbv beta iota.
  destruct (r_text response) as [text|]; [|discriminate]. cbv beta iota zeta.
  intros [= <- _ _]. apply extends_push.
Qed.

Lemma ensures_of_run {A} (m : M A) (Q : A -> Prop) :
  (forall w a w', m w = (inr a, w') -> Q a) -> ensures m Q.
Proof.
  intros H w. destruct (m w) as [[e|a] w'] eqn:Hrun; simpl; [exact I|].
  exact (H _ _ _ Hrun).
Qed.

Lemma ensures_run_terminal_command_graph ext modelName command vfs mindMap :
  ensures (run_terminal_command ext modelName command vfs mindMap)
          (fun r => grows_from mindMap (t_newMindMap r)).
Proof.
  unfold run_terminal_command. cbv zeta.
  repeat lazymatch goal with
         | |- ensures (if ?b then _ else _) _ => destruct b
         end.
  all: try (repeat (ensures_step; cbn [grows_from t_newMindMap]); eauto; fail).
  (* write *)
  destruct (List.filter _ (tl _)) as [|filepath [|c contents]];
    try apply ensures_throw.
  apply ensures_after. intros newVFS.
  apply (ensures_bind _ _ (fun graph => extends mindMap (fst graph))).
  - destruct (Js.truthy _ && existsb _ _).
    + repeat ensures_step. apply extends_push.
    + apply ensures_ret. apply extends_refl.
  - intros [newMindMap mindMapUpdateResult] Hg. apply ensures_ret. exact Hg.
Qed.

Lemma ensures_dispatch_graph ext modelName name args mindMapData vfs vectorStore
    persona chat :
  name <> Some "refine_mind_map" ->
  ensures (dispatch ext modelName name args mindMapData vfs vectorStore persona chat)
          (fun r => grows_from mindMapData (newMindMapData r)).
Proof.
  intros Hname. unfold dispatch. cbv zeta.
  repeat lazymatch goal with
         | |- ensures (if ?b then _ else _) _ => destruct b eqn:?
         end.
  all: try (repeat (ensures_step; cbn [grows_from newMindMapData result_only]);
            eauto; fail).
  - (* the terminal *)
    apply ensures_after; intros command. destruct command as [command|];
      [|apply ensures_throw].
    eapply ensures_bind; [apply ensures_run_terminal_command_graph|].
    intros r Hr. apply ensures_ret. exact Hr.
  - apply (ensures_bind _ _ (fun r => extends mindMapData (fst r)));
      [apply ensures_of_run; intros w [g message] w' Hrun;
       exact (upsert_extends _ _ _ _ _ _ _ Hrun)|].
    intros [g message] Hg. now apply ensures_ret.
  - apply (ensures_bind _ _ (fun r => extends mindMapData (fst r)));
      [apply ensures_of_run; intros w [g message] w' Hrun;
       exact (create_link_extends _ _ _ _ _ _ Hrun)|].
    intros [g message] Hg. now apply ensures_ret.
  - exfalso. apply Hname. destruct name as [n|]; [|discriminate].
    match goal with H : String.eqb n "refine_mind_map" = true |- _ =>
      apply String.eqb_eq in H; now subst end.
  - apply ensures_after; intros inquiry.
    apply (ensures_bind _ _ (fun r => extends mindMapData (fst r)));
      [apply ensures_of_run; intros w [g message] w' Hrun;
       exact (transcend_extends _ _ _ _ _ _ _ _ Hrun)|].
    intros [g message] Hg. now apply ensures_ret.
Qed.

(** X26. No tool but [refine_mind_map] takes anything out of the graph:
    the graph in a result of [executeTool] holds the nodes of the input
    graph, in their order and with their ids and origins, and its links up
    to their sources, before anything new. *)
Theorem only_refinement_takes_out (ext : Externals) (modelName : string)
    (toolCall : FunctionCall) (mindMapData : MindMapData) (vfs : VirtualFileSystem)
    (vectorStore : VectorStore) (personaDescription : string)
    (chatHistory : list ChatMessage) (w w' : World) (toolResult : ToolResult)
    (g : MindMapData) :
  fc_name toolCall <> Some "refine_mind_map" ->
  executeTool ext modelName toolCall mindMapData vfs vectorStore personaDescription
              chatHistory w = (inr toolResult, w') ->
  newMindMapData toolResult = Some g ->
  extends mindMapData g.
Proof.
  intros Hname Hrun Hg.
  assert (H : ensures (executeTool ext modelName toolCall mindMapData vfs vectorStore
                                   personaDescription chatHistory)
                      (fun r => grows_from mindMapData (newMindMapData r))).
  { unfold executeTool. apply ensures_try_catch.
    - eapply ensures_bind; [now apply ensures_dispatch_graph|].
      intros r Hr. apply ensures_after. intros _. now apply ensures_ret.
    - intros e. apply ensures_after. intros _. now apply ensures_ret. }
  specialize (H w). rewrite Hrun in H. simpl in H. now rewrite Hg in H.
Qed.

Lemma executeTool_holds_the_file_it_names_witness :
  exists content, getNodeFromPath [("a.txt", File EmptyString)] "/a.txt"
                  = Some (Node (File content)).
Proof.
  eapply (executeTool_holds_the_file_it_names (canned "ok") "m" touch_call root_graph
            [] [] "persona" [] w0 _ _ [("a.txt", File EmptyString)] "/a.txt");
    reflexivity.
Defined.

Lemma only_refinement_takes_out_witness :
  extends root_graph
    (mkMindMap
       [root_node;
        mkNode "X_1000" (Some "X") (UncheckedNodeType None) None "AGENT_ACTION"
               "1000" "1000" None]
       [mkLink "root" "X_1000" HIERARCHICAL (9 # 10) None]).
Proof.
  eapply (only_refinement_takes_out (canned "ok") "m" create_X_call root_graph
            [] [] "persona" [] w0 _ _ _); [discriminate|reflexivity|reflexivity].
Defined.

(** ** The check of scripts *)

Lemma count_char_app (c : ascii) (a b : string) :
  Js.count_char c (a ++ b) = Js.count_char c a + Js.count_char c b.
Proof. induction a as [|x a IH]; simpl; [reflexivity|]. rewrite IH. lia. Qed.

(** X14. The check of the [python] command counts brackets and quotes and
    does not look at their order: a script and the script with its two parts
    swapped get the same verdict. *)
Theorem syntax_check_ignores_the_order (a b : string) :
  syntax_check (a ++ b) = syntax_check (b ++ a).
Proof.
  unfold syntax_check. rewrite !count_char_app.
  now rewrite !(Nat.add_comm (Js.count_char _ a)).
Qed.

(** ** What the local tools never do *)

Lemma offline_silent {A} (m : M A) : (forall w, snd (m w) = w) -> offline m.
Proof. intros H w. now rewrite H. Qed.

Lemma offline_bind {A B} (m : M A) (k : A -> M B) :
  offline m -> (forall a, offline (k a)) -> offline (bind m k).
Proof.
  intros Hm Hk w. unfold bind. specialize (Hm w).
  destruct (m w) as [[e|a] w1]; simpl in *; [assumption|].
  now rewrite Hk.
Qed.

Lemma offline_try_catch {A} (m : M A) (h : exn -> M A) :
  offline m -> (forall e, offline (h e)) -> offline (try_catch m h).
Proof.
  intros Hm Hh w. unfold try_catch. specialize (Hm w).
  destruct (m w) as [[e|a] w1]; simpl in *; [|assumption].
  now rewrite Hh.
Qed.

Lemma offline_logEvent (p : AuditPayload) : offline (logEvent p).
Proof. intros w. reflexivity. Qed.

Ltac offline_step :=
  lazymatch goal with
  | |- offline (bind _ _) => apply offline_bind; [|intros]
  | |- offline (try_catch _ _) => apply offline_try_catch; [|intros]
  | |- offline (ret _) => now apply offline_silent
  | |- offline (throw _) => now apply offline_silent
  | |- offline (throw_Error _) => now apply offline_silent
  | |- offline (throw_TypeError _) => now apply offline_silent
  | |- offline (lift _) => now apply offline_silent
  | |- offline Date_now => now apply offline_silent
  | |- offline (logEvent _) => apply offline_logEvent
  | |- offline (if ?b then _ else _) => destruct b
  | |- offline (match ?x with _ => _ end) => destruct x
  end.

Lemma offline_writeFileToVFS vfs path content : offline (writeFileToVFS vfs path content).
Proof.
  unfold writeFileToVFS, ensureDirectoryExists.
  destruct (pop_last (resolvePath path)) as [[|c filename]|]; repeat offline_step.
Qed.

Lemma offline_run_terminal_command ext modelName command vfs mindMap :
  offline (run_terminal_command ext modelName command vfs mindMap).
Proof.
  unfold run_terminal_command. cbv zeta.
  repeat lazymatch goal with
         | |- offline (if ?b then _ else _) => destruct b
         end.
  all: unfold ensureDirectoryExists;
    repeat first [apply offline_writeFileToVFS | offline_step].
Qed.

Lemma offline_upsert ext args mindMap : offline (upsert_mind_map_node ext args mindMap).
Proof. unfold upsert_mind_map_node, destructure. repeat offline_step. Qed.

Lemma offline_create_link args mindMap : offline (create_mind_map_link args mindMap).
Proof. unfold create_mind_map_link, destructure. repeat offline_step. Qed.

Lemma offline_arg args key : offline (arg args key).
Proof. unfold arg. repeat offline_step. Qed.

Lemma selected_model_tool (name : option string) (tool : string) :
  In tool model_tools ->
  (forall n, name = Some n -> ~ In n model_tools) ->
  match name with Some n => String.eqb n tool | None => false end = false.
Proof.
  intros Htool Hname. destruct name as [n|]; [|reflexivity].
  destruct (String.eqb_spec n tool) as [->|]; [|reflexivity].
  exfalso. exact (Hname tool eq_refl Htool).
Qed.

Lemma offline_dispatch ext modelName name args mindMapData vfs vectorStore persona chat :
  (forall n, name = Some n -> ~ In n model_tools) ->
  offline (dispatch ext modelName name args mindMapData vfs vectorStore persona chat).
Proof.
  intros Hname. unfold dispatch. cbv zeta.
  repeat match goal with
         | |- context [match name with Some n => String.eqb n ?tool | None => false end] =>
             rewrite (selected_model_tool name tool)
               by (assumption || (simpl; auto 10))
         end.
  repeat lazymatch goal with
         | |- offline (if ?b then _ else _) => destruct b
         end.
  all: repeat first
    [ apply offline_arg | apply offline_run_terminal_command | apply offline_upsert
    | apply offline_create_link | apply offline_writeFileToVFS | offline_step ].
Qed.

(** X28. A tool that is none of the tools that call the model or a
    sub-agent submits no request: after [executeTool] the queue is as it
    was, whether the tool returned or threw, and whether its name is known
    or not. *)
Theorem local_tools_submit_nothing (ext : Externals) (modelName : string)
    (toolCall : FunctionCall) (mindMapData : MindMapData) (vfs : VirtualFileSystem)
    (vectorStore : VectorStore) (personaDescription : string)
    (chatHistory : list ChatMessage) (w : World) :
  (forall name, fc_name toolCall = Some name -> ~ In name model_tools) ->
  apiQueue (snd (executeTool ext modelName toolCall mindMapData vfs vectorStore
                             personaDescription chatHistory w))
  = apiQueue w.
Proof.
  intros Hname. revert w.
  change (offline (executeTool ext modelName toolCall mindMapData vfs vectorStore
                               personaDescription chatHistory)).
  unfold executeTool. apply offline_try_catch.
  - apply offline_bind; [now apply offline_dispatch|intros r]. repeat offline_step.
  - intros e. repeat offline_step.
Qed.

Lemma local_tools_submit_nothing_witness :
  apiQueue (snd (executeTool (canned "ok") "m"
                   (mkFunctionCall (Some "run_terminal_command")
                                   (Some [("command", "touch /a.txt")]))
                   root_graph [] [] "persona" [] w0))
  = apiQueue w0.
Proof.
  apply (local_tools_submit_nothing (canned "ok") "m").
  intros name [= <-]. simpl. intuition discriminate.
Defined.

(** ** What a failed tool call leaves behind *)

Lemma silent_still {A} (m : M A) : (forall w, snd (m w) = w) -> silent m.
Proof. intros H w. now rewrite H. Qed.

Lemma silent_bind {A B} (m : M A) (k : A -> M B) :
  silent m -> (forall a, silent (k a)) -> silent (bind m k).
Proof.
  intros Hm Hk w. unfold bind. specialize (Hm w).
  destruct (m w) as [[e|a] w1]; simpl in *; [assumption|]. now rewrite Hk.
Qed.

Lemma silent_enqueue call payload metadata :
  silent (enqueueGeminiRequest call payload metadata).
Proof. intros w. unfold enqueueGeminiRequest. now destruct (call w payload). Qed.

Lemma silent_awaitSubAgent ext modelName agent taskPrompt persona :
  silent (awaitSubAgent ext modelName agent taskPrompt persona).
Proof.
  intros w. unfold awaitSubAgent.
  now destruct (invokeSubAgent ext w modelName agent taskPrompt persona).
Qed.

Ltac silent_step :=
  lazymatch goal with
  | |- silent (bind _ _) => apply silent_bind; [|intros]
  | |- silent (ret _) => now apply silent_still
  | |- silent (throw _) => now apply silent_still
  | |- silent (throw_Error _) => now apply silent_still
  | |- silent (throw_TypeError _) => now apply silent_still
  | |- silent (lift _) => now apply silent_still
  | |- silent Date_now => now apply silent_still
  | |- silent (enqueueGeminiRequest _ _ _) => apply silent_enqueue
  | |- silent (awaitSubAgent _ _ _ _ _) => apply silent_awaitSubAgent
  | |- silent (if ?b then _ else _) => destruct b
  | |- silent (match ?x with _ => _ end) => destruct x
  end.

Lemma silent_arg args key : silent (arg args key).
Proof. unfold arg. repeat silent_step. Qed.

Lemma silent_search ext modelName query : silent (search_the_web ext modelName query).
Proof.
  unfold search_the_web, require_ai, text_trim, response_text. repeat silent_step.
Qed.

Lemma silent_recall ext modelName query vectorStore :
  silent (recall_memory ext modelName query vectorStore).
Proof.
  unfold recall_memory, require_ai, text_trim, response_text. repeat silent_step.
Qed.

Lemma silent_synthesize ext modelName topic mindMap :
  silent (synthesize_knowledge ext modelName topic mindMap).
Proof.
  unfold synthesize_knowledge, require_ai, text_trim, response_text.
  apply silent_bind; [repeat silent_step|intros _].
  destruct (nodes mindMap); [repeat silent_step|].
  apply silent_bind; [apply silent_enqueue|intros r].
  apply silent_bind; [repeat silent_step|intros text].
  destruct (parse_node_ids text); repeat silent_step.
Qed.

Lemma silent_generateImage ext prompt : silent (generateImage ext prompt).
Proof. unfold generateImage, require_service_ai, image_data. repeat silent_step. Qed.

Lemma silent_editImage ext prompt data mimeType :
  silent (editImage ext prompt data mimeType).
Proof. unfold editImage, require_service_ai, image_data. repeat silent_step. Qed.

Lemma silent_careful {A} (m : M A) : silent m -> careful m.
Proof. intros H w. destruct (fst (m w)); [apply H|exact I]. Qed.

Lemma unfailing_careful {A} (m : M A) : unfailing m -> careful m.
Proof. intros H w. destruct (H w) as (a & w' & ->). exact I. Qed.

Lemma careful_after_silent {A B} (m : M A) (k : A -> M B) :
  silent m -> (forall a, careful (k a)) -> careful (bind m k).
Proof.
  intros Hm Hk w. unfold bind. specialize (Hm w).
  destruct (m w) as [[e|a] w1]; simpl in *; [assumption|].
  specialize (Hk a w1). destruct (k a w1) as [[e|b] w2]; simpl in *; [|exact I].
  congruence.
Qed.

Lemma careful_then_total {A B} (m : M A) (k : A -> M B) :
  careful m -> (forall a, unfailing (k a)) -> careful (bind m k).
Proof.
  intros Hm Hk w. unfold bind. specialize (Hm w).
  destruct (m w) as [[e|a] w1]; simpl in *; [assumption|].
  destruct (Hk a w1) as (b & w2 & ->). exact I.
Qed.

Lemma unfailing_ret {A} (a : A) : unfailing (ret a).
Proof. intros w. now exists a, w. Qed.

Lemma unfailing_bind {A B} (m : M A) (k : A -> M B) :
  unfailing m -> (forall a, unfailing (k a)) -> unfailing (bind m k).
Proof.
  intros Hm Hk w. unfold bind. destruct (Hm w) as (a & w1 & ->). apply Hk.
Qed.

Lemma unfailing_logEvent p : unfailing (logEvent p).
Proof. intros w. eexists _, _. reflexivity. Qed.

Lemma unfailing_Date_now : unfailing Date_now.
Proof. intros w. eexists _, _. reflexivity. Qed.

Ltac unfailing_step :=
  lazymatch goal with
  | |- unfailing (bind _ _) => apply unfailing_bind; [|intros]
  | |- unfailing (ret _) => apply unfailing_ret
  | |- unfailing (logEvent _) => apply unfailing_logEvent
  | |- unfailing Date_now => apply unfailing_Date_now
  | |- unfailing (if ?b then _ else _) => destruct b
  | |- unfailing (let '(_, _) := ?x in _) => destruct x
  end.

Lemma careful_writeFileToVFS vfs path content : careful (writeFileToVFS vfs path content).
Proof.
  unfold writeFileToVFS, ensureDirectoryExists.
  destruct (pop_last (resolvePath path)) as [[|c filename]|];
    try (apply silent_careful; now apply silent_still).
  apply careful_after_silent; [now apply silent_still|intros dirs].
  apply careful_after_silent; [now apply silent_still|intros written].
  apply unfailing_careful. repeat unfailing_step.
Qed.

Lemma careful_run_terminal_command ext modelName command vfs mindMap :
  careful (run_terminal_command ext modelName command vfs mindMap).
Proof.
  unfold run_terminal_command. cbv zeta.
  repeat lazymatch goal with
         | |- careful (if ?b then _ else _) => destruct b
         end.
  - apply silent_careful. repeat silent_step.
  - apply silent_careful. repeat silent_step.
  - apply silent_careful. repeat silent_step.
  - destruct (List.filter _ (tl _)) as [|filepath [|c contents]];
      try (apply silent_careful; now apply silent_still).
    apply careful_then_total; [apply careful_writeFileToVFS|intros newVFS].
    repeat unfailing_step.
  - destruct (List.filter _ (tl _)) as [|path rest];
      [apply silent_careful; now apply silent_still|].
    apply careful_after_silent;
      [unfold ensureDirectoryExists; now apply silent_still|intros newVFS].
    apply unfailing_careful. repeat unfailing_step.
  - destruct (List.filter _ (tl _)) as [|filepath rest];
      [apply silent_careful; now apply silent_still|].
    apply careful_then_total; [apply careful_writeFileToVFS|intros newVFS].
    apply unfailing_ret.
  - apply silent_careful. now apply silent_still.
Qed.

Lemma careful_upsert ext args mindMap : careful (upsert_mind_map_node ext args mindMap).
Proof.
  unfold upsert_mind_map_node, destructure.
  apply careful_after_silent; [repeat silent_step|intros a].
  apply careful_after_silent; [repeat silent_step|intros t].
  destruct (Js.truthy _).
  - destruct (find _ _); [|apply unfailing_careful; apply unfailing_ret].
    apply unfailing_careful. repeat unfailing_step.
  - destruct (negb _ || negb _); [apply unfailing_careful; apply unfailing_ret|].
    destruct (Dict.get a "name"); [|apply silent_careful; now apply silent_still].
    apply unfailing_careful. repeat unfailing_step.
Qed.

Lemma careful_create_link args mindMap : careful (create_mind_map_link args mindMap).
Proof.
  unfold create_mind_map_link, destructure.
  apply careful_after_silent; [repeat silent_step|intros a].
  apply unfailing_careful. repeat unfailing_step.
Qed.

Lemma careful_transcend ext modelName inquiry mindMap :
  careful (transcend ext modelName inquiry mindMap).
Proof.
  unfold transcend, require_ai, text_trim, response_text.
  apply careful_after_silent; [repeat silent_step|intros _].
  apply careful_after_silent; [apply silent_enqueue|intros response].
  apply careful_after_silent; [repeat silent_step|intros insight].
  apply unfailing_careful. repeat unfailing_step.
Qed.

Lemma unfailing_refine_ops now operations state : unfailing (refine_ops now operations state).
Proof.
  intros w. destruct state as [g summary].
  destruct (refine_ops_returns now operations g summary w)
    as (g' & added & evs & Hrun & _).
  rewrite Hrun. eauto.
Qed.

Lemma careful_refine_mind_map ext modelName mindMap :
  careful (refine_mind_map ext modelName mindMap).
Proof.
  unfold refine_mind_map, require_ai, parse_operations.
  apply careful_after_silent; [repeat silent_step|intros _].
  apply careful_after_silent; [apply silent_enqueue|intros response].
  apply careful_after_silent; [repeat silent_step|intros operations].
  apply unfailing_careful.
  apply unfailing_bind; [apply unfailing_Date_now|intros t].
  apply unfailing_bind; [apply unfailing_refine_ops|intros [newMindMap summary]].
  apply unfailing_ret.
Qed.

Lemma careful_dispatch ext modelName name args mindMapData vfs vectorStore persona chat :
  careful (dispatch ext modelName name args mindMapData vfs vectorStore persona chat).
Proof.
  unfold dispatch. cbv zeta.
  repeat lazymatch goal with
         | |- careful (if ?b then _ else _) => destruct b
         end.
  - apply silent_careful.
    repeat first [apply silent_arg | apply silent_search | silent_step].
  - apply careful_after_silent; [apply silent_arg|intros agent].
    apply careful_after_silent; [apply silent_arg|intros taskPrompt].
    apply careful_after_silent; [apply silent_awaitSubAgent|intros report].
    apply careful_after_silent; [now apply silent_still|intros t].
    apply careful_then_total; [apply careful_writeFileToVFS|intros newVFS].
    apply unfailing_ret.
  - apply careful_after_silent; [apply silent_arg|intros [command|]];
      [|apply silent_careful; now apply silent_still].
    apply careful_then_total; [apply careful_run_terminal_command|intros r].
    apply unfailing_ret.
  - apply silent_careful. repeat first [apply silent_arg | silent_step].
  - apply silent_careful.
    repeat first [apply silent_arg | apply silent_recall | silent_step].
  - apply careful_then_total; [apply careful_upsert|intros r]. apply unfailing_ret.
  - apply careful_then_total; [apply careful_create_link|intros r]. apply unfailing_ret.
  - apply silent_careful.
    repeat first [apply silent_arg | apply silent_synthesize | silent_step].
  - apply careful_then_total; [apply careful_refine_mind_map|intros r]. apply unfailing_ret.
  - apply careful_after_silent; [apply silent_arg|intros inquiry].
    apply careful_then_total; [apply careful_transcend|intros r]. apply unfailing_ret.
  - apply silent_careful.
    repeat first [apply silent_arg | apply silent_generateImage | silent_step].
  - apply silent_careful.
    repeat first [apply silent_arg | apply silent_editImage | silent_step].
  - apply silent_careful. repeat first [apply silent_arg | silent_step].
  - apply silent_careful. repeat first [apply silent_arg | silent_step].
  - apply silent_careful. now apply silent_still.
  - apply careful_after_silent; [now apply silent_still|intros t].
    apply careful_after_silent; [now apply silent_still|intros t'].
    apply careful_then_total; [apply careful_writeFileToVFS|intros newVFS].
    apply unfailing_ret.
  - apply silent_careful. now apply silent_still.
Qed.

(** X29. A tool call that fails has logged no state change and hands back
    no store: when the handler throws, the audit log has received the record
    of the failed call and nothing else, and the result carries no graph, no
    file system and no handled path. *)
Theorem failed_tool_logs_no_state_change (ext : Externals) (modelName : string)
    (toolCall : FunctionCall) (mindMapData : MindMapData) (vfs : VirtualFileSystem)
    (vectorStore : VectorStore) (personaDescription : string)
    (chatHistory : list ChatMessage) (w : World) (e : exn) :
  fst (dispatch ext modelName (fc_name toolCall) (fc_args toolCall) mindMapData vfs
                vectorStore personaDescription chatHistory w) = inl e ->
  auditLog (snd (executeTool ext modelName toolCall mindMapData vfs vectorStore
                             personaDescription chatHistory w))
  = (auditLog w
     ++ [mkAuditEvent (clock w)
           (AGENT_ACTION (fc_name toolCall) (fc_args toolCall)
                         ("FAILED: " ++ error_message e))])%list
  /\ exists toolResult,
       fst (executeTool ext modelName toolCall mindMapData vfs vectorStore
                        personaDescription chatHistory w) = inr toolResult
       /\ newMindMapData toolResult = None
       /\ newVirtualFileSystem toolResult = None
       /\ filePathHandled toolResult = None.
Proof.
  intros Hthrows.
  pose proof (careful_dispatch ext modelName (fc_name toolCall) (fc_args toolCall)
                mindMapData vfs vectorStore personaDescription chatHistory w) as Hlog.
  destruct (appends_dispatch ext modelName (fc_name toolCall) (fc_args toolCall)
              mindMapData vfs vectorStore personaDescription chatHistory w)
    as [Hclock _].
  unfold executeTool, try_catch, bind.
  destruct (dispatch ext modelName (fc_name toolCall) (fc_args toolCall) mindMapData
                     vfs vectorStore personaDescription chatHistory w)
    as [[e'|r] w1]; simpl in *; [|discriminate].
  injection Hthrows as ->. rewrite Hlog, Hclock. split; [reflexivity|].
  eexists. repeat split.
Qed.

Lemma failed_tool_logs_no_state_change_witness :
  map ev_payload
      (auditLog (snd (executeTool (canned "ok") "m"
                        (mkFunctionCall (Some "run_terminal_command")
                                        (Some [("command", "write /a.txt/b hello")]))
                        root_graph [("a.txt", File "x")] [] "persona" [] w0)))
  = [AGENT_ACTION (Some "run_terminal_command")
                  (Some [("command", "write /a.txt/b hello")])
                  ("FAILED: " ++ error_message (not_a_directory "a.txt"))].
Proof.
  rewrite (proj1 (failed_tool_logs_no_state_change (canned "ok") "m"
                    (mkFunctionCall (Some "run_terminal_command")
                                    (Some [("command", "write /a.txt/b hello")]))
                    root_graph [("a.txt", File "x")] [] "persona" [] w0
                    (not_a_directory "a.txt") eq_refl)).
  reflexivity.
Defined.

(** ** Quoted content *)

Lemma scan_inside (q : ascii) (content rest : string) :
  has_char q content = false ->
  forall current,
    scan (content ++ String q rest) (Some q) current
    = scan rest None (current ++ content ++ String q EmptyString).
Proof.
  induction content as [|c content IH]; intros Hq current.
  - cbn [append scan]. now rewrite Ascii.eqb_refl.
  - cbn [has_char] in Hq. apply orb_false_iff in Hq as [Hc Hq].
    cbn [append scan]. rewrite Ascii.eqb_sym, Hc, (IH Hq).
    unfold add_char. now rewrite string_app_assoc.
Qed.

Lemma scan_quoted (content rest current : string) :
  has_char (ascii_of_nat 34) content = false ->
  scan (Js.quoted content ++ rest) None current
  = scan rest None (current ++ Js.quoted content).
Proof.
  intros Hq. unfold Js.quoted, Js.dq.
  change (String (ascii_of_nat 34) "" ++ content ++ String (ascii_of_nat 34) "")
    with (String (ascii_of_nat 34) (content ++ String (ascii_of_nat 34) "")).
  cbn [append]. rewrite string_app_assoc. cbn [append].
  cbn [scan]. change (Js.is_space (ascii_of_nat 34)) with false.
  change (is_quote (ascii_of_nat 34)) with true. cbv iota.
  rewrite has_char_app, (scan_inside _ _ _ Hq). unfold add_char.
  now rewrite string_app_assoc.
Qed.

Lemma strip_quotes_quoted (content : string) :
  strip_quotes (Js.quoted content) = content.
Proof.
  unfold strip_quotes, Js.quoted, Js.dq.
  change (String (ascii_of_nat 34) "" ++ content ++ String (ascii_of_nat 34) "")
    with (String (ascii_of_nat 34) (content ++ String (ascii_of_nat 34) "")).
  cbv beta iota zeta. rewrite Ascii.eqb_refl. cbv beta iota. rewrite rev_string_app.
  change (Js.rev_string (String (ascii_of_nat 34) ""))
    with (String (ascii_of_nat 34) "").
  cbn [append]. rewrite Ascii.eqb_refl. apply rev_string_involutive.
Qed.

Lemma tokenize_write_quoted (path content : string) :
  is_word path = true ->
  has_char (ascii_of_nat 34) content = false ->
  tokenize (write_quoted path content) = ["write"; path; Js.quoted content].
Proof.
  intros Hpath Hq. unfold tokenize, write_quoted.
  pose proof Hpath as Hchars. unfold is_word in Hchars.
  apply andb_true_iff in Hchars as [_ Hchars].
  change ("write " ++ path ++ " " ++ Js.quoted content)
    with ("write" ++ String " " (path ++ String " " (Js.quoted content))).
  rewrite (scan_word "write") by reflexivity. cbn [scan].
  change (Js.is_space " ") with true. cbv iota.
  rewrite (scan_word path) by assumption. cbn [scan].
  change (Js.is_space " ") with true. cbv iota.
  rewrite <- (string_app_nil_r (Js.quoted content)) at 1.
  rewrite scan_quoted by assumption. cbn [scan append].
  rewrite (flush_word path) by assumption. reflexivity.
Qed.

Lemma no_node_is_undefined (ns : list MindMapNode) : existsb (id_is None) ns = false.
Proof. induction ns as [|n ns IH]; [reflexivity|exact IH]. Qed.

(** X30. Content between double quotes is written as it stands: the
    command [write <path> "<content>"], for a content without double quotes,
    with whatever spaces, line breaks and single quotes it holds, does what
    the write of that very content to the path does; when the file is
    written it is found at the path with the content, and the graph is
    returned as it was. *)
Theorem write_keeps_quoted_content (ext : Externals) (modelName path content : string)
    (vfs : VirtualFileSystem) (mindMap : MindMapData) (w : World) :
  is_word path = true ->
  is_flag path = false ->
  has_char (ascii_of_nat 34) content = false ->
  match writeFileToVFS vfs path content w with
  | (inr newVFS, w') =>
      run_terminal_command ext modelName (write_quoted path content) vfs mindMap w
      = (inr (mkTerminalResult (wrote_message path content)
                               (Some newVFS) (Some mindMap) (Some path)), w')
      /\ getNodeFromPath newVFS path = Some (Node (File content))
  | (inl e, _) =>
      run_terminal_command ext modelName (write_quoted path content) vfs mindMap w
      = (inl e, w)
  end.
Proof.
  intros Hpath Hflag Hq.
  pose proof (tokenize_write_quoted path content Hpath Hq) as Htokens.
  assert (Hquoted : is_flag (Js.quoted content) = false) by reflexivity.
  rewrite (run_write ext modelName (write_quoted path content) vfs mindMap path
             (Js.quoted content) []).
  - cbn [Js.join]. rewrite strip_quotes_quoted. unfold bind.
    destruct (writeFileToVFS vfs path content w) as [[e|newVFS] w'] eqn:Hwrite.
    + now rewrite (writeFileToVFS_throws _ _ _ _ _ _ Hwrite).
    + split; [reflexivity|]. exact (writeFileToVFS_lookup _ _ _ _ _ _ Hwrite).
  - now rewrite Htokens.
  - unfold non_flags. rewrite Htokens. cbn [tl List.filter].
    now rewrite Hflag, Hquoted.
  - rewrite Htokens. cbn [List.filter].
    change (is_flag "write") with false. rewrite Hflag, Hquoted.
    unfold parent_flag. cbn [find]. apply no_node_is_undefined.
Qed.

Lemma write_keeps_quoted_content_witness :
  run_terminal_command (canned "ok") "m"
    (write_quoted "/notes/a.txt" "it's a  long   story") [] root_graph w0
  = (inr (mkTerminalResult (wrote_message "/notes/a.txt" "it's a  long   story")
            (Some [("notes", Folder [("a.txt", File "it's a  long   story")])])
            (Some root_graph) (Some "/notes/a.txt")),
     mkWorld 1000 [WRITE_FILE_event 1000 "/notes/a.txt" "it's a  long   story"] []).
Proof.
  exact (proj1 (write_keeps_quoted_content (canned "ok") "m" "/notes/a.txt"
                  "it's a  long   story" [] root_graph w0 eq_refl eq_refl eq_refl)).
Defined.

(** ** The deep copy on an example *)

Lemma deep_copy_serialises_alike_witness :
  exists v' added,
    Heap.deep_copy (fst root_store) (w0, snd root_store)
    = (inr v', (w0, (snd root_store ++ added)%list))
    /\ Heap.closed (snd root_store ++ added)%list
    /\ Heap.fresh (length (snd root_store)) v'
    /\ forall fuel, Heap.depth (json_of_mindMap root_graph) <= fuel ->
                    Heap.to_json fuel (snd root_store ++ added)%list v'
                    = Some (Some (json_of_mindMap root_graph)).
Proof.
  apply (CopyOnWrite.deep_copy_serialises_alike (fst root_store) w0 (snd root_store)
           (json_of_mindMap root_graph)).
  - vm_compute. repeat constructor.
  - vm_compute. reflexivity.
Defined.
